(** * Component Reconciliation Engine of the Figma MCP server

    A shallow embedding of the analytic helpers of
    [src/server/mcp-server.ts]: the name-similarity matcher
    ([longestCommonSubsequence], [calculateNameSimilarity]), the mapping
    reconciler ([createComponentMappings]), the consistency scorer
    ([calculateConsistencyScore]) and the heuristic extractor
    ([extractComponentInfo], [extractExports], [extractProps]).

    JavaScript strings are sequences of UTF-16 code units; they are lists
    of [N] here.  Array indices and lengths are [nat].  A JavaScript
    number that is the result of a division is a [number]: either [NaN],
    an infinity, or an exact rational in canonical form ([Qc]), so that
    JavaScript's [===] on the values met here is Leibniz equality. *)

From stdpp Require Import strings gmap list numbers sorting pretty.
From Stdlib Require Import QArith Qcanon.

Close Scope Qc_scope.
Close Scope Q_scope.

Set Default Proof Using "Type".

(** ** Strings *)

Abbreviation jsstring := (list N).

(** The code units of an ASCII literal. *)
Fixpoint str (s : string) : jsstring :=
  match s with
  | EmptyString => []
  | String a s' => Ascii.N_of_ascii a :: str s'
  end.

(** ** Numbers *)

(** The quotients met here are [p / q] for integers [0 <= p <= q] bounded
    by string lengths.  Rounding to a double is monotone and exact at
    [0.5] and [1], and for names shorter than [2^25] code units distinct
    quotients round to distinct doubles; so the test [> 0.5] and the sign
    of a difference of two scores are those of the exact values, which
    the model keeps. *)
Inductive number : Type :=
  | NaN : number
  | Infinity (negative : bool) : number
  | Fin (q : Qc) : number.

Global Instance number_eq_dec : EqDecision number.
Proof. solve_decision. Defined.

(** [x / y] on integer-valued operands. *)
Definition js_div (x y : Z) : number :=
  if bool_decide (y = 0%Z) then
    if bool_decide (x = 0%Z) then NaN else Infinity (bool_decide (x < 0)%Z)
  else Fin (Qc_of_Z x / Qc_of_Z y)%Qc.

(** [x - y]. *)
Definition js_sub (x y : number) : number :=
  match x, y with
  | NaN, _ | _, NaN => NaN
  | Fin a, Fin b => Fin (a - b)%Qc
  | Infinity s, Fin _ => Infinity s
  | Fin _, Infinity s => Infinity (negb s)
  | Infinity s, Infinity t => if bool_decide (s = t) then NaN else Infinity s
  end.

(** [x > y]; every comparison with [NaN] is false. *)
Definition js_gt (x y : number) : bool :=
  match x, y with
  | NaN, _ | _, NaN => false
  | Fin a, Fin b => bool_decide (b < a)%Qc
  | Infinity s, Fin _ => negb s
  | Fin _, Infinity s => s
  | Infinity s, Infinity t => negb s && t
  end.

Definition num_half : number := Fin (Q2Qc (1 # 2)).
Definition num_zero : number := Fin 0%Qc.
Definition num_one : number := Fin 1%Qc.

(** ** Name similarity: [longestCommonSubsequence] *)

(** [matrix[i][j]] and [matrix[i][j] = v] on an array of arrays.  The
    loops below stay inside the array ([lcs_cell_in_range]), so the
    defaults of the total lookups are never read and no write falls
    outside. *)
Definition mget (matrix : list (list nat)) (i j : nat) : nat :=
  (matrix !!! i) !!! j.

Definition mset (matrix : list (list nat)) (i j : nat) (v : nat)
  : list (list nat) :=
  <[i := <[j := v]> (matrix !!! i)]> matrix.

(** The body of the inner loop, for row [i] and column [j]. *)
Definition lcs_cell (str1 str2 : jsstring) (i : nat)
    (matrix : list (list nat)) (j : nat) : list (list nat) :=
  if bool_decide (str1 !! (i - 1) = str2 !! (j - 1)) then
    mset matrix i j (mget matrix (i - 1) (j - 1) + 1)
  else
    mset matrix i j (mget matrix (i - 1) j `max` mget matrix i (j - 1)).

(** The inner loop [for (let j = 1; j <= str2.length; j++)]. *)
Definition lcs_row (str1 str2 : jsstring)
    (matrix : list (list nat)) (i : nat) : list (list nat) :=
  foldl (lcs_cell str1 str2 i) matrix (seq 1 (length str2)).

Definition longestCommonSubsequence (str1 str2 : jsstring) : nat :=
  let matrix := replicate (length str1 + 1) (replicate (length str2 + 1) 0) in
  let matrix := foldl (lcs_row str1 str2) matrix (seq 1 (length str1)) in
  mget matrix (length str1) (length str2).

Definition calculateNameSimilarity (name1 name2 : jsstring) : number :=
  let lcs := longestCommonSubsequence name1 name2 in
  js_div (2 * Z.of_nat lcs) (Z.of_nat (length name1 + length name2)).

(** The classic recurrence on prefix lengths, as the specification words
    it: cell [i][j] is [table[i-1][j-1] + 1] when the characters match,
    else the maximum of [table[i-1][j]] and [table[i][j-1]]. *)
Fixpoint lcs_table (a b : jsstring) (i : nat) : nat → nat :=
  match i with
  | 0 => λ _, 0
  | S i' =>
      fix row (j : nat) : nat :=
        match j with
        | 0 => 0
        | S j' =>
            if bool_decide (a !! i' = b !! j') then lcs_table a b i' j' + 1
            else lcs_table a b i' (S j') `max` row j'
        end
  end.

(** The loop invariant of [longestCommonSubsequence]: the array keeps
    [length a + 1] rows of [length b + 1] cells, and the cells the loops
    have passed at row [i], column [j] hold the recurrence. *)
Definition lcs_dims (a b : jsstring) (m : list (list nat)) : Prop :=
  length m = length a + 1 ∧
  ∀ r, r ≤ length a → length (m !!! r) = length b + 1.

Definition lcs_filled (a b : jsstring) (i j : nat) (m : list (list nat))
  : Prop :=
  ∀ r c, r ≤ length a → c ≤ length b →
    r < i ∨ (r = i ∧ c ≤ j) ∨ r = 0 ∨ c = 0 →
    mget m r c = lcs_table a b r c.

(** [n] is the length of a longest common subsequence of [a] and [b]. *)
Definition is_lcs_length (a b : jsstring) (n : nat) : Prop :=
  (∃ w : jsstring, w `sublist_of` a ∧ w `sublist_of` b ∧ length w = n) ∧
  (∀ w : jsstring, w `sublist_of` a → w `sublist_of` b → length w ≤ n).

(** ** Records of the reconciler *)

(** What [extractComponentInfo] returns for a file. *)
Record CodeComponent : Type := mkCodeComponent {
  cc_name : jsstring;
  cc_path : jsstring;
  cc_framework : jsstring;
  cc_size : nat;
  cc_exports : list jsstring;
  cc_props : list jsstring;
}.

(** A value of the design tool's component table.  [description] may be
    absent ([undefined]). *)
Record FigmaComponent : Type := mkFigmaComponent {
  fc_name : jsstring;
  fc_description : option jsstring;
}.

Record ExactMatch : Type := mkExactMatch {
  em_figma_id : jsstring;
  em_figma_name : jsstring;
  em_code_component : CodeComponent;
  em_confidence : number;
}.

Record Suggestion : Type := mkSuggestion {
  sg_component : CodeComponent;
  sg_similarity : number;
}.

Record SimilarMatch : Type := mkSimilarMatch {
  sm_figma_id : jsstring;
  sm_figma_name : jsstring;
  sm_suggestions : list Suggestion;
}.

Record MissingInCode : Type := mkMissingInCode {
  mc_figma_id : jsstring;
  mc_figma_name : jsstring;
  mc_description : jsstring;
}.

Record MissingInFigma : Type := mkMissingInFigma {
  mf_name : jsstring;
  mf_path : jsstring;
  mf_framework : jsstring;
}.

Record Mappings : Type := mkMappings {
  exact_matches : list ExactMatch;
  similar_matches : list SimilarMatch;
  missing_in_code : list MissingInCode;
  missing_in_figma : list MissingInFigma;
}.

(** ** [Array.prototype.sort] *)

(** The sort is stable, and [cmp a b > 0] places [a] after [b]; a
    comparator result of [NaN] counts as [0].  For a comparator that is a
    weak order every stable sort returns the same array, so one stable
    algorithm stands for the engine's. *)
Section sort.
Context {A : Type} (cmp : A → A → number).

Fixpoint sort_insert (x : A) (l : list A) : list A :=
  match l with
  | [] => [x]
  | y :: l' =>
      if js_gt (cmp x y) num_zero then y :: sort_insert x l'
      else x :: y :: l'
  end.

Definition js_sort (l : list A) : list A := foldr sort_insert [] l.
End sort.

(** ** The mapping reconciler: [createComponentMappings] *)

Section reconciler.
(** [String.prototype.toLowerCase] of the engine. *)
Variable toLowerCase : jsstring → jsstring.

(** The comparator [(a, b) => b.similarity - a.similarity]. *)
Definition by_similarity_desc (a b : Suggestion) : number :=
  js_sub (sg_similarity b) (sg_similarity a).

(** The chain [codeComponents.map(..).filter(..).sort(..)]. *)
Definition similar_candidates (figmaName : jsstring)
    (codeComponents : list CodeComponent) : list Suggestion :=
  js_sort by_similarity_desc
    (filter (λ m, js_gt (sg_similarity m) num_half)
       ((λ cc, {| sg_component := cc;
                  sg_similarity :=
                    calculateNameSimilarity figmaName
                      (toLowerCase (cc_name cc)) |})
          <$> codeComponents)).

(** The body of the [forEach] over [Object.entries(figmaComponents)]:
    one design component is pushed onto one of the arrays. *)
Definition classify (codeComponents : list CodeComponent)
    (mappings : Mappings) (entry : jsstring * FigmaComponent) : Mappings :=
  let id := entry.1 in
  let figmaComponent := entry.2 in
  let figmaName := toLowerCase (fc_name figmaComponent) in
  let exactMatch :=
    snd <$> list_find (λ cc, toLowerCase (cc_name cc) = figmaName)
              codeComponents in
  match exactMatch with
  | Some cc =>
      {| exact_matches :=
           exact_matches mappings ++
             [ {| em_figma_id := id;
                  em_figma_name := fc_name figmaComponent;
                  em_code_component := cc;
                  em_confidence := num_one |} ];
         similar_matches := similar_matches mappings;
         missing_in_code := missing_in_code mappings;
         missing_in_figma := missing_in_figma mappings |}
  | None =>
      let similarMatches := similar_candidates figmaName codeComponents in
      if bool_decide (0 < length similarMatches) then
        {| exact_matches := exact_matches mappings;
           similar_matches :=
             similar_matches mappings ++
               [ {| sm_figma_id := id;
                    sm_figma_name := fc_name figmaComponent;
                    sm_suggestions := take 3 similarMatches |} ];
           missing_in_code := missing_in_code mappings;
           missing_in_figma := missing_in_figma mappings |}
      else
        {| exact_matches := exact_matches mappings;
           similar_matches := similar_matches mappings;
           missing_in_code :=
             missing_in_code mappings ++
               [ {| mc_figma_id := id;
                    mc_figma_name := fc_name figmaComponent;
                    mc_description :=
                      default [] (fc_description figmaComponent) |} ];
           missing_in_figma := missing_in_figma mappings |}
  end.

(** The names collected into [mappedCodeComponents]. *)
Definition mapped_names (mappings : Mappings) : list jsstring :=
  ((λ m, cc_name (em_code_component m)) <$> exact_matches mappings) ++
  (similar_matches mappings ≫=
     λ m, (λ s, cc_name (sg_component s)) <$> sm_suggestions m).

(** [figmaComponents] is given by its [Object.entries], in that order. *)
Definition createComponentMappings
    (figmaComponents : list (jsstring * FigmaComponent))
    (codeComponents : list CodeComponent) (includeProps : bool) : Mappings :=
  let mappings :=
    foldl (classify codeComponents)
      {| exact_matches := []; similar_matches := [];
         missing_in_code := []; missing_in_figma := [] |}
      figmaComponents in
  let mappedCodeComponents : gset jsstring :=
    list_to_set (mapped_names mappings) in
  {| exact_matches := exact_matches mappings;
     similar_matches := similar_matches mappings;
     missing_in_code := missing_in_code mappings;
     missing_in_figma :=
       (λ cc, {| mf_name := cc_name cc;
                 mf_path := cc_path cc;
                 mf_framework := cc_framework cc |})
         <$> filter (λ cc, cc_name cc ∉ mappedCodeComponents)
               codeComponents |}.
End reconciler.

(** ASCII lower-casing, to run the reconciler on ASCII names. *)
Definition ascii_toLowerCase (s : jsstring) : jsstring :=
  (λ c, if bool_decide (65 ≤ c ≤ 90)%N then (c + 32)%N else c) <$> s.

(** ** The consistency scorer *)

Inductive Severity : Type := low | medium | high.

Record Issue : Type := mkIssue {
  issue_type : jsstring;
  issue_figma : jsstring;
  issue_code : jsstring;
  issue_text : jsstring;
  issue_severity : Severity;
}.

(** What a sub-analysis returns. *)
Record Analysis : Type := mkAnalysis {
  an_total : nat;
  an_consistent : nat;
  an_issues : list Issue;
}.

(** The report under construction; [issues] may be absent on a report
    handed to [calculateConsistencyScore], which reads it through [?.]. *)
Record ConsistencyReport : Type := mkConsistencyReport {
  consistency_score : Z;
  issues : option (list Issue);
  recommendations : list jsstring;
}.

Definition calculateConsistencyScore (report : ConsistencyReport) : Z :=
  let totalIssues := Z.of_nat (default 0 (length <$> issues report)) in
  0 `max` (100 - totalIssues * 10).

Definition generateConsistencyRecommendations (report : ConsistencyReport)
  : list jsstring :=
  let recommendations := [] in
  let recommendations :=
    if bool_decide (consistency_score report < 70)%Z then
      recommendations ++
        [str "Consider refactoring components to match Figma designs more closely"]
    else recommendations in
  let recommendations :=
    if bool_decide (0 < default 0 (length <$> issues report)) then
      recommendations ++
        [str "Address the identified consistency issues to improve design-code alignment"]
    else recommendations in
  recommendations ++
    [str "Regularly sync design changes with code implementations"].

(** The placeholder sub-analyses of the repository. *)
Definition checkComponentConsistency_stub : Analysis :=
  {| an_total := 0; an_consistent := 0; an_issues := [] |}.
Definition checkStyleConsistency_stub : Analysis :=
  {| an_total := 0; an_consistent := 0; an_issues := [] |}.

(** The report assembly of [analyzeDesignCodeConsistency], for given
    results of the two sub-analyses. *)
Definition analyzeDesignCodeConsistency
    (componentsAnalysis stylesAnalysis : Analysis)
    (check_styles check_components : bool) : ConsistencyReport :=
  let issues0 : list Issue := [] in
  let issues1 :=
    if check_components then issues0 ++ an_issues componentsAnalysis
    else issues0 in
  let issues2 :=
    if check_styles then issues1 ++ an_issues stylesAnalysis else issues1 in
  let report :=
    {| consistency_score := 0; issues := Some issues2;
       recommendations := [] |} in
  let report :=
    {| consistency_score := calculateConsistencyScore report;
       issues := issues report; recommendations := recommendations report |} in
  {| consistency_score := consistency_score report;
     issues := issues report;
     recommendations := generateConsistencyRecommendations report |}.

(** ** Regular expressions *)

(** The fragment of the pattern language that the extractor's literals
    use, with the backtracking semantics of the engine: alternatives
    are tried left to right and quantifiers are greedy. *)
Inductive regex : Type :=
  | Empty : regex
  | Char (c : N) : regex
  | Class (p : N → bool) : regex
  | Seq (r1 r2 : regex) : regex
  | Alt (r1 r2 : regex) : regex
  | Star (r : regex) : regex
  | Group (n : nat) (r : regex) : regex.

(** [r+] and [r?]. *)
Definition Plus (r : regex) : regex := Seq r (Star r).
Definition Opt (r : regex) : regex := Alt r Empty.

Definition seqs (rs : list regex) : regex := foldr Seq Empty rs.
Definition lit (s : string) : regex := seqs (Char <$> str s).

(** [\s], [\w], [[^}]], [[\?:]] and [[a-zA-Z]]. *)
Definition is_space (c : N) : bool :=
  bool_decide (c ∈ [9; 10; 11; 12; 13; 32; 160; 5760; 8232; 8233; 8239;
                    8287; 12288; 65279]%N)
  || bool_decide (8192 ≤ c ≤ 8202)%N.
Definition is_word (c : N) : bool :=
  bool_decide (97 ≤ c ≤ 122)%N || bool_decide (65 ≤ c ≤ 90)%N
  || bool_decide (48 ≤ c ≤ 57)%N || bool_decide (c = 95)%N.
Definition not_rbrace (c : N) : bool := negb (bool_decide (c = 125)%N).
Definition is_qmark_colon (c : N) : bool :=
  bool_decide (c = 63)%N || bool_decide (c = 58)%N.
Definition is_letter (c : N) : bool :=
  bool_decide (97 ≤ c ≤ 122)%N || bool_decide (65 ≤ c ≤ 90)%N.

(** Capture groups by number; an absent key is [undefined]. *)
Abbreviation captures := (gmap nat jsstring).

(** The iteration of a greedy [*] over the matcher [m] of its body:
    one more round of [m] is tried first, and a round that consumes
    nothing is rejected, as in the engine; when the rounds fail the
    continuation [k] takes over.  [fuel] bounds the rounds by the length
    of the input. *)
Fixpoint star_loop
    (m : jsstring → captures →
         (jsstring → captures → option (jsstring * captures)) →
         option (jsstring * captures))
    (k : jsstring → captures → option (jsstring * captures))
    (fuel : nat) (s : jsstring) (caps : captures)
  : option (jsstring * captures) :=
  match fuel with
  | 0 => k s caps
  | S fuel' =>
      match m s caps
              (λ s' caps',
                 if bool_decide (length s' < length s)
                 then star_loop m k fuel' s' caps' else None) with
      | Some res => Some res
      | None => k s caps
      end
  end.

(** The matcher, in continuation-passing style: [rmatch r s caps k]
    matches [r] against a prefix of [s] and hands the rest of the input
    and the captures to [k]; when [k] fails, the next way to match [r]
    is tried. *)
Fixpoint rmatch (r : regex) (s : jsstring) (caps : captures)
    (k : jsstring → captures → option (jsstring * captures))
    {struct r} : option (jsstring * captures) :=
  match r with
  | Empty => k s caps
  | Char c =>
      match s with
      | x :: s' => if bool_decide (x = c) then k s' caps else None
      | [] => None
      end
  | Class p =>
      match s with
      | x :: s' => if p x then k s' caps else None
      | [] => None
      end
  | Seq r1 r2 => rmatch r1 s caps (λ s' caps', rmatch r2 s' caps' k)
  | Alt r1 r2 =>
      match rmatch r1 s caps k with
      | Some res => Some res
      | None => rmatch r2 s caps k
      end
  | Star r' => star_loop (rmatch r') k (length s) s caps
  | Group n r' =>
      rmatch r' s caps
        (λ s' caps', k s' (<[n := take (length s - length s') s]> caps'))
  end.

(** The words of [r], without regard to the order in which the matcher
    finds them. *)
Fixpoint lang (r : regex) (w : jsstring) : Prop :=
  match r with
  | Empty => w = []
  | Char c => w = [c]
  | Class p => ∃ c, w = [c] ∧ p c = true
  | Seq r1 r2 => ∃ w1 w2, w = w1 ++ w2 ∧ lang r1 w1 ∧ lang r2 w2
  | Alt r1 r2 => lang r1 w ∨ lang r2 w
  | Star r' => ∃ ws, w = concat ws ∧ Forall (lang r') ws
  | Group _ r' => lang r' w
  end.

(** [sub] occurs in [s]. *)
Definition contains (sub s : jsstring) : Prop :=
  ∃ pre post, s = pre ++ sub ++ post.

(** A match of [r] that starts at the head of [s]: the rest of the input
    and the captures. *)
Definition match_at (r : regex) (s : jsstring)
  : option (jsstring * captures) :=
  rmatch r s ∅ (λ s' caps, Some (s', caps)).

(** The leftmost match in [s], which is the input from index [i] on. *)
Fixpoint search (r : regex) (s : jsstring) (i : nat)
  : option (nat * jsstring * captures) :=
  match match_at r s with
  | Some (rest, caps) => Some (i, rest, caps)
  | None =>
      match s with
      | [] => None
      | _ :: s' => search r s' (S i)
      end
  end.

Record MatchResult : Type := mkMatchResult {
  mr_index : nat;         (* where the match starts *)
  mr_end : nat;           (* where it ends: the next [lastIndex] *)
  mr_match : jsstring;    (* [match[0]] *)
  mr_groups : captures;   (* [match[1]], [match[2]], ... *)
}.

(** [regex.exec(content)] of a global pattern whose [lastIndex] is
    [lastIndex]. *)
Definition regex_exec (r : regex) (content : jsstring) (lastIndex : nat)
  : option MatchResult :=
  if bool_decide (length content < lastIndex) then None
  else
    (λ '(i, rest, caps),
       {| mr_index := i;
          mr_end := length content - length rest;
          mr_match := take (length content - length rest - i) (drop i content);
          mr_groups := caps |})
      <$> search r (drop lastIndex content) lastIndex.

(** [regex.test(content)] of a fresh pattern. *)
Definition regex_test (r : regex) (content : jsstring) : bool :=
  bool_decide (is_Some (regex_exec r content 0)).

(** All the matches of a global pattern, as [String.prototype.match] and
    [String.prototype.replace] enumerate them: after an empty match the
    scan moves on by one code unit. *)
Fixpoint exec_all (fuel : nat) (r : regex) (content : jsstring)
    (lastIndex : nat) : list MatchResult :=
  match fuel with
  | 0 => []
  | S fuel' =>
      match regex_exec r content lastIndex with
      | None => []
      | Some m =>
          let next :=
            if bool_decide (mr_match m = []) then S (mr_end m)
            else mr_end m in
          m :: exec_all fuel' r content next
      end
  end.

(** [content.match(r)] for a global [r]: [null] when nothing matches. *)
Definition string_match_global (r : regex) (content : jsstring)
  : option (list jsstring) :=
  match mr_match <$> exec_all (length content + 2) r content 0 with
  | [] => None
  | l => Some l
  end.

(** [content.replace(r, replacement)] for a global [r] and a replacement
    without [$] patterns. *)
Definition string_replace_global (r : regex) (replacement : jsstring)
    (content : jsstring) : jsstring :=
  let acc :=
    foldl (λ (acc : jsstring * nat) m,
             (acc.1 ++ take (mr_index m - acc.2) (drop acc.2 content)
                ++ replacement,
              mr_end m))
      ([], 0) (exec_all (length content + 2) r content 0) in
  acc.1 ++ drop acc.2 content.

(** ** The component extractor *)

Definition react_pattern : regex :=
  Alt
    (seqs [lit "export"; Plus (Class is_space);
           Opt (seqs [lit "default"; Plus (Class is_space)]);
           Alt (lit "function") (Alt (lit "const") (lit "class"));
           Plus (Class is_space); Group 1 (Plus (Class is_word))])
    (seqs [lit "function"; Plus (Class is_space);
           Group 2 (Plus (Class is_word)); Star (Class is_space); lit "("]).

Definition vue_pattern : regex :=
  Alt (lit "<template>")
    (seqs [lit "export"; Plus (Class is_space); lit "default";
           Star (Class is_space); lit "{"]).

Definition angular_pattern : regex :=
  seqs [lit "@Component"; Star (Class is_space); lit "("].

Definition svelte_pattern : regex :=
  Alt (lit "<script>")
    (Alt (lit "<style>") (seqs [lit "<"; Class is_letter])).

Definition vanilla_pattern : regex :=
  Alt (seqs [lit "class"; Plus (Class is_space);
             Group 1 (Plus (Class is_word))])
    (seqs [lit "function"; Plus (Class is_space);
           Group 2 (Plus (Class is_word))]).

(** The table [patterns], read at the key [framework]. *)
Definition patterns (framework : jsstring) : option regex :=
  if bool_decide (framework = str "react") then Some react_pattern
  else if bool_decide (framework = str "vue") then Some vue_pattern
  else if bool_decide (framework = str "angular") then Some angular_pattern
  else if bool_decide (framework = str "svelte") then Some svelte_pattern
  else if bool_decide (framework = str "vanilla") then Some vanilla_pattern
  else None.

Definition exportRegex : regex :=
  seqs [lit "export"; Plus (Class is_space);
        Opt (seqs [lit "default"; Plus (Class is_space)]);
        Alt (lit "function") (Alt (lit "const") (lit "class"));
        Plus (Class is_space); Group 1 (Plus (Class is_word))].

Definition propsRegex : regex :=
  seqs [Alt (lit "interface") (lit "type"); Plus (Class is_space);
        Star (Class is_word); lit "Props"; Star (Class is_space); lit "{";
        Group 1 (Plus (Class not_rbrace)); lit "}"].

(** [/(\w+)(?:\?)?:/g] and [/[\?:]/g]. *)
Definition propTokenRegex : regex :=
  seqs [Group 1 (Plus (Class is_word)); Opt (lit "?"); lit ":"].
Definition propPunctRegex : regex := Class is_qmark_colon.

(** The loop [while ((match = exportRegex.exec(content)) !== null)]:
    [None] stands for a loop that has not ended within [fuel] rounds. *)
Fixpoint exports_loop (fuel : nat) (content : jsstring) (lastIndex : nat)
    (exports : list jsstring) : option (list jsstring) :=
  match fuel with
  | 0 => None
  | S fuel' =>
      match regex_exec exportRegex content lastIndex with
      | None => Some exports
      | Some m =>
          exports_loop fuel' content (mr_end m)
            (exports ++ [default [] (mr_groups m !! 1)])
      end
  end.

Definition extractExports (content : jsstring) (framework : jsstring)
  : option (list jsstring) :=
  exports_loop (length content + 1) content 0 [].

Definition extractProps (content : jsstring) (framework : jsstring)
  : list jsstring :=
  let props := [] in
  if bool_decide (framework = str "react") then
    match regex_exec propsRegex content 0 with
    | Some m =>
        let propsContent := default [] (mr_groups m !! 1) in
        match string_match_global propTokenRegex propsContent with
        | Some propMatches =>
            props ++ (string_replace_global propPunctRegex [] <$> propMatches)
        | None => props
        end
    | None => props
    end
  else props.

Section extractor.
(** [path.basename] and [path.extname] of the runtime. *)
Variable path_basename : jsstring → jsstring → jsstring.
Variable path_extname : jsstring → jsstring.

(** The outer [option] is the termination of the export loop; the
    inner one is the function's [null]. *)
Definition extractComponentInfo (filePath content framework : jsstring)
  : option (option CodeComponent) :=
  let fileName := path_basename filePath (path_extname filePath) in
  match patterns framework with
  | None => Some None
  | Some pattern =>
      if negb (regex_test pattern content) then Some None
      else
        exports ← extractExports content framework;
        Some (Some {| cc_name := fileName;
                      cc_path := filePath;
                      cc_framework := framework;
                      cc_size := length content;
                      cc_exports := exports;
                      cc_props := extractProps content framework |})
  end.
End extractor.

(** ** Notions used to state the properties of the reconciler *)

(** How many entries of the three groups carry the design component
    [id]. *)
Definition group_count (id : jsstring) (M : Mappings) : nat :=
  length (filter (λ m, em_figma_id m = id) (exact_matches M)) +
  length (filter (λ m, sm_figma_id m = id) (similar_matches M)) +
  length (filter (λ m, mc_figma_id m = id) (missing_in_code M)).

(** The name [n] is the name of the chosen exact match of some design
    component, or appears in some suggestion list. *)
Definition referenced (M : Mappings) (n : jsstring) : Prop :=
  Exists (λ m, cc_name (em_code_component m) = n) (exact_matches M) ∨
  Exists (λ m, Exists (λ s, cc_name (sg_component s) = n) (sm_suggestions m))
    (similar_matches M).

Global Instance referenced_dec M n : Decision (referenced M n).
Proof. unfold referenced. apply _. Defined.

(** What [missing_in_figma] keeps of a code component. *)
Definition figma_summary (cc : CodeComponent) : MissingInFigma :=
  {| mf_name := cc_name cc; mf_path := cc_path cc;
     mf_framework := cc_framework cc |}.

(** [a] does not score below [b]: the order of a suggestion list. *)
Definition score_desc (a b : Suggestion) : Prop :=
  js_gt (sg_similarity b) (sg_similarity a) = false.

(** The suggestion has a finite score. *)
Definition finite_score (s : Suggestion) : Prop :=
  ∃ q, sg_similarity s = Fin q.

(** The ways a greedy run over the code units of [w] can end, the
    longest first: what [Star (Class p)] tries on [w ++ rest] when [w]
    is the whole run of [p]. *)
Fixpoint greedy_try (k : jsstring → captures → option (jsstring * captures))
    (caps : captures) (w rest : jsstring) : option (jsstring * captures) :=
  match w with
  | [] => k rest caps
  | c :: w' =>
      match greedy_try k caps w' rest with
      | Some res => Some res
      | None => k (c :: w' ++ rest) caps
      end
  end.

(** The input [s] is empty or starts with a code unit outside [p]. *)
Definition stops (p : N → bool) (s : jsstring) : Prop :=
  match s with
  | [] => True
  | c :: _ => p c = false
  end.

(** ** A reconciliation run, used in the examples *)

Definition example_code (name path : string) : CodeComponent :=
  {| cc_name := str name; cc_path := str path; cc_framework := str "react";
     cc_size := 0; cc_exports := []; cc_props := [] |}.

Definition example_figma : list (jsstring * FigmaComponent) :=
  [(str "1:1", mkFigmaComponent (str "Button") None);
   (str "1:2", mkFigmaComponent (str "Card") (Some (str "A card")));
   (str "1:3", mkFigmaComponent (str "HeaderNav") None);
   (str "1:4", mkFigmaComponent (str "NavBars") (Some (str "Top bar")))].

Definition example_codeComponents : list CodeComponent :=
  [example_code "Button" "src/Button.tsx";
   example_code "card" "src/card.tsx";
   example_code "Navbar" "src/Navbar.tsx";
   example_code "navBar" "src/old/navBar.tsx";
   example_code "Footer" "src/Footer.tsx"].

(** ** The source tree scanner *)

(** What the scanner meets below a directory, as a finite tree: a file,
    a directory with its listing ([None] when [readdirSync] throws), or
    a name on which [statSync] throws, such as a dangling link. *)
#[local] Set Warnings "-register-all".
Inductive fs_node : Type :=
  | FsFile : fs_node
  | FsDir (listing : option (list (jsstring * fs_node))) : fs_node
  | FsBroken : fs_node.

(** The table [extensionMap], with its fallback.  The callers pass one
    of the five names of the tool schema or, at most, another plain
    name. *)
Definition getFileExtensions (framework : jsstring) : list jsstring :=
  if bool_decide (framework = str "react") then
    [str ".jsx"; str ".tsx"; str ".js"; str ".ts"]
  else if bool_decide (framework = str "vue") then
    [str ".vue"; str ".js"; str ".ts"]
  else if bool_decide (framework = str "angular") then
    [str ".component.ts"; str ".ts"]
  else if bool_decide (framework = str "svelte") then
    [str ".svelte"; str ".js"; str ".ts"]
  else if bool_decide (framework = str "vanilla") then
    [str ".js"; str ".ts"]
  else [str ".js"; str ".ts"].

(** [extensions.some(ext => item.endsWith(ext))]. *)
Definition has_extension (extensions : list jsstring) (item : jsstring)
  : bool :=
  bool_decide (Exists (λ ext, ext `suffix_of` item) extensions).

Section scanner.
(** [path.join], [path.basename], [path.extname] and [fs.readFileSync]
    of the runtime; [readFileSync] is [None] where the call throws. *)
Variable path_join : jsstring → jsstring → jsstring.
Variable path_basename : jsstring → jsstring → jsstring.
Variable path_extname : jsstring → jsstring.
Variable readFileSync : jsstring → option jsstring.

(** [getAllFiles(dir, extensions)], where [node] is what [dir] names.
    The [try] spans the whole [forEach]: a throwing [statSync] ends the
    walk of the directory and keeps the files pushed so far, while a
    sub-directory that cannot be listed only contributes nothing. *)
Fixpoint getAllFiles (extensions : list jsstring) (dir : jsstring)
    (node : fs_node) {struct node} : list jsstring :=
  match node with
  | FsDir (Some items) =>
      (fix each (items : list (jsstring * fs_node)) : list jsstring :=
         match items with
         | [] => []
         | (item, child) :: rest =>
             let fullPath := path_join dir item in
             match child with
             | FsBroken => []
             | FsDir _ => getAllFiles extensions fullPath child ++ each rest
             | FsFile =>
                 (if has_extension extensions item then [fullPath] else [])
                   ++ each rest
             end
         end) items
  | _ => []
  end.

(** The body of [files.forEach] in [scanCodeComponents]: a file that
    cannot be read, or that is no component, adds nothing. *)
Definition scan_file (framework : jsstring)
    (components : list CodeComponent) (file : jsstring)
  : list CodeComponent :=
  match readFileSync file with
  | None => components
  | Some content =>
      match extractComponentInfo path_basename path_extname file content
              framework with
      | Some (Some componentInfo) => components ++ [componentInfo]
      | _ => components
      end
  end.

(** What [scan_file] pushes for a file, if anything. *)
Definition component_of (framework file : jsstring) : option CodeComponent :=
  content ← readFileSync file;
  default None
    (extractComponentInfo path_basename path_extname file content framework).

(** [scanCodeComponents(directory, framework)]; [root] is what
    [directory] names, [None] when [fs.existsSync] is false. *)
Definition scanCodeComponents (directory : jsstring)
    (root : option fs_node) (framework : jsstring) : list CodeComponent :=
  match root with
  | None => []
  | Some node =>
      let files :=
        getAllFiles (getFileExtensions framework) directory node in
      foldl (scan_file framework) [] files
  end.
End scanner.

(** A regular file named [name] is found at [path] below [dir], through
    directories that can be listed. *)
Inductive fs_reaches (path_join : jsstring → jsstring → jsstring)
  : jsstring → fs_node → jsstring → jsstring → Prop :=
  | fs_reaches_file dir items name :
      (name, FsFile) ∈ items →
      fs_reaches path_join dir (FsDir (Some items)) (path_join dir name) name
  | fs_reaches_dir dir items item sub path name :
      (item, FsDir sub) ∈ items →
      fs_reaches path_join (path_join dir item) (FsDir sub) path name →
      fs_reaches path_join dir (FsDir (Some items)) path name.

(** No name below the node makes [statSync] throw. *)
Fixpoint fs_stat_ok (node : fs_node) : Prop :=
  match node with
  | FsFile => True
  | FsBroken => False
  | FsDir None => True
  | FsDir (Some items) =>
      (fix all (items : list (jsstring * fs_node)) : Prop :=
         match items with
         | [] => True
         | (_, child) :: rest => fs_stat_ok child ∧ all rest
         end) items
  end.

(** A source tree, used in the examples: [src/] with two components, a
    style sheet, a dangling link and, after it, one more file. *)
Definition example_join (dir item : jsstring) : jsstring :=
  dir ++ str "/" ++ item.

Definition example_tree : fs_node :=
  FsDir (Some
    [(str "Button.tsx", FsFile);
     (str "theme.css", FsFile);
     (str "widgets",
      FsDir (Some [(str "Card.tsx", FsFile); (str "private", FsDir None)]));
     (str "stale-link", FsBroken);
     (str "Footer.tsx", FsFile)]).

(** ** Mapping suggestions *)

(** A count in a template literal: its decimal digits. *)
Definition count_to_string (n : nat) : jsstring := str (pretty n).

Definition generateMappingSuggestions (mappings : Mappings) : list jsstring :=
  let suggestions := [] in
  let suggestions :=
    if bool_decide (0 < length (exact_matches mappings)) then
      suggestions ++
        [str "Found " ++ count_to_string (length (exact_matches mappings))
           ++ str " exact component matches. These can be reused directly."]
    else suggestions in
  let suggestions :=
    if bool_decide (0 < length (similar_matches mappings)) then
      suggestions ++
        [str "Found " ++ count_to_string (length (similar_matches mappings))
           ++ str " similar components that might be reusable with modifications."]
    else suggestions in
  let suggestions :=
    if bool_decide (0 < length (missing_in_code mappings)) then
      suggestions ++
        [count_to_string (length (missing_in_code mappings))
           ++ str " Figma components need to be implemented in code."]
    else suggestions in
  let suggestions :=
    if bool_decide (0 < length (missing_in_figma mappings)) then
      suggestions ++
        [count_to_string (length (missing_in_figma mappings))
           ++ str " code components don't have corresponding Figma designs."]
    else suggestions in
  suggestions.

(** ** URL and id utilities *)

(** [s.includes(sub)]. *)
Fixpoint includes (sub s : jsstring) : bool :=
  if bool_decide (sub `prefix_of` s) then true
  else
    match s with
    | [] => false
    | _ :: s' => includes sub s'
    end.

(** [[a-zA-Z0-9]], [\d], [[^?]], [[^&]] and [.]. *)
Definition is_alnum (c : N) : bool :=
  bool_decide (97 ≤ c ≤ 122)%N || bool_decide (65 ≤ c ≤ 90)%N
  || bool_decide (48 ≤ c ≤ 57)%N.
Definition is_digit (c : N) : bool := bool_decide (48 ≤ c ≤ 57)%N.
Definition not_qmark (c : N) : bool := negb (bool_decide (c = 63)%N).
Definition not_amp (c : N) : bool := negb (bool_decide (c = 38)%N).
Definition is_dot (c : N) : bool :=
  negb (bool_decide (c ∈ [10; 13; 8232; 8233]%N)).

(** [r{min,max}], greedy: [min] rounds, then up to [max - min] more. *)
Fixpoint repeat_upto (n : nat) (r : regex) : regex :=
  match n with
  | 0 => Empty
  | S n' => Opt (Seq r (repeat_upto n' r))
  end.
Definition Repeat (min max : nat) (r : regex) : regex :=
  seqs (replicate min r ++ [repeat_upto (max - min) r]).

Abbreviation matcher :=
  (jsstring → captures →
   (jsstring → captures → option (jsstring * captures)) →
   option (jsstring * captures)).

(** The iteration of a lazy [*?] over the matcher [m] of its body: the
    continuation is tried first, one more round of [m] after it. *)
Fixpoint lazy_star_loop (m : matcher)
    (k : jsstring → captures → option (jsstring * captures))
    (fuel : nat) (s : jsstring) (caps : captures)
  : option (jsstring * captures) :=
  match fuel with
  | 0 => k s caps
  | S fuel' =>
      match k s caps with
      | Some res => Some res
      | None =>
          m s caps
            (λ s' caps',
               if bool_decide (length s' < length s)
               then lazy_star_loop m k fuel' s' caps' else None)
      end
  end.

(** Sequence, greedy [?] and lazy [*?] on matchers. *)
Definition m_seq (m1 m2 : matcher) : matcher :=
  λ s caps k, m1 s caps (λ s' caps', m2 s' caps' k).
Definition m_opt (m : matcher) : matcher :=
  λ s caps k,
    match m s caps k with
    | Some res => Some res
    | None => k s caps
    end.
Definition m_lazy_star (m : matcher) : matcher :=
  λ s caps k, lazy_star_loop m k (length s) s caps.

(** [FIGMA_URL_PATTERNS]. *)
Definition file_pattern_head : regex :=
  seqs [lit "https://"; Opt (lit "www."); lit "figma.com/";
        Alt (lit "file") (lit "design"); lit "/";
        Group 1 (Repeat 22 128 (Class is_alnum)); lit "/";
        Star (Class not_qmark)].

Definition file_pattern_query : matcher :=
  m_seq (rmatch (lit "?"))
    (m_seq (m_lazy_star (rmatch (Class is_dot)))
       (rmatch (seqs [lit "node-id="; Group 2 (Plus (Class not_amp))]))).

Definition file_pattern : matcher :=
  m_seq (rmatch file_pattern_head) (m_opt file_pattern_query).

Definition team_pattern : regex :=
  seqs [lit "https://"; Opt (lit "www."); lit "figma.com/files/team/";
        Group 1 (Plus (Class is_digit))].

Definition project_pattern : regex :=
  seqs [lit "https://"; Opt (lit "www."); lit "figma.com/files/project/";
        Group 1 (Plus (Class is_digit))].

(** The leftmost match of a matcher in [s], the input from index [i]
    on. *)
Fixpoint msearch (m : matcher) (s : jsstring) (i : nat)
  : option (nat * jsstring * captures) :=
  match m s ∅ (λ s' caps, Some (s', caps)) with
  | Some (rest, caps) => Some (i, rest, caps)
  | None =>
      match s with
      | [] => None
      | _ :: s' => msearch m s' (S i)
      end
  end.

(** [input.match(pattern)] for a pattern without the global flag. *)
Definition string_match (m : matcher) (input : jsstring)
  : option MatchResult :=
  (λ '(i, rest, caps),
     {| mr_index := i;
        mr_end := length input - length rest;
        mr_match := take (length input - length rest - i) (drop i input);
        mr_groups := caps |})
    <$> msearch m input 0.

(** [^pattern$] tested on [input]: a match from the first code unit to
    the last. *)
Definition test_anchored (r : regex) (input : jsstring) : bool :=
  bool_decide
    (is_Some
       (rmatch r input ∅
          (λ s' caps, if bool_decide (s' = []) then Some (s', caps)
                      else None))).

(** [s.split(separator)] for a non-empty separator; [skip] code units of
    a separator found are still to be passed, and [current] is the piece
    under construction. *)
Fixpoint split_loop (separator s : jsstring) (skip : nat)
    (current : jsstring) : list jsstring :=
  match s with
  | [] => [current]
  | c :: s' =>
      match skip with
      | S skip' => split_loop separator s' skip' current
      | 0 =>
          if bool_decide (separator `prefix_of` s) then
            current :: split_loop separator s' (length separator - 1) []
          else split_loop separator s' 0 (current ++ [c])
      end
  end.
Definition split (separator s : jsstring) : list jsstring :=
  split_loop separator s 0 [].

(** [s.trim()]. *)
Fixpoint trim_start (s : jsstring) : jsstring :=
  match s with
  | c :: s' => if is_space c then trim_start s' else s
  | [] => []
  end.
Definition trim (s : jsstring) : jsstring :=
  reverse (trim_start (reverse (trim_start s))).

Inductive ErrorCode : Type := InvalidRequest | InternalError | MethodNotFound.

(** What a call comes to: a value, or a thrown [McpError]. *)
Inductive outcome (A : Type) : Type :=
  | Returned (value : A)
  | Thrown (code : ErrorCode) (message : jsstring).
Arguments Returned {A} value.
Arguments Thrown {A} code message.

Definition parseFileKey (input : jsstring) : outcome jsstring :=
  if negb (includes (str "figma.com") input) then Returned input
  else
    match string_match file_pattern input with
    | Some m =>
        match mr_groups m !! 1 with
        | Some (c :: key) => Returned (c :: key)
        | _ =>
            Thrown InvalidRequest
              (str "Invalid Figma URL or file key: " ++ input
                 ++ str ". Expected format: https://figma.com/file/FILE_KEY/...")
        end
    | None =>
        Thrown InvalidRequest
          (str "Invalid Figma URL or file key: " ++ input
             ++ str ". Expected format: https://figma.com/file/FILE_KEY/...")
    end.

Definition convertNodeIdFormat (nodeId : jsstring) : jsstring :=
  string_replace_global (Char 45) (str ":") nodeId.

Definition parseNodeIds (input : jsstring) : list jsstring :=
  if includes (str "figma.com") input then
    match string_match file_pattern input with
    | Some m =>
        match mr_groups m !! 2 with
        | Some (c :: ids) =>
            string_replace_global (Char 45) (str ":")
              <$> split (str "%2C") (c :: ids)
        | _ => []
        end
    | None => []
    end
  else trim <$> split (str ",") input.

Definition parseTeamId (input : jsstring) : outcome jsstring :=
  if negb (includes (str "figma.com") input) then Returned input
  else
    match string_match (rmatch team_pattern) input with
    | Some m =>
        match mr_groups m !! 1 with
        | Some (c :: id) => Returned (c :: id)
        | _ =>
            Thrown InvalidRequest
              (str "Invalid Figma team URL or ID: " ++ input
                 ++ str ". Expected format: https://figma.com/files/team/TEAM_ID")
        end
    | None =>
        Thrown InvalidRequest
          (str "Invalid Figma team URL or ID: " ++ input
             ++ str ". Expected format: https://figma.com/files/team/TEAM_ID")
    end.

Record FigmaConfig : Type := mkFigmaConfig {
  default_file_url : option jsstring;
  default_team_url : option jsstring;
  project_urls : list jsstring;
}.

(** A string in a condition: [undefined] and [""] are false. *)
Definition truthy (s : option jsstring) : bool :=
  match s with
  | Some (_ :: _) => true
  | _ => false
  end.

Definition resolveFileKey (config : FigmaConfig) (input : option jsstring)
  : outcome jsstring :=
  if truthy input then parseFileKey (default [] input)
  else if truthy (default_file_url config) then
    parseFileKey (default [] (default_file_url config))
  else
    Thrown InvalidRequest
      (str "No file key or URL provided. Either pass a file_key parameter or set default_file_url in config.").

Definition resolveTeamId (config : FigmaConfig) (input : option jsstring)
  : outcome jsstring :=
  if truthy input then parseTeamId (default [] input)
  else if truthy (default_team_url config) then
    parseTeamId (default [] (default_team_url config))
  else
    Thrown InvalidRequest
      (str "No team ID or URL provided. Either pass a team_id parameter or set default_team_url in config.").

Definition isValidFileKey (key : jsstring) : bool :=
  test_anchored (Repeat 22 128 (Class is_alnum)) key.

Definition isValidNodeId (nodeId : jsstring) : bool :=
  test_anchored
    (seqs [Plus (Class is_digit); lit ":"; Plus (Class is_digit)]) nodeId.

Section buildFigmaUrl.
(** [encodeURIComponent] of the engine; [None] is the [URIError] it
    throws on a lone surrogate. *)
Variable encodeURIComponent : jsstring → option jsstring.

Definition buildFigmaUrl (fileKey : jsstring)
    (fileName nodeId : option jsstring) : option jsstring :=
  let url := str "https://www.figma.com/file/" ++ fileKey in
  url ←
    (if truthy fileName then
       encoded ← encodeURIComponent (default [] fileName);
       Some (url ++ str "/" ++ encoded)
     else Some (url ++ str "/Untitled"));
  let url :=
    if truthy nodeId then
      let urlNodeId :=
        string_replace_global (Char 58) (str "-") (default [] nodeId) in
      url ++ str "?node-id=" ++ urlNodeId
    else url in
  Some url.
End buildFigmaUrl.

(** The pattern has a capture group numbered [n]. *)
Fixpoint has_group (n : nat) (r : regex) : bool :=
  match r with
  | Empty | Char _ | Class _ => false
  | Seq r1 r2 | Alt r1 r2 => has_group n r1 || has_group n r2
  | Star r' => has_group n r'
  | Group m r' => bool_decide (m = n) || has_group n r'
  end.

(** The matcher [m] hands the capture group [n] on as it got it. *)
Definition keeps (n : nat) (m : matcher) : Prop :=
  ∀ s caps k res,
    m s caps k = Some res →
    ∃ s' caps', k s' caps' = Some res ∧ caps' !! n = caps !! n.

(** * Properties *)

(** * The similarity matcher *)

(** ** The table of [longestCommonSubsequence] *)

Lemma mget_mset_eq (m : list (list nat)) i j v :
  i < length m → j < length (m !!! i) → mget (mset m i j v) i j = v.
Proof.
  intros Hi Hj. unfold mget, mset.
  rewrite list_lookup_total_insert_eq by done.
  by rewrite list_lookup_total_insert_eq.
Qed.

Lemma mget_mset_ne (m : list (list nat)) i j v i' j' :
  (i, j) ≠ (i', j') → mget (mset m i j v) i' j' = mget m i' j'.
Proof.
  intros Hne. unfold mget, mset.
  destruct (decide (i = i')) as [<-|Hi].
  - destruct (decide (i < length m)) as [Hlt|Hge].
    + rewrite list_lookup_total_insert_eq by done.
      rewrite list_lookup_total_insert_ne; [done | congruence].
    + by rewrite list_insert_ge by lia.
  - by rewrite list_lookup_total_insert_ne.
Qed.

Section lcs_table.
Variables a b : jsstring.

Local Abbreviation dims := (lcs_dims a b).
Local Abbreviation filled := (lcs_filled a b).

Lemma lcs_table_0_r i : lcs_table a b i 0 = 0.
Proof. by destruct i. Qed.

Lemma lcs_table_S i j :
  lcs_table a b (S i) (S j) =
    if bool_decide (a !! i = b !! j) then lcs_table a b i j + 1
    else lcs_table a b i (S j) `max` lcs_table a b (S i) j.
Proof. done. Qed.

Lemma dims_mset m i j v : dims m → dims (mset m i j v).
Proof.
  intros [Hrows Hcols]. split.
  - unfold mset. by rewrite length_insert.
  - intros r Hr. unfold mset.
    destruct (decide (i = r)) as [<-|Hne].
    + rewrite list_lookup_total_insert_eq by lia.
      rewrite length_insert. by apply Hcols.
    + rewrite list_lookup_total_insert_ne by done. by apply Hcols.
Qed.

Lemma dims_init :
  dims (replicate (length a + 1) (replicate (length b + 1) 0)).
Proof.
  split; [by rewrite length_replicate|].
  intros r Hr. rewrite lookup_total_replicate_2 by lia.
  by rewrite length_replicate.
Qed.

Lemma filled_init :
  filled 1 0 (replicate (length a + 1) (replicate (length b + 1) 0)).
Proof.
  intros r c Hr Hc Hreg. unfold mget.
  rewrite !lookup_total_replicate_2 by lia.
  destruct r as [|r]; [done|].
  destruct c as [|c]; [by rewrite lcs_table_0_r | lia].
Qed.

(** One round of the inner loop fills the cell it is at. *)
Lemma lcs_cell_filled m i j :
  1 ≤ i ≤ length a → 1 ≤ j ≤ length b →
  dims m → filled i (j - 1) m →
  dims (lcs_cell a b i m j) ∧ filled i j (lcs_cell a b i m j).
Proof.
  intros Hi Hj Hd Hf. split.
  { unfold lcs_cell. case_bool_decide; by apply dims_mset. }
  destruct Hd as [Hrows Hcols].
  intros r c Hr Hc Hreg.
  destruct (decide ((i, j) = (r, c))) as [Heq|Hne].
  - injection Heq as <- <-.
    destruct i as [|i']; [lia|]. destruct j as [|j']; [lia|].
    rewrite lcs_table_S. unfold lcs_cell.
    replace (S i' - 1) with i' by lia. replace (S j' - 1) with j' by lia.
    case_bool_decide.
    + rewrite mget_mset_eq by (rewrite ?Hcols; lia).
      rewrite Hf by lia. done.
    + rewrite mget_mset_eq by (rewrite ?Hcols; lia).
      rewrite !Hf by lia. done.
  - assert (mget (lcs_cell a b i m j) r c = mget m r c) as ->.
    { unfold lcs_cell. case_bool_decide; by rewrite mget_mset_ne. }
    apply Hf; [done..|].
    destruct (decide (r = i)) as [->|]; [|lia].
    destruct (decide (c = j)) as [->|]; [congruence | lia].
Qed.

Lemma lcs_cols_filled m i n j0 :
  1 ≤ i ≤ length a → j0 + n ≤ length b →
  dims m → filled i j0 m →
  dims (foldl (lcs_cell a b i) m (seq (S j0) n)) ∧
  filled i (j0 + n) (foldl (lcs_cell a b i) m (seq (S j0) n)).
Proof.
  revert m j0. induction n as [|n IH]; intros m j0 Hi Hn Hd Hf; simpl.
  - by rewrite Nat.add_0_r.
  - destruct (lcs_cell_filled m i (S j0)) as [Hd' Hf'];
      [lia | lia | done | by replace (S j0 - 1) with j0 by lia |].
    replace (j0 + S n) with (S j0 + n) by lia.
    apply IH; [done | lia | done..].
Qed.

Lemma lcs_row_filled m i :
  1 ≤ i ≤ length a → dims m → filled i 0 m →
  dims (lcs_row a b m i) ∧ filled (S i) 0 (lcs_row a b m i).
Proof.
  intros Hi Hd Hf.
  destruct (lcs_cols_filled m i (length b) 0) as [Hd' Hf']; [done..|].
  split; [done|].
  intros r c Hr Hc Hreg. apply Hf'; [done..|]. simpl. lia.
Qed.

Lemma lcs_rows_filled m n i0 :
  i0 + n ≤ length a → dims m → filled (S i0) 0 m →
  dims (foldl (lcs_row a b) m (seq (S i0) n)) ∧
  filled (S (i0 + n)) 0 (foldl (lcs_row a b) m (seq (S i0) n)).
Proof.
  revert m i0. induction n as [|n IH]; intros m i0 Hn Hd Hf; simpl.
  - by rewrite Nat.add_0_r.
  - destruct (lcs_row_filled m (S i0)) as [Hd' Hf']; [lia | done..|].
    replace (i0 + S n) with (S i0 + n) by lia.
    apply IH; [lia | done..].
Qed.

(** The loops compute the cell [length a, length b] of the recurrence. *)
Lemma longestCommonSubsequence_table :
  longestCommonSubsequence a b = lcs_table a b (length a) (length b).
Proof.
  unfold longestCommonSubsequence.
  destruct (lcs_rows_filled
              (replicate (length a + 1) (replicate (length b + 1) 0))
              (length a) 0) as [_ Hf];
    [lia | apply dims_init | apply filled_init |].
  apply Hf; [done..|]. simpl. lia.
Qed.
End lcs_table.

(** ** The recurrence is the length of a longest common subsequence *)

Lemma sublist_snoc_inv (w l : jsstring) c x :
  w ++ [c] `sublist_of` l ++ [x] →
  w `sublist_of` l ∧ (c ≠ x → w ++ [c] `sublist_of` l).
Proof.
  intros (k1 & k2 & Heq & Hk1 & Hk2)%sublist_app_r.
  assert (k2 = [] ∨ k2 = [x]) as [-> | ->].
  { apply sublist_cons_r in Hk2 as [Hk2 | (k' & -> & Hk')].
    - left. by apply sublist_nil_r.
    - right. apply sublist_nil_r in Hk'. by subst. }
  - rewrite app_nil_r in Heq. subst k1. split; [|done].
    etrans; [|done]. by apply sublist_inserts_r.
  - apply app_inj_tail in Heq as [-> ->]. done.
Qed.

Section lcs_length.
Variables a b : jsstring.

Lemma lcs_table_upper i j (w : jsstring) :
  i ≤ length a → j ≤ length b →
  w `sublist_of` take i a → w `sublist_of` take j b →
  length w ≤ lcs_table a b i j.
Proof.
  revert j w. induction i as [|i IHi]; intros j w Hi Hj Ha Hb.
  { apply sublist_nil_r in Ha as ->. simpl. lia. }
  induction j as [|j IHj] in w, Hj, Ha, Hb |- *.
  { apply sublist_nil_r in Hb as ->. simpl. lia. }
  destruct (lookup_lt_is_Some_2 a i) as [x Hx]; [lia|].
  destruct (lookup_lt_is_Some_2 b j) as [y Hy]; [lia|].
  rewrite (take_S_r _ _ _ Hx) in Ha. rewrite (take_S_r _ _ _ Hy) in Hb.
  rewrite lcs_table_S, Hx, Hy.
  destruct w as [|c w _] using rev_ind; [simpl; lia|].
  apply sublist_snoc_inv in Ha as [Ha Ha'].
  apply sublist_snoc_inv in Hb as [Hb Hb'].
  rewrite length_app. simpl.
  case_bool_decide as Hxy.
  - pose proof (IHi j w ltac:(lia) ltac:(lia) Ha Hb). lia.
  - destruct (decide (c = x)) as [->|Hcx].
    + assert (x ≠ y) as Hne by congruence.
      specialize (IHj (w ++ [x])). rewrite length_app in IHj. simpl in IHj.
      rewrite (take_S_r _ _ _ Hx) in IHj.
      etrans; [apply IHj; [lia | | by apply Hb'] | lia].
      by apply sublist_app.
    + specialize (IHi (S j) (w ++ [c])).
      rewrite length_app in IHi. simpl in IHi.
      rewrite (take_S_r _ _ _ Hy) in IHi.
      etrans; [apply IHi; [lia | lia | by apply Ha' |] | lia].
      destruct (decide (c = y)) as [->|Hcy]; [by apply sublist_app|].
      etrans; [by apply Hb'|]. by apply sublist_inserts_r.
Qed.

Lemma lcs_table_witness i j :
  i ≤ length a → j ≤ length b →
  ∃ w : jsstring,
    w `sublist_of` take i a ∧ w `sublist_of` take j b ∧
    length w = lcs_table a b i j.
Proof.
  revert j. induction i as [|i IHi]; intros j Hi Hj.
  { exists []. split_and!; [apply sublist_nil_l.. | done]. }
  induction j as [|j IHj].
  { exists []. split_and!; [apply sublist_nil_l.. | done]. }
  destruct (lookup_lt_is_Some_2 a i) as [x Hx]; [lia|].
  destruct (lookup_lt_is_Some_2 b j) as [y Hy]; [lia|].
  rewrite (take_S_r _ _ _ Hx), (take_S_r _ _ _ Hy).
  rewrite lcs_table_S, Hx, Hy.
  case_bool_decide as Hxy.
  - destruct (IHi j) as (w & Hwa & Hwb & Hlen); [lia..|].
    injection Hxy as <-.
    exists (w ++ [x]). split_and!; [by apply sublist_app.. |].
    rewrite length_app. simpl. lia.
  - destruct (Nat.max_spec (lcs_table a b i (S j)) (lcs_table a b (S i) j))
      as [[_ ->] | [_ ->]].
    + destruct IHj as (w & Hwa & Hwb & Hlen); [lia|].
      rewrite (take_S_r _ _ _ Hx) in Hwa.
      exists w. split_and!; [done | by apply sublist_inserts_r | done].
    + destruct (IHi (S j)) as (w & Hwa & Hwb & Hlen); [lia..|].
      rewrite (take_S_r _ _ _ Hy) in Hwb.
      exists w. split_and!; [by apply sublist_inserts_r | done..].
Qed.

Lemma lcs_table_is_lcs_length :
  is_lcs_length a b (lcs_table a b (length a) (length b)).
Proof.
  split.
  - destruct (lcs_table_witness (length a) (length b)) as (w & Ha & Hb & Hw);
      [done..|].
    rewrite take_ge in Ha, Hb by done. by exists w.
  - intros w Ha Hb. apply lcs_table_upper; [done.. | |];
      by rewrite take_ge.
Qed.
End lcs_length.

Lemma is_lcs_length_unique a b n m :
  is_lcs_length a b n → is_lcs_length a b m → n = m.
Proof.
  intros [(w & Hwa & Hwb & <-) Hn] [(v & Hva & Hvb & <-) Hm].
  apply Nat.le_antisymm; [by apply Hm | by apply Hn].
Qed.


Lemma is_lcs_length_same a : is_lcs_length a a (length a).
Proof.
  split; [by exists a | intros w Hw _; by apply sublist_length].
Qed.

Lemma is_lcs_length_bound a b n :
  is_lcs_length a b n → n ≤ length a ∧ n ≤ length b.
Proof.
  intros [(w & Hwa & Hwb & <-) _]. split; by apply sublist_length.
Qed.

Lemma longestCommonSubsequence_is_lcs_length a b :
  is_lcs_length a b (longestCommonSubsequence a b).
Proof.
  rewrite longestCommonSubsequence_table. apply lcs_table_is_lcs_length.
Qed.


(** ** The similarity score *)

Lemma Qc_of_Z_div_bounds (x y : Z) :
  (0 ≤ x ≤ y)%Z → (0 < y)%Z → (0 ≤ Qc_of_Z x / Qc_of_Z y ≤ 1)%Qc.
Proof.
  intros Hx Hy.
  assert (0 < Qc_of_Z y)%Qc as Hpos.
  { exact (proj1 (Z2Qc_inj_lt 0 y) Hy). }
  assert (Qc_of_Z x / Qc_of_Z y * Qc_of_Z y = Qc_of_Z x)%Qc as Hmul.
  { rewrite Qcmult_comm. apply Qcmult_div_r.
    intros Hz. apply Qclt_not_eq in Hpos. congruence. }
  split.
  - apply (Qcmult_le_mono_pos_r _ _ _ Hpos).
    rewrite Hmul, Qcmult_0_l. apply (Z2Qc_inj_le 0 x). lia.
  - apply (Qcmult_le_mono_pos_r _ _ _ Hpos).
    rewrite Hmul, Qcmult_1_l. apply (Z2Qc_inj_le x y). lia.
Qed.

Lemma Qc_of_Z_div_same (x : Z) : (0 < x)%Z → (Qc_of_Z x / Qc_of_Z x = 1)%Qc.
Proof.
  intros Hx. apply Qcmult_inv_r.
  intros Heq. rewrite <-Z2Qc_inj_0 in Heq. apply Z2Qc_inj in Heq. lia.
Qed.

(** Away from the pair of empty strings the score is a finite number. *)
Lemma calculateNameSimilarity_Fin a b :
  a ≠ [] ∨ b ≠ [] →
  calculateNameSimilarity a b =
    Fin (Qc_of_Z (2 * Z.of_nat (longestCommonSubsequence a b))
         / Qc_of_Z (Z.of_nat (length a + length b))).
Proof.
  intros Hne. unfold calculateNameSimilarity, js_div.
  rewrite bool_decide_eq_false_2; [done|].
  destruct Hne as [Hne | Hne]; [destruct a | destruct b]; simpl; try done; lia.
Qed.

(** Whatever the strings, the score is [NaN] or a number of [[0, 1]]. *)
Lemma calculateNameSimilarity_range a b :
  calculateNameSimilarity a b = NaN ∨
  ∃ q, calculateNameSimilarity a b = Fin q ∧ (0 ≤ q ≤ 1)%Qc.
Proof.
  destruct (decide (a = [] ∧ b = [])) as [[-> ->] | Hne]; [by left | right].
  assert (a ≠ [] ∨ b ≠ []) as Hab.
  { destruct a; [|by left]. destruct b; [|by right]. by destruct Hne. }
  eexists. split; [by apply calculateNameSimilarity_Fin|].
  destruct (is_lcs_length_bound a b _
              (longestCommonSubsequence_is_lcs_length a b)) as [Hla Hlb].
  apply Qc_of_Z_div_bounds; [lia|].
  destruct Hab as [Hne' | Hne']; [destruct a | destruct b]; simpl; try done; lia.
Qed.

(** C3, as the code has it: [calculateNameSimilarity("", "")] divides
    [0] by [0] and returns [NaN]; nothing guards the division, and the
    result fails the test [> 0.5] of the reconciler. *)
Theorem calculateNameSimilarity_empty_NaN :
  calculateNameSimilarity [] [] = NaN ∧
  js_gt (calculateNameSimilarity [] []) num_half = false.
Proof. done. Qed.

(** C3, as the specification states it, fails: the score of two empty
    strings is not [0]. *)
Lemma calculateNameSimilarity_empty_not_zero :
  calculateNameSimilarity [] [] ≠ num_zero.
Proof. done. Qed.

(** C4: for strings that are not both empty the score is
    [2 * n / (length a + length b)], where [n] is the cell
    [length a, length b] of the classic recurrence and the length of a
    longest common subsequence of [a] and [b]; the score lies in
    [[0, 1]], and it is [1] when [a = b]. *)
Theorem calculateNameSimilarity_lcs_formula (a b : jsstring) :
  a ≠ [] ∨ b ≠ [] →
  ∃ (n : nat) (q : Qc),
    n = lcs_table a b (length a) (length b) ∧
    is_lcs_length a b n ∧
    q = (Qc_of_Z (2 * Z.of_nat n) / Qc_of_Z (Z.of_nat (length a + length b)))%Qc ∧
    calculateNameSimilarity a b = Fin q ∧
    (0 ≤ q ≤ 1)%Qc ∧
    (a = b → calculateNameSimilarity a b = num_one).
Proof.
  intros Hne.
  pose proof (longestCommonSubsequence_is_lcs_length a b) as Hlcs.
  pose proof (calculateNameSimilarity_Fin a b Hne) as Hfin.
  eexists (longestCommonSubsequence a b), _.
  split; [apply longestCommonSubsequence_table|].
  split; [done|]. split; [reflexivity|]. split; [done|]. split.
  - destruct (calculateNameSimilarity_range a b) as [HNaN | (q & Hq & Hrange)];
      [congruence|].
    rewrite Hfin in Hq. by injection Hq as ->.
  - intros <-. rewrite Hfin.
    rewrite (is_lcs_length_unique a a _ _ Hlcs (is_lcs_length_same a)).
    unfold num_one. f_equal.
    replace (2 * Z.of_nat (length a))%Z with (Z.of_nat (length a + length a))
      by lia.
    apply Qc_of_Z_div_same. destruct Hne as [Hne | Hne];
      destruct a; simpl; try done; lia.
Qed.

Lemma calculateNameSimilarity_lcs_formula_witness :
  ∃ (n : nat) (q : Qc),
    n = lcs_table (str "navbar") (str "navbar") 6 6 ∧
    is_lcs_length (str "navbar") (str "navbar") n ∧
    q = (Qc_of_Z (2 * Z.of_nat n) / Qc_of_Z (Z.of_nat (6 + 6)))%Qc ∧
    calculateNameSimilarity (str "navbar") (str "navbar") = Fin q ∧
    (0 ≤ q ≤ 1)%Qc ∧
    (str "navbar" = str "navbar" →
     calculateNameSimilarity (str "navbar") (str "navbar") = num_one).
Proof.
  apply (calculateNameSimilarity_lcs_formula (str "navbar") (str "navbar")).
  left. done.
Defined.


(** * The consistency scorer *)

(** C8: the score is [max(0, 100 - 10 * n)] for a report with [n]
    issues, and the assembled report counts the issues of the enabled
    sub-analyses; 2 issues give 80, 11 issues give 0, and one more issue
    on a report of positive score lowers the score by exactly 10, never
    below 0. *)
Theorem calculateConsistencyScore_rule (report : ConsistencyReport)
    (l : list Issue) :
  issues report = Some l →
  calculateConsistencyScore report
    = (0 `max` (100 - 10 * Z.of_nat (length l)))%Z ∧
  (length l = 2 → calculateConsistencyScore report = 80%Z) ∧
  (length l = 11 → calculateConsistencyScore report = 0%Z) ∧
  (∀ report' x,
     issues report' = Some (l ++ [x]) →
     (0 < calculateConsistencyScore report)%Z →
     calculateConsistencyScore report'
       = (calculateConsistencyScore report - 10)%Z ∧
     (0 ≤ calculateConsistencyScore report')%Z) ∧
  (∀ componentsAnalysis stylesAnalysis check_styles check_components,
     consistency_score
       (analyzeDesignCodeConsistency componentsAnalysis stylesAnalysis
          check_styles check_components)
     = (0 `max`
        (100 - 10 * Z.of_nat
           (length (if check_components then an_issues componentsAnalysis
                    else []) +
            length (if check_styles then an_issues stylesAnalysis
                    else []))))%Z).
Proof.
  intros Hl. unfold calculateConsistencyScore. rewrite Hl. simpl.
  split_and!; try lia.
  - intros report' x Hl'. rewrite Hl'. simpl. rewrite length_app. simpl. lia.
  - intros ca sa cs cc. unfold analyzeDesignCodeConsistency. simpl.
    destruct cc, cs; unfold calculateConsistencyScore; simpl;
      rewrite ?length_app; lia.
Qed.

Lemma calculateConsistencyScore_rule_witness :
  let x := mkIssue [] [] [] [] low in
  calculateConsistencyScore (mkConsistencyReport 0 (Some [x; x]) []) = 80%Z.
Proof.
  intros x.
  destruct (calculateConsistencyScore_rule
              (mkConsistencyReport 0 (Some [x; x]) []) [x; x] eq_refl)
    as (_ & H2 & _).
  apply H2. reflexivity.
Defined.

(** * The mapping reconciler *)

(** ** The stable sort on finite scores *)

Lemma by_similarity_desc_gt x y :
  finite_score x → finite_score y →
  js_gt (by_similarity_desc x y) num_zero
    = js_gt (sg_similarity y) (sg_similarity x).
Proof.
  intros [qx Hx] [qy Hy]. unfold by_similarity_desc. rewrite Hx, Hy. simpl.
  apply bool_decide_ext. symmetry. apply Qclt_minus_iff.
Qed.

Lemma score_desc_trans x y z :
  finite_score x → finite_score y → finite_score z →
  score_desc x y → score_desc y z → score_desc x z.
Proof.
  intros [qx Hx] [qy Hy] [qz Hz]. unfold score_desc.
  rewrite Hx, Hy, Hz. simpl.
  rewrite !bool_decide_eq_false, <-!Qcle_ngt. intros ??. by etrans.
Qed.

Lemma score_desc_of_gt x y :
  finite_score x → finite_score y →
  js_gt (sg_similarity y) (sg_similarity x) = true → score_desc y x.
Proof.
  intros [qx Hx] [qy Hy]. unfold score_desc. rewrite Hx, Hy. simpl.
  rewrite bool_decide_eq_true, bool_decide_eq_false, <-Qcle_ngt.
  apply Qclt_le_weak.
Qed.

Lemma sort_insert_perm {A} (cmp : A → A → number) x l :
  sort_insert cmp x l ≡ₚ x :: l.
Proof.
  induction l as [|y l IH]; simpl; [done|].
  destruct (js_gt _ _); [|done]. rewrite IH. apply Permutation_swap.
Qed.

Lemma js_sort_perm {A} (cmp : A → A → number) l : js_sort cmp l ≡ₚ l.
Proof.
  induction l as [|x l IH]; simpl; [done|].
  by rewrite sort_insert_perm, IH.
Qed.

Lemma sort_insert_sorted x l :
  finite_score x → Forall finite_score l →
  StronglySorted score_desc l →
  StronglySorted score_desc (sort_insert by_similarity_desc x l).
Proof.
  intros Hx Hl Hs. induction Hs as [|y l Hs IH Hy]; simpl.
  { repeat constructor. }
  apply Forall_cons in Hl as [Hfy Hfl].
  rewrite by_similarity_desc_gt by done.
  destruct (js_gt (sg_similarity y) (sg_similarity x)) eqn:Hgt.
  - constructor; [by apply IH|].
    rewrite sort_insert_perm. constructor; [|done].
    by apply score_desc_of_gt.
  - constructor; [by constructor|].
    constructor; [done|].
    rewrite Forall_forall in Hy, Hfl |- *. intros z Hz.
    apply (score_desc_trans x y z); auto.
Qed.

Lemma sort_insert_stable x l v :
  finite_score x → Forall finite_score l →
  filter (λ s, sg_similarity s = v) (sort_insert by_similarity_desc x l)
    = filter (λ s, sg_similarity s = v) (x :: l).
Proof.
  intros Hx Hl. induction Hl as [|y l Hy Hl IH]; simpl; [done|].
  rewrite by_similarity_desc_gt by done.
  destruct (js_gt (sg_similarity y) (sg_similarity x)) eqn:Hgt; [|done].
  assert (sg_similarity y ≠ sg_similarity x) as Hne.
  { destruct Hx as [qx Hx], Hy as [qy Hy]. rewrite Hx, Hy in Hgt |- *.
    simpl in Hgt. apply bool_decide_eq_true in Hgt.
    intros [= ->]. by apply Qclt_not_eq in Hgt. }
  rewrite (filter_cons _ y), IH, !(filter_cons _ x), (filter_cons _ y).
  repeat case_decide; congruence.
Qed.

Lemma js_sort_finite l :
  Forall finite_score l →
  js_sort by_similarity_desc l ≡ₚ l ∧
  StronglySorted score_desc (js_sort by_similarity_desc l) ∧
  ∀ v, filter (λ s, sg_similarity s = v) (js_sort by_similarity_desc l)
       = filter (λ s, sg_similarity s = v) l.
Proof.
  intros Hl. split; [apply js_sort_perm|].
  induction Hl as [|x l Hx Hl [IHs IHf]]; simpl.
  { split; [constructor | done]. }
  assert (Forall finite_score (js_sort by_similarity_desc l)) as Hl'.
  { by rewrite js_sort_perm. }
  split; [by apply sort_insert_sorted|].
  intros v. rewrite sort_insert_stable by done.
  by rewrite !(filter_cons _ x), IHf.
Qed.

(** ** One design component at a time *)

Section reconciler_props.
Variable toLowerCase : jsstring → jsstring.
Variable codeComponents : list CodeComponent.

Local Abbreviation step := (classify toLowerCase codeComponents).

Lemma classify_group_count M e id :
  group_count id (step M e)
    = group_count id M + (if decide (e.1 = id) then 1 else 0).
Proof.
  unfold classify, group_count.
  destruct (list_find _ codeComponents) as [[i cc]|]; simpl;
    [|case_bool_decide; simpl];
    rewrite filter_app, length_app, (filter_singleton _ _ []); simpl;
    case_decide; simpl; lia.
Qed.

Lemma foldl_classify_group_count M es id :
  group_count id (foldl step M es)
    = group_count id M + length (filter (λ e, e.1 = id) es).
Proof.
  revert M. induction es as [|e es IH]; intros M; simpl.
  - lia.
  - rewrite IH, classify_group_count, filter_cons.
    case_decide; simpl; lia.
Qed.

(** A round of the loop only appends to the groups. *)
Lemma classify_mono M e :
  (∀ x, x ∈ exact_matches M → x ∈ exact_matches (step M e)) ∧
  (∀ x, x ∈ similar_matches M → x ∈ similar_matches (step M e)) ∧
  (∀ x, x ∈ missing_in_code M → x ∈ missing_in_code (step M e)).
Proof.
  unfold classify.
  destruct (list_find _ codeComponents) as [[i cc]|]; simpl;
    [|case_bool_decide; simpl];
    split_and!; intros x Hx; rewrite ?elem_of_app; auto.
Qed.

Lemma foldl_classify_mono M es :
  (∀ x, x ∈ exact_matches M → x ∈ exact_matches (foldl step M es)) ∧
  (∀ x, x ∈ similar_matches M → x ∈ similar_matches (foldl step M es)) ∧
  (∀ x, x ∈ missing_in_code M → x ∈ missing_in_code (foldl step M es)).
Proof.
  revert M. induction es as [|e es IH]; intros M; simpl; [done|].
  destruct (IH (step M e)) as (IH1 & IH2 & IH3).
  destruct (classify_mono M e) as (H1 & H2 & H3).
  split_and!; auto.
Qed.

(** The round of an entry with an exact match. *)
Lemma classify_exact M id fc i cc :
  codeComponents !! i = Some cc →
  toLowerCase (cc_name cc) = toLowerCase (fc_name fc) →
  (∀ j cc', codeComponents !! j = Some cc' → j < i →
     toLowerCase (cc_name cc') ≠ toLowerCase (fc_name fc)) →
  {| em_figma_id := id; em_figma_name := fc_name fc;
     em_code_component := cc; em_confidence := num_one |}
    ∈ exact_matches (step M (id, fc)).
Proof.
  intros Hi Hcc Hfirst. unfold classify. simpl.
  assert (list_find (λ cc, toLowerCase (cc_name cc)
                           = toLowerCase (fc_name fc)) codeComponents
          = Some (i, cc)) as ->.
  { apply list_find_Some. split_and!; done. }
  simpl. apply elem_of_app. right. by apply list_elem_of_singleton.
Qed.

(** The round of an entry without an exact match. *)
Lemma classify_no_exact M id fc :
  (∀ cc, cc ∈ codeComponents →
     toLowerCase (cc_name cc) ≠ toLowerCase (fc_name fc)) →
  let sorted :=
    similar_candidates toLowerCase (toLowerCase (fc_name fc))
      codeComponents in
  if decide (sorted = []) then
    {| mc_figma_id := id; mc_figma_name := fc_name fc;
       mc_description := default [] (fc_description fc) |}
      ∈ missing_in_code (step M (id, fc))
  else
    {| sm_figma_id := id; sm_figma_name := fc_name fc;
       sm_suggestions := take 3 sorted |}
      ∈ similar_matches (step M (id, fc)).
Proof.
  intros Hnone sorted. unfold classify. simpl.
  assert (list_find (λ cc, toLowerCase (cc_name cc)
                           = toLowerCase (fc_name fc)) codeComponents
          = None) as ->.
  { apply list_find_None, Forall_forall. intros cc Hcc. by apply Hnone. }
  simpl. fold sorted.
  case_decide as Hs.
  - rewrite Hs. simpl.
    apply elem_of_app. right. by apply list_elem_of_singleton.
  - rewrite bool_decide_eq_true_2 by (destruct sorted; simpl; [done | lia]).
    simpl. apply elem_of_app. right. by apply list_elem_of_singleton.
Qed.

(** The candidates that pass the filter have finite scores. *)
Lemma candidates_finite figmaName :
  Forall finite_score
    (filter (λ m, js_gt (sg_similarity m) num_half)
       ((λ cc, {| sg_component := cc;
                  sg_similarity :=
                    calculateNameSimilarity figmaName
                      (toLowerCase (cc_name cc)) |})
          <$> codeComponents)).
Proof.
  apply Forall_forall. intros s [Hgt Hs]%list_elem_of_filter.
  apply list_elem_of_fmap in Hs as (cc & -> & _). simpl in *.
  destruct (calculateNameSimilarity_range figmaName
              (toLowerCase (cc_name cc))) as [HNaN | (q & Hq & _)].
  - by rewrite HNaN in Hgt.
  - by exists q.
Qed.
End reconciler_props.

Lemma filter_fst_absent {B} (es : list (jsstring * B)) id :
  id ∉ es.*1 → filter (λ e, e.1 = id) es = [].
Proof.
  induction es as [|e es IH]; [done|].
  rewrite fmap_cons, not_elem_of_cons. intros [Hne Hnotin].
  rewrite filter_cons_False by (simpl; congruence). by apply IH.
Qed.

Lemma filter_fst_unique {B} (es : list (jsstring * B)) id (x : B) :
  NoDup es.*1 → (id, x) ∈ es → length (filter (λ e, e.1 = id) es) = 1.
Proof.
  induction es as [|e es IH]; [by intros _ ?%elem_of_nil|].
  rewrite fmap_cons, NoDup_cons, elem_of_cons. intros [Hnotin Hnd] [<- | Hin].
  - rewrite filter_cons_True by done. simpl.
    by rewrite filter_fst_absent.
  - rewrite filter_cons_False; [by apply IH|].
    simpl. intros Heq. apply Hnotin. rewrite Heq.
    by apply (list_elem_of_fmap_2 fst) in Hin.
Qed.

(** ** The four groups *)

Section createComponentMappings_props.
Variable toLowerCase : jsstring → jsstring.
Variable figmaComponents : list (jsstring * FigmaComponent).
Variable codeComponents : list CodeComponent.
Variable includeProps : bool.

Local Abbreviation result :=
  (createComponentMappings toLowerCase figmaComponents codeComponents
     includeProps).

(** C1: a design component of the input is carried by exactly one
    entry of [exact_matches], [similar_matches] and [missing_in_code]
    taken together; the ids are the keys of an object, hence distinct. *)
Theorem createComponentMappings_one_group (id : jsstring)
    (figmaComponent : FigmaComponent) :
  NoDup figmaComponents.*1 →
  (id, figmaComponent) ∈ figmaComponents →
  group_count id result = 1.
Proof.
  intros Hnd Hin.
  change (group_count id result)
    with (group_count id
            (foldl (classify toLowerCase codeComponents)
               (mkMappings [] [] [] []) figmaComponents)).
  rewrite foldl_classify_group_count.
  by rewrite (filter_fst_unique _ _ figmaComponent).
Qed.

(** C2: [missing_in_figma] is exactly the code components whose name
    is neither the name of a chosen exact match nor in a suggestion
    list; so no entry of it is referenced by those groups. *)
Theorem missing_in_figma_unreferenced :
  missing_in_figma result
    = figma_summary
        <$> filter (λ cc, ¬ referenced result (cc_name cc)) codeComponents ∧
  ∀ m, m ∈ missing_in_figma result → ¬ referenced result (mf_name m).
Proof.
  assert (missing_in_figma result
          = figma_summary
              <$> filter (λ cc, ¬ referenced result (cc_name cc))
                    codeComponents) as Heq.
  { unfold createComponentMappings at 1. simpl. unfold figma_summary.
    f_equal. apply list_filter_iff. intros cc.
    rewrite elem_of_list_to_set. unfold mapped_names, referenced.
    rewrite elem_of_app, list_elem_of_fmap, list_elem_of_bind.
    rewrite !Exists_exists. simpl.
    apply not_iff_compat. split.
    - intros [(m & Hn & Hm) | (m & Hs & Hm)]; [left; by exists m|].
      apply list_elem_of_fmap in Hs as (s & Hn & Hs).
      right. exists m. split; [done|].
      apply Exists_exists. by exists s.
    - intros [(m & Hm & Hn) | (m & Hm & Hs)]; [left; by exists m|].
      apply Exists_exists in Hs as (s & Hs & Hn).
      right. exists m. split; [|done].
      apply list_elem_of_fmap. by exists s. }
  split; [done|].
  intros m. rewrite Heq.
  intros (cc & -> & [Hcc _]%list_elem_of_filter)%list_elem_of_fmap. done.
Qed.

(** C6: a design component whose lower-cased name is the lower-cased
    name of some code component gets an exact match with the first
    such code component of the array, at confidence [1]. *)
Theorem exact_match_first (id : jsstring) (figmaComponent : FigmaComponent) :
  (id, figmaComponent) ∈ figmaComponents →
  (∃ cc0, cc0 ∈ codeComponents ∧
     toLowerCase (cc_name cc0) = toLowerCase (fc_name figmaComponent)) →
  ∃ i cc,
    codeComponents !! i = Some cc ∧
    toLowerCase (cc_name cc) = toLowerCase (fc_name figmaComponent) ∧
    (∀ j cc', codeComponents !! j = Some cc' → j < i →
       toLowerCase (cc_name cc') ≠ toLowerCase (fc_name figmaComponent)) ∧
    {| em_figma_id := id; em_figma_name := fc_name figmaComponent;
       em_code_component := cc; em_confidence := num_one |}
      ∈ exact_matches result.
Proof.
  intros Hin (cc0 & Hcc0 & Hname).
  destruct (list_find_elem_of
              (λ cc, toLowerCase (cc_name cc)
                     = toLowerCase (fc_name figmaComponent))
              codeComponents cc0 Hcc0 Hname) as [[i cc] Hfind].
  apply list_find_Some in Hfind as (Hi & Hcc & Hfirst).
  exists i, cc. split_and!; [done..|].
  apply list_elem_of_split in Hin as (es1 & es2 & Hes).
  change (exact_matches result)
    with (exact_matches
            (foldl (classify toLowerCase codeComponents)
               (mkMappings [] [] [] []) figmaComponents)).
  rewrite Hes, foldl_app. simpl.
  apply foldl_classify_mono. by eapply classify_exact.
Qed.

(** C7: a design component without an exact match is scored against
    every code component; the candidates above [0.5] are sorted by
    descending score, ties in the order of the code components, and the
    first three are recorded as a similar match; with no candidate the
    component is recorded as missing in code, with its description or
    the empty string. *)
Theorem similar_or_missing (id : jsstring) (figmaComponent : FigmaComponent) :
  (id, figmaComponent) ∈ figmaComponents →
  (∀ cc, cc ∈ codeComponents →
     toLowerCase (cc_name cc) ≠ toLowerCase (fc_name figmaComponent)) →
  let scored :=
    (λ cc, {| sg_component := cc;
              sg_similarity :=
                calculateNameSimilarity
                  (toLowerCase (fc_name figmaComponent))
                  (toLowerCase (cc_name cc)) |}) <$> codeComponents in
  let kept := filter (λ s, js_gt (sg_similarity s) num_half) scored in
  ∃ sorted,
    sorted ≡ₚ kept ∧
    StronglySorted score_desc sorted ∧
    (∀ v, filter (λ s, sg_similarity s = v) sorted
          = filter (λ s, sg_similarity s = v) kept) ∧
    if decide (kept = []) then
      {| mc_figma_id := id; mc_figma_name := fc_name figmaComponent;
         mc_description := default [] (fc_description figmaComponent) |}
        ∈ missing_in_code result
    else
      {| sm_figma_id := id; sm_figma_name := fc_name figmaComponent;
         sm_suggestions := take 3 sorted |}
        ∈ similar_matches result.
Proof.
  intros Hin Hnone scored kept.
  pose proof (candidates_finite toLowerCase codeComponents
                (toLowerCase (fc_name figmaComponent))) as Hfin.
  fold scored kept in Hfin.
  destruct (js_sort_finite kept Hfin) as (Hperm & Hsorted & Hstable).
  exists (js_sort by_similarity_desc kept). split_and!; [done..|].
  apply list_elem_of_split in Hin as (es1 & es2 & Hes).
  pose proof (classify_no_exact toLowerCase codeComponents
                (foldl (classify toLowerCase codeComponents)
                   (mkMappings [] [] [] []) es1)
                id figmaComponent Hnone) as Hstep.
  simpl in Hstep. unfold similar_candidates in Hstep.
  fold scored kept in Hstep.
  destruct (decide (kept = [])) as [Hk | Hk].
  - rewrite Hk in Hstep. simpl in Hstep.
    change (missing_in_code result)
      with (missing_in_code
              (foldl (classify toLowerCase codeComponents)
                 (mkMappings [] [] [] []) figmaComponents)).
    rewrite Hes, foldl_app. simpl.
    by apply foldl_classify_mono.
  - rewrite decide_False in Hstep.
    2:{ intros Hnil. rewrite Hnil in Hperm.
        by apply Permutation_nil_l in Hperm. }
    change (similar_matches result)
      with (similar_matches
              (foldl (classify toLowerCase codeComponents)
                 (mkMappings [] [] [] []) figmaComponents)).
    rewrite Hes, foldl_app. simpl.
    by apply foldl_classify_mono.
Qed.
End createComponentMappings_props.

(** * The pattern matcher *)

(** ** The matcher finds words of the pattern, and finds one if there is one *)

Lemma star_loop_sound m r' k :
  (∀ s caps k res, m s caps k = Some res →
     ∃ w s' caps', s = w ++ s' ∧ lang r' w ∧ k s' caps' = Some res) →
  ∀ fuel s caps res, star_loop m k fuel s caps = Some res →
    ∃ w s' caps', s = w ++ s' ∧ lang (Star r') w ∧ k s' caps' = Some res.
Proof.
  intros Hm. induction fuel as [|fuel IH]; intros s caps res; simpl.
  { intros Hk. exists [], s, caps. split_and!; [done | by exists [] | done]. }
  destruct (m s caps _) as [res'|] eqn:Hround.
  - intros [= ->].
    apply Hm in Hround as (w1 & s1 & caps1 & -> & Hw1 & Hk).
    case_bool_decide; [|done].
    apply IH in Hk as (w2 & s' & caps' & -> & (ws & -> & Hws) & Hk).
    exists (w1 ++ concat ws), s', caps'.
    split_and!; [by rewrite (assoc_L (++)) | | done].
    exists (w1 :: ws). split; [done | by constructor].
  - intros Hk. exists [], s, caps. split_and!; [done | by exists [] | done].
Qed.

Lemma rmatch_sound r s caps k res :
  rmatch r s caps k = Some res →
  ∃ w s' caps', s = w ++ s' ∧ lang r w ∧ k s' caps' = Some res.
Proof.
  revert s caps k res.
  induction r as [|c|p|r1 IH1 r2 IH2|r1 IH1 r2 IH2|r' IH|n r' IH];
    intros s caps k res; simpl.
  - intros Hk. by exists [], s, caps.
  - destruct s as [|x s]; [done|]. case_bool_decide as Hx; [|done].
    subst x. intros Hk. by exists [c], s, caps.
  - destruct s as [|x s]; [done|]. destruct (p x) eqn:Hp; [|done].
    intros Hk. exists [x], s, caps. split_and!; [done | by exists x | done].
  - intros (w1 & s1 & caps1 & -> & Hw1 & H2)%IH1.
    apply IH2 in H2 as (w2 & s' & caps' & -> & Hw2 & Hk).
    exists (w1 ++ w2), s', caps'.
    split_and!; [by rewrite (assoc_L (++)) | by exists w1, w2 | done].
  - destruct (rmatch r1 s caps k) as [res'|] eqn:H1.
    + intros [= ->]. apply IH1 in H1 as (w & s' & caps' & -> & Hw & Hk).
      exists w, s', caps'. auto.
    + intros (w & s' & caps' & -> & Hw & Hk)%IH2.
      exists w, s', caps'. auto.
  - apply star_loop_sound, IH.
  - intros (w & s' & caps' & -> & Hw & Hk)%IH. eauto 10.
Qed.

Lemma star_loop_complete m r' k rest :
  (∀ w rest caps k, lang r' w → (∀ caps', is_Some (k rest caps')) →
     is_Some (m (w ++ rest) caps k)) →
  (∀ caps', is_Some (k rest caps')) →
  ∀ ws fuel caps, Forall (lang r') ws → length (concat ws) ≤ fuel →
    is_Some (star_loop m k fuel (concat ws ++ rest) caps).
Proof.
  intros Hm Hk. induction ws as [|w ws IH]; intros fuel caps Hws Hfuel.
  { destruct fuel as [|fuel]; simpl; [done|].
    by destruct (m rest caps _). }
  apply Forall_cons in Hws as [Hw Hws]. simpl in *.
  destruct w as [|c w]; [by apply IH|].
  destruct fuel as [|fuel]; [simpl in *; lia|]. simpl.
  rewrite length_app in Hfuel. simpl in Hfuel.
  destruct (Hm (c :: w) (concat ws ++ rest) caps
              (λ s' caps',
                 if bool_decide
                      (length s'
                       < length ((c :: w) ++ concat ws ++ rest))
                 then star_loop m k fuel s' caps' else None) Hw)
    as [res Hres].
  - intros caps'. rewrite bool_decide_eq_true_2.
    + apply IH; [done | lia].
    + rewrite (length_app (c :: w)). simpl. lia.
  - rewrite <-(assoc_L (++)). simpl in *. by rewrite Hres.
Qed.

Lemma rmatch_complete r w rest caps k :
  lang r w → (∀ caps', is_Some (k rest caps')) →
  is_Some (rmatch r (w ++ rest) caps k).
Proof.
  revert w rest caps k.
  induction r as [|c|p|r1 IH1 r2 IH2|r1 IH1 r2 IH2|r' IH|n r' IH];
    intros w rest caps k; simpl.
  - intros -> Hk. apply Hk.
  - intros -> Hk. simpl. rewrite bool_decide_eq_true_2 by done. apply Hk.
  - intros (c & -> & Hp) Hk. simpl. rewrite Hp. apply Hk.
  - intros (w1 & w2 & -> & Hw1 & Hw2) Hk. rewrite <-(assoc_L (++)).
    apply IH1; [done|]. intros caps'. by apply IH2.
  - intros [Hw | Hw] Hk.
    + destruct (IH1 w rest caps k Hw Hk) as [res ->]. done.
    + destruct (rmatch r1 (w ++ rest) caps k); [done|]. by apply IH2.
  - intros (ws & -> & Hws) Hk.
    apply (star_loop_complete _ r'); [apply IH | done..|].
    rewrite length_app. lia.
  - intros Hw Hk. apply IH; [done|]. intros caps'. apply Hk.
Qed.

(** ** Literals and sequences *)

Lemma lang_seqs_cons r rs w1 w2 :
  lang r w1 → lang (seqs rs) w2 → lang (seqs (r :: rs)) (w1 ++ w2).
Proof. intros. by exists w1, w2. Qed.

Lemma lang_chars (l w : jsstring) : lang (seqs (Char <$> l)) w ↔ w = l.
Proof.
  revert w. induction l as [|c l IH]; intros w; simpl; [done|].
  split.
  - intros (w1 & w2 & -> & -> & Hw2). apply IH in Hw2. by subst.
  - intros ->. exists [c], l. split_and!; [done..|]. by apply IH.
Qed.

Lemma lang_lit s w : lang (lit s) w ↔ w = str s.
Proof. apply lang_chars. Qed.

Lemma lang_star_class p w :
  Forall (λ c, p c = true) w → lang (Star (Class p)) w.
Proof.
  intros Hw. exists ((λ c, [c]) <$> w). split.
  - induction w as [|c w IH]; simpl; [done|].
    apply Forall_cons in Hw as [_ Hw]. f_equal. by apply IH.
  - apply Forall_fmap. eapply Forall_impl; [done|].
    intros c Hc. by exists c.
Qed.

Lemma lang_plus_class p w :
  w ≠ [] → Forall (λ c, p c = true) w → lang (Plus (Class p)) w.
Proof.
  intros Hne Hw. destruct w as [|c w]; [done|].
  apply Forall_cons in Hw as [Hc Hw].
  exists [c], w. split_and!; [done | by exists c | by apply lang_star_class].
Qed.

(** ** The search for the leftmost match *)

Lemma search_is_Some r pre s i :
  is_Some (match_at r s) → is_Some (search r (pre ++ s) i).
Proof.
  intros Hs. revert i. induction pre as [|x pre IH]; intros i; simpl.
  - destruct s; simpl; destruct Hs as [[rest caps] ->]; done.
  - destruct (match_at r (x :: pre ++ s)) as [[rest caps]|]; [done|].
    apply IH.
Qed.

Lemma search_None r s i :
  (∀ pre s', s = pre ++ s' → match_at r s' = None) → search r s i = None.
Proof.
  revert i. induction s as [|x s IH]; intros i Hnone; simpl.
  - by rewrite (Hnone [] []).
  - rewrite (Hnone [] (x :: s)) by done. apply IH.
    intros pre s' ->. by apply (Hnone (x :: pre) s').
Qed.

Lemma search_first r pre s i rest caps :
  (∀ j, j < length pre → match_at r (drop j (pre ++ s)) = None) →
  match_at r s = Some (rest, caps) →
  search r (pre ++ s) i = Some (i + length pre, rest, caps).
Proof.
  revert i. induction pre as [|x pre IH]; intros i Hnone Hs; simpl.
  - replace (i + 0) with i by lia.
    destruct s; simpl; by rewrite Hs.
  - pose proof (Hnone 0 ltac:(simpl; lia)) as H0. simpl in H0. rewrite H0.
    replace (i + S (length pre)) with (S i + length pre) by lia.
    apply IH; [|done]. intros j Hj. apply (Hnone (S j)). simpl. lia.
Qed.

Lemma regex_exec_0 r content :
  regex_exec r content 0
    = (λ '(i, rest, caps),
         {| mr_index := i;
            mr_end := length content - length rest;
            mr_match :=
              take (length content - length rest - i) (drop i content);
            mr_groups := caps |})
        <$> search r content 0.
Proof.
  unfold regex_exec. by rewrite bool_decide_eq_false_2, drop_0 by lia.
Qed.

Lemma regex_test_intro r pre s :
  is_Some (match_at r s) → regex_test r (pre ++ s) = true.
Proof.
  intros Hs. unfold regex_test. apply bool_decide_eq_true_2.
  rewrite regex_exec_0. apply fmap_is_Some. by apply search_is_Some.
Qed.

(** * The component extractor *)

(** ** Detection and exports *)

(** A match of the export pattern starts with the keyword. *)
Lemma exportRegex_keyword s :
  is_Some (match_at exportRegex s) → ∃ t, s = str "export" ++ t.
Proof.
  intros [res Hres]. unfold match_at in Hres.
  apply rmatch_sound in Hres as (w & s' & caps' & -> & Hw & _).
  destruct Hw as (w1 & w2 & -> & Hw1%lang_lit & _). subst w1.
  exists (w2 ++ s'). by rewrite <-(assoc_L (++)).
Qed.

Lemma extractExports_no_export content framework :
  ¬ contains (str "export") content →
  extractExports content framework = Some [].
Proof.
  intros Hno. unfold extractExports.
  replace (length content + 1) with (S (length content)) by lia. simpl.
  rewrite regex_exec_0, search_None; [done|].
  intros pre s' ->.
  destruct (match_at exportRegex s') as [res|] eqn:Hm; [|done].
  destruct (exportRegex_keyword s') as [t ->]; [by rewrite Hm|].
  destruct Hno. by exists pre, t.
Qed.

(** A bare function declaration is a word of the react pattern. *)
Lemma react_pattern_bare_function ws name ws' :
  ws ≠ [] → Forall (λ c, is_space c = true) ws →
  name ≠ [] → Forall (λ c, is_word c = true) name →
  Forall (λ c, is_space c = true) ws' →
  lang react_pattern
    (str "function" ++ ws ++ name ++ ws' ++ str "(" ++ []).
Proof.
  intros Hws1 Hws2 Hn1 Hn2 Hws'. right.
  apply lang_seqs_cons; [by apply lang_lit|].
  apply lang_seqs_cons; [by apply lang_plus_class|].
  apply lang_seqs_cons; [by apply lang_plus_class|].
  apply lang_seqs_cons; [by apply lang_star_class|].
  apply lang_seqs_cons; [by apply lang_lit | done].
Qed.

(** C9: for react, a file with a bare declaration [function Name(] and
    without the word [export] yields a record, and the record's list of
    exports is empty. *)
Theorem react_bare_function_no_exports
    (path_basename : jsstring → jsstring → jsstring)
    (path_extname : jsstring → jsstring)
    (filePath pre ws name ws' post : jsstring) :
  let content :=
    pre ++ str "function" ++ ws ++ name ++ ws' ++ str "(" ++ post in
  ws ≠ [] → Forall (λ c, is_space c = true) ws →
  name ≠ [] → Forall (λ c, is_word c = true) name →
  Forall (λ c, is_space c = true) ws' →
  ¬ contains (str "export") content →
  regex_test react_pattern content = true ∧
  extractExports content (str "react") = Some [] ∧
  extractComponentInfo path_basename path_extname filePath content
    (str "react")
  = Some (Some {| cc_name := path_basename filePath (path_extname filePath);
                  cc_path := filePath;
                  cc_framework := str "react";
                  cc_size := length content;
                  cc_exports := [];
                  cc_props := extractProps content (str "react") |}).
Proof.
  intros content Hws1 Hws2 Hn1 Hn2 Hws' Hno.
  assert (regex_test react_pattern content = true) as Htest.
  { unfold content.
    replace (str "function" ++ ws ++ name ++ ws' ++ str "(" ++ post)
      with ((str "function" ++ ws ++ name ++ ws' ++ str "(" ++ []) ++ post)
      by (by rewrite <-!(assoc_L (++))).
    apply regex_test_intro, rmatch_complete; [|done].
    by apply react_pattern_bare_function. }
  pose proof (extractExports_no_export content (str "react") Hno) as Hexp.
  split_and!; [done..|].
  unfold extractComponentInfo.
  change (patterns (str "react")) with (Some react_pattern). cbv iota beta.
  by rewrite Htest, Hexp.
Qed.

Lemma react_bare_function_no_exports_witness :
  extractExports (str "const a = 1; function Foo (x) {}") (str "react")
    = Some [].
Proof.
  apply (react_bare_function_no_exports (λ p _, p) (λ p, p) (str "Foo.tsx")
           (str "const a = 1; ") (str " ") (str "Foo") (str " ")
           (str "x) {}")).
  - done.
  - by repeat apply Forall_cons_2.
  - done.
  - by repeat apply Forall_cons_2.
  - by repeat apply Forall_cons_2.
  - intros (p & q & Heq). revert Heq.
    repeat (destruct p as [|? p]; [by vm_compute|]; intros [= <- Heq];
            revert Heq).
Defined.

(** ** Greedy runs *)

Lemma rmatch_chars (l t : jsstring) caps k :
  rmatch (seqs (Char <$> l)) (l ++ t) caps k = k t caps.
Proof.
  induction l as [|c l IH]; simpl; [done|].
  by rewrite bool_decide_eq_true_2.
Qed.

Lemma rmatch_lit s t caps k : rmatch (lit s) (str s ++ t) caps k = k t caps.
Proof. apply rmatch_chars. Qed.

Lemma star_loop_class p k w rest caps fuel :
  Forall (λ c, p c = true) w → stops p rest → length w ≤ fuel →
  star_loop (rmatch (Class p)) k fuel (w ++ rest) caps
    = greedy_try k caps w rest.
Proof.
  intros Hw Hrest. revert fuel.
  induction Hw as [|c w Hc Hw IH]; intros fuel Hfuel; simpl.
  - destruct fuel as [|fuel]; simpl; [done|].
    destruct rest as [|x rest]; simpl in *; [done|]. by rewrite Hrest.
  - destruct fuel as [|fuel]; simpl in *; [lia|].
    rewrite Hc, bool_decide_eq_true_2 by lia.
    rewrite IH by lia. done.
Qed.

Lemma rmatch_star_class p k w rest caps :
  Forall (λ c, p c = true) w → stops p rest →
  rmatch (Star (Class p)) (w ++ rest) caps k = greedy_try k caps w rest.
Proof.
  intros Hw Hrest. simpl. apply star_loop_class; [done..|].
  rewrite length_app. lia.
Qed.

Lemma rmatch_plus_class p k c w rest caps :
  p c = true → Forall (λ c, p c = true) w → stops p rest →
  rmatch (Plus (Class p)) (c :: w ++ rest) caps k
    = greedy_try k caps w rest.
Proof.
  intros Hc Hw Hrest. unfold Plus.
  change (rmatch (Seq (Class p) (Star (Class p))) (c :: w ++ rest) caps k)
    with (if p c then rmatch (Star (Class p)) (w ++ rest) caps k else None).
  rewrite Hc. by apply rmatch_star_class.
Qed.

(** The longest run is taken when the continuation accepts it. *)
Lemma greedy_try_longest k caps w rest res :
  k rest caps = Some res → greedy_try k caps w rest = Some res.
Proof. intros Hk. induction w as [|c w IH]; simpl; [done|]. by rewrite IH. Qed.

(** The run is cut back to the longest point the continuation accepts. *)
Lemma greedy_try_exact k caps w rest :
  (∀ v1 v2, w = v1 ++ v2 → v1 ≠ [] → k (v2 ++ rest) caps = None) →
  greedy_try k caps w rest = k (w ++ rest) caps.
Proof.
  induction w as [|c w IH]; intros Hnone; simpl; [done|].
  rewrite IH.
  - by rewrite (Hnone [c] w).
  - intros v1 v2 -> Hv1. by apply (Hnone (c :: v1) v2).
Qed.

Lemma greedy_try_backtrack k caps w1 w2 rest res :
  (∀ v1 v2, w2 = v1 ++ v2 → v1 ≠ [] → k (v2 ++ rest) caps = None) →
  k (w2 ++ rest) caps = Some res →
  greedy_try k caps (w1 ++ w2) rest = Some res.
Proof.
  intros Hnone Hk. induction w1 as [|c w1 IH]; simpl.
  - by rewrite greedy_try_exact.
  - by rewrite IH.
Qed.

(** ** The first props declaration *)

Lemma take_consumed (w rest : jsstring) :
  take (length (w ++ rest) - length rest) (w ++ rest) = w.
Proof.
  rewrite length_app.
  replace (length w + length rest - length rest) with (length w) by lia.
  apply take_app_length.
Qed.

Lemma space_not_word c : is_space c = true → is_word c = false.
Proof.
  unfold is_space, is_word. intros Hsp.
  repeat (apply orb_false_intro); apply bool_decide_eq_false_2; intros Hw;
    apply orb_prop in Hsp as [Hsp | Hsp]; apply bool_decide_eq_true in Hsp;
    rewrite ?elem_of_cons, ?elem_of_nil in Hsp; lia.
Qed.

Lemma rmatch_char_mismatch c rs x t caps k :
  x ≠ c → rmatch (seqs (Char c :: rs)) (x :: t) caps k = None.
Proof. intros Hne. simpl. by rewrite bool_decide_eq_false_2. Qed.

Lemma rmatch_seqs_cons r rs s caps k :
  rmatch (seqs (r :: rs)) s caps k
    = rmatch r s caps (λ s' caps', rmatch (seqs rs) s' caps' k).
Proof. done. Qed.

Section props_declaration.
Variables ws name ws' body rest : jsstring.
Hypothesis ws_nonempty : ws ≠ [].
Hypothesis ws_space : Forall (λ c, is_space c = true) ws.
Hypothesis name_word : Forall (λ c, is_word c = true) name.
Hypothesis ws'_space : Forall (λ c, is_space c = true) ws'.
Hypothesis body_nonempty : body ≠ [].
Hypothesis body_inside : Forall (λ c, not_rbrace c = true) body.

Local Abbreviation done_k :=
  (λ (s' : jsstring) (caps : captures), Some (s', caps)).
Local Abbreviation from_body :=
  [Group 1 (Plus (Class not_rbrace)); lit "}"].
Local Abbreviation from_brace := (lit "{" :: from_body).
Local Abbreviation from_props :=
  (lit "Props" :: Star (Class is_space) :: from_brace).

Lemma props_body caps :
  rmatch (seqs from_body) (body ++ str "}" ++ rest) caps done_k
    = Some (rest, <[1 := body]> caps).
Proof using body_nonempty body_inside.
  destruct body as [|b body0]; [done|].
  apply Forall_cons in body_inside as [Hb Hbody0].
  rewrite rmatch_seqs_cons.
  change (rmatch (Group 1 ?r) ?s ?c ?k)
    with (rmatch r s c
            (λ s' caps', k s' (<[1 := take (length s - length s') s]> caps'))).
  change ((b :: body0) ++ str "}" ++ rest)
    with (b :: body0 ++ str "}" ++ rest).
  rewrite rmatch_plus_class; [|done..].
  apply greedy_try_longest.
  rewrite rmatch_seqs_cons, rmatch_lit.
  change (b :: body0 ++ str "}" ++ rest)
    with ((b :: body0) ++ str "}" ++ rest).
  by rewrite take_consumed.
Qed.

Lemma props_brace caps :
  rmatch (seqs from_brace) (str "{" ++ body ++ str "}" ++ rest) caps done_k
    = Some (rest, <[1 := body]> caps).
Proof using body_nonempty body_inside.
  rewrite rmatch_seqs_cons, rmatch_lit. apply props_body.
Qed.

Lemma props_keyword_tail caps :
  rmatch (seqs from_props)
    (str "Props" ++ ws' ++ str "{" ++ body ++ str "}" ++ rest) caps done_k
    = Some (rest, <[1 := body]> caps).
Proof using ws'_space body_nonempty body_inside.
  rewrite rmatch_seqs_cons, rmatch_lit, rmatch_seqs_cons.
  rewrite rmatch_star_class; [|done..].
  apply greedy_try_longest, props_brace.
Qed.

(** Short of the whole word [Props], the rest of the pattern fails. *)
Lemma props_keyword_cut caps v1 v2 :
  str "Props" = v1 ++ v2 → v1 ≠ [] →
  rmatch (seqs from_props)
    (v2 ++ ws' ++ str "{" ++ body ++ str "}" ++ rest) caps done_k = None.
Proof using ws'_space.
  intros Heq Hv1.
  destruct v1 as [|? v1]; [done|]. injection Heq as <- Heq.
  do 4 (destruct v1 as [|? v1];
        [simpl in Heq; by subst v2|]; injection Heq as <- Heq).
  destruct v1; [|done]. simpl in Heq. subst v2.
  destruct ws'_space as [|c l Hc _]; [done|].
  rewrite rmatch_seqs_cons.
  change (lit "Props") with (seqs (Char 80%N :: (Char <$> str "rops"))).
  apply rmatch_char_mismatch. by intros ->.
Qed.

Local Abbreviation declaration_tail :=
  (ws' ++ str "{" ++ body ++ str "}" ++ rest).

Lemma props_name caps :
  rmatch (seqs (Star (Class is_word) :: from_props))
    (name ++ str "Props" ++ declaration_tail) caps done_k
    = Some (rest, <[1 := body]> caps).
Proof using name_word ws'_space body_nonempty body_inside.
  rewrite rmatch_seqs_cons, (assoc_L (++) name).
  rewrite rmatch_star_class.
  - apply greedy_try_backtrack; [|apply props_keyword_tail].
    intros v1 v2. apply props_keyword_cut.
  - apply Forall_app. split; [done|]. by repeat apply Forall_cons_2.
  - destruct ws'_space as [|c l Hc _]; [done|]. by apply space_not_word.
Qed.

Lemma props_space caps :
  rmatch (seqs (Plus (Class is_space) :: Star (Class is_word) :: from_props))
    (ws ++ name ++ str "Props" ++ declaration_tail) caps done_k
    = Some (rest, <[1 := body]> caps).
Proof using All.
  rewrite rmatch_seqs_cons.
  destruct ws_space as [|c l Hc Hl]; [done|].
  change ((c :: l) ++ ?t) with (c :: l ++ t).
  rewrite rmatch_plus_class; [|done..|].
  - apply greedy_try_longest, props_name.
  - destruct name_word as [|x l' Hx _]; [done|]. simpl.
    destruct (is_space x) eqn:Hsp; [|done].
    apply space_not_word in Hsp. congruence.
Qed.

Lemma propsRegex_declaration kw :
  kw = str "interface" ∨ kw = str "type" →
  match_at propsRegex
    (kw ++ ws ++ name ++ str "Props" ++ declaration_tail)
    = Some (rest, <[1 := body]> ∅).
Proof using All.
  intros Hkw. unfold match_at.
  change propsRegex
    with (seqs (Alt (lit "interface") (lit "type")
                :: Plus (Class is_space) :: Star (Class is_word)
                :: from_props)).
  rewrite rmatch_seqs_cons.
  change (rmatch (Alt ?a ?b) ?s ?c ?k)
    with (match rmatch a s c k with
          | Some res => Some res
          | None => rmatch b s c k
          end).
  destruct Hkw as [-> | ->].
  - by rewrite rmatch_lit, props_space.
  - change (lit "interface")
      with (seqs (Char 105%N :: (Char <$> str "nterface"))).
    change (str "type" ++ ?t) with (116%N :: str "ype" ++ t).
    rewrite rmatch_char_mismatch by done.
    change (116%N :: str "ype" ++ ?t) with (str "type" ++ t).
    by rewrite rmatch_lit, props_space.
Qed.
End props_declaration.

(** C10, amended: for react the props come from the first place of the
    file where the props pattern matches, and from nothing after it.  The
    pattern reads [interface] or [type], white space, a name that ends in
    [Props], optional white space and then at once a braced body that is
    not empty and has no [}] in it.  With no match starting before such
    a declaration, [extractProps] returns the property tokens of its
    body, whatever follows the closing brace. *)
Theorem extractProps_first_declaration
    (pre kw ws name ws' body rest : jsstring) :
  let content :=
    pre ++ kw ++ ws ++ name ++ str "Props" ++ ws' ++ str "{" ++ body
      ++ str "}" ++ rest in
  kw = str "interface" ∨ kw = str "type" →
  ws ≠ [] → Forall (λ c, is_space c = true) ws →
  Forall (λ c, is_word c = true) name →
  Forall (λ c, is_space c = true) ws' →
  body ≠ [] → Forall (λ c, not_rbrace c = true) body →
  (∀ j, j < length pre → match_at propsRegex (drop j content) = None) →
  extractProps content (str "react")
    = match string_match_global propTokenRegex body with
      | Some propMatches =>
          string_replace_global propPunctRegex [] <$> propMatches
      | None => []
      end.
Proof.
  intros content Hkw Hws1 Hws2 Hname Hws' Hb1 Hb2 Hfirst.
  unfold extractProps.
  rewrite bool_decide_eq_true_2 by done.
  rewrite regex_exec_0.
  assert (search propsRegex content 0
          = Some (0 + length pre, rest, <[1 := body]> ∅)) as ->.
  { apply search_first; [done | by apply propsRegex_declaration]. }
  simpl. rewrite lookup_insert_eq. simpl.
  by destruct (string_match_global propTokenRegex body).
Qed.

Lemma extractProps_first_declaration_witness :
  extractProps
    (str "// c " ++ str "interface" ++ str " " ++ str "A" ++ str "Props"
       ++ str " " ++ str "{" ++ str " a: string; b?: number " ++ str "}"
       ++ str " interface BProps { c: number }")
    (str "react")
  = [str "a"; str "b"].
Proof.
  apply (extractProps_first_declaration (str "// c ") (str "interface")
           (str " ") (str "A") (str " ") (str " a: string; b?: number ")
           (str " interface BProps { c: number }")).
  - by left.
  - done.
  - by repeat apply Forall_cons_2.
  - by repeat apply Forall_cons_2.
  - by repeat apply Forall_cons_2.
  - done.
  - by repeat apply Forall_cons_2.
  - intros j Hj. do 5 (destruct j as [|j]; [by vm_compute|]). simpl in Hj. lia.
Defined.

(** C10 as stated fails: the first declaration of this file whose name
    ends in [Props] has an [extends] clause between the name and the
    brace, so the pattern does not match it; the props are read from the
    second declaration, and [label], the property of the first one, is
    not among them. *)
Lemma extractProps_first_declaration_skipped :
  extractProps
    (str "interface CardProps extends Base { label: string }"
       ++ str " interface LinkProps { href: string }")
    (str "react")
  = [str "href"].
Proof. vm_compute. reflexivity. Qed.

(** The same holds for a first declaration with type parameters or with
    an empty body. *)
Example extractProps_unmatched_declarations :
  extractProps
    (str "interface ListProps<T> { items: T[] } interface RowProps { row: T }")
    (str "react")
  = [str "row"] ∧
  extractProps
    (str "interface EmptyProps {} interface RowProps { row: number }")
    (str "react")
  = [str "row"].
Proof. split; vm_compute; reflexivity. Qed.

(** ** The loops over the matches end *)

Lemma search_Some r s i j rest caps :
  search r s i = Some (j, rest, caps) →
  ∃ pre w, s = pre ++ w ++ rest ∧ j = i + length pre ∧ lang r w.
Proof.
  revert i. induction s as [|x s IH]; intros i; simpl.
  - destruct (match_at r []) as [[rest' caps']|] eqn:Hm; [|done].
    intros [= <- <- <-]. unfold match_at in Hm.
    apply rmatch_sound in Hm as (w & s' & caps'' & Hs & Hw & [= <- <-]).
    exists [], w. split_and!; [done | simpl; lia | done].
  - destruct (match_at r (x :: s)) as [[rest' caps']|] eqn:Hm.
    + intros [= <- <- <-]. unfold match_at in Hm.
      apply rmatch_sound in Hm as (w & s' & caps'' & Hs & Hw & [= <- <-]).
      exists [], w. split_and!; [done | simpl; lia | done].
    + intros (pre & w & -> & -> & Hw)%IH.
      exists (x :: pre), w. split_and!; [done | simpl; lia | done].
Qed.

(** A match found from [lastIndex] on lies between [lastIndex] and the
    end of the input, and [match[0]] is a word of the pattern. *)
Lemma regex_exec_Some r content lastIndex m :
  regex_exec r content lastIndex = Some m →
  lastIndex ≤ mr_index m ∧
  mr_end m = mr_index m + length (mr_match m) ∧
  mr_end m ≤ length content ∧
  lang r (mr_match m).
Proof.
  unfold regex_exec. case_bool_decide as Hlen; [done|].
  destruct (search r (drop lastIndex content) lastIndex)
    as [[[j rest] caps]|] eqn:Hs; [|done].
  intros [= <-]. simpl.
  apply search_Some in Hs as (pre & w & Hdrop & -> & Hw).
  assert (content = take lastIndex content ++ pre ++ w ++ rest) as Hc.
  { by rewrite <-Hdrop, take_drop. }
  assert (length (take lastIndex content) = lastIndex) as Htake.
  { rewrite length_take. lia. }
  assert (length content
          = lastIndex + length pre + length w + length rest) as Hl.
  { rewrite Hc at 1. rewrite !length_app. lia. }
  assert (take (length content - length rest - (lastIndex + length pre))
            (drop (lastIndex + length pre) content) = w) as Hmatch.
  { replace (length content - length rest - (lastIndex + length pre))
      with (length w) by lia.
    rewrite Hc, (assoc_L (++) _ pre), drop_app_length'
      by (rewrite length_app; lia).
    apply take_app_length. }
  rewrite Hmatch. split_and!; [lia | lia | lia | done].
Qed.

(** Past [length content + 2] rounds, more fuel finds no more matches. *)
Lemma exec_all_fuel r content fuel lastIndex :
  length content + 2 ≤ fuel + lastIndex →
  exec_all (S fuel) r content lastIndex = exec_all fuel r content lastIndex.
Proof.
  revert lastIndex. induction fuel as [|fuel IH]; intros lastIndex Hfuel.
  - simpl. unfold regex_exec. by rewrite bool_decide_eq_true_2 by lia.
  - change (exec_all (S (S fuel)) r content lastIndex)
      with (match regex_exec r content lastIndex with
            | None => []
            | Some m =>
                m :: exec_all (S fuel) r content
                       (if bool_decide (mr_match m = []) then S (mr_end m)
                        else mr_end m)
            end).
    change (exec_all (S fuel) r content lastIndex)
      with (match regex_exec r content lastIndex with
            | None => []
            | Some m =>
                m :: exec_all fuel r content
                       (if bool_decide (mr_match m = []) then S (mr_end m)
                        else mr_end m)
            end).
    destruct (regex_exec r content lastIndex) as [m|] eqn:Hm; [|done].
    apply regex_exec_Some in Hm as (Hi & He & _ & _).
    f_equal. apply IH. case_bool_decide as Hempty; [lia|].
    destruct (mr_match m); [done | simpl in He; lia].
Qed.

Lemma exportRegex_nonempty w : lang exportRegex w → 0 < length w.
Proof.
  intros (w1 & w2 & -> & Hw1%lang_lit & _). subst w1.
  rewrite length_app. simpl. lia.
Qed.

Lemma exports_loop_ends content fuel lastIndex exports :
  lastIndex ≤ length content → length content < fuel + lastIndex →
  is_Some (exports_loop fuel content lastIndex exports).
Proof.
  revert lastIndex exports.
  induction fuel as [|fuel IH]; intros lastIndex exports Hlast Hfuel; simpl.
  - lia.
  - destruct (regex_exec exportRegex content lastIndex) as [m|] eqn:Hm;
      [|done].
    apply regex_exec_Some in Hm as (Hi & He & Hlen & Hw%exportRegex_nonempty).
    apply IH; lia.
Qed.

(** The export loop of [extractExports] ends on every input, and with
    it [extractComponentInfo] returns. *)
Lemma extractExports_total content framework :
  is_Some (extractExports content framework).
Proof. apply exports_loop_ends; lia. Qed.

Lemma extractComponentInfo_total path_basename path_extname
    filePath content framework :
  is_Some (extractComponentInfo path_basename path_extname filePath content
             framework).
Proof.
  unfold extractComponentInfo.
  destruct (patterns framework) as [pattern|]; [|done].
  destruct (regex_test pattern content); simpl; [|done].
  by destruct (extractExports_total content framework) as [exports ->].
Qed.

(** * The reconciler on an example *)

Example example_run :
  let M := createComponentMappings ascii_toLowerCase example_figma
             example_codeComponents true in
  (em_figma_name <$> exact_matches M) = [str "Button"; str "Card"] ∧
  ((λ m, (sm_figma_name m,
          (λ s, cc_path (sg_component s)) <$> sm_suggestions m))
     <$> similar_matches M)
    = [(str "NavBars", [str "src/Navbar.tsx"; str "src/old/navBar.tsx"])] ∧
  missing_in_code M
    = [ {| mc_figma_id := str "1:3"; mc_figma_name := str "HeaderNav";
           mc_description := [] |} ] ∧
  (mf_name <$> missing_in_figma M) = [str "Footer"].
Proof. by vm_compute. Qed.

Example example_headernav_navbar :
  calculateNameSimilarity (str "headernav") (str "navbar")
    = Fin (Q2Qc (2 # 5)).
Proof. vm_compute. f_equal. by apply Qc_is_canon. Qed.

Lemma createComponentMappings_one_group_witness :
  group_count (str "1:3")
    (createComponentMappings ascii_toLowerCase example_figma
       example_codeComponents true) = 1.
Proof.
  apply (createComponentMappings_one_group ascii_toLowerCase example_figma
           example_codeComponents true (str "1:3")
           (mkFigmaComponent (str "HeaderNav") None)).
  - repeat (apply NoDup_cons_2;
            [rewrite ?not_elem_of_cons; split_and?;
             by first [apply not_elem_of_nil | vm_compute]|]).
    apply NoDup_nil_2.
  - by apply (list_elem_of_lookup_2 _ 2).
Defined.

Lemma exact_match_first_witness :
  ∃ i cc,
    example_codeComponents !! i = Some cc ∧
    ascii_toLowerCase (cc_name cc) = ascii_toLowerCase (str "Card") ∧
    (∀ j cc', example_codeComponents !! j = Some cc' → j < i →
       ascii_toLowerCase (cc_name cc') ≠ ascii_toLowerCase (str "Card")) ∧
    {| em_figma_id := str "1:2"; em_figma_name := str "Card";
       em_code_component := cc; em_confidence := num_one |}
      ∈ exact_matches
          (createComponentMappings ascii_toLowerCase example_figma
             example_codeComponents true).
Proof.
  apply (exact_match_first ascii_toLowerCase example_figma
           example_codeComponents true (str "1:2")
           (mkFigmaComponent (str "Card") (Some (str "A card")))).
  - by apply (list_elem_of_lookup_2 _ 1).
  - exists (example_code "card" "src/card.tsx"). split.
    + by apply (list_elem_of_lookup_2 _ 1).
    + by vm_compute.
Defined.

Lemma similar_or_missing_witness :
  let scored :=
    (λ cc, {| sg_component := cc;
              sg_similarity :=
                calculateNameSimilarity (ascii_toLowerCase (str "NavBars"))
                  (ascii_toLowerCase (cc_name cc)) |})
      <$> example_codeComponents in
  let kept := filter (λ s, js_gt (sg_similarity s) num_half) scored in
  ∃ sorted,
    sorted ≡ₚ kept ∧
    StronglySorted score_desc sorted ∧
    (∀ v, filter (λ s, sg_similarity s = v) sorted
          = filter (λ s, sg_similarity s = v) kept) ∧
    if decide (kept = []) then
      {| mc_figma_id := str "1:4"; mc_figma_name := str "NavBars";
         mc_description := str "Top bar" |}
        ∈ missing_in_code
            (createComponentMappings ascii_toLowerCase example_figma
               example_codeComponents true)
    else
      {| sm_figma_id := str "1:4"; sm_figma_name := str "NavBars";
         sm_suggestions := take 3 sorted |}
        ∈ similar_matches
            (createComponentMappings ascii_toLowerCase example_figma
               example_codeComponents true).
Proof.
  apply (similar_or_missing ascii_toLowerCase example_figma
           example_codeComponents true (str "1:4")
           (mkFigmaComponent (str "NavBars") (Some (str "Top bar")))).
  - by apply (list_elem_of_lookup_2 _ 3).
  - intros cc Hcc.
    repeat (apply elem_of_cons in Hcc as [-> | Hcc]; [by vm_compute|]).
    by apply elem_of_nil in Hcc.
Defined.

(** * Further properties of the reconciler *)

(** ** Degenerate inputs *)

Lemma foldl_classify_no_code toLowerCase M figmaComponents :
foldl (classify toLowerCase []) M figmaComponents
  = {| exact_matches := exact_matches M;
       similar_matches := similar_matches M;
       missing_in_code :=
         missing_in_code M ++
           ((λ e, {| mc_figma_id := e.1; mc_figma_name := fc_name e.2;
                     mc_description := default [] (fc_description e.2) |})
              <$> figmaComponents);
       missing_in_figma := missing_in_figma M |}.
Proof.
revert M. induction figmaComponents as [|e es IH]; intros M; simpl.
- rewrite app_nil_r. by destruct M.
- rewrite IH. unfold classify. simpl. by rewrite <-(assoc_L (++)).
Qed.

(** With no code components every design component is missing in code,
    in the order of the input, and nothing is missing in Figma; with no
    design components every code component is missing in Figma, in
    order, and the other groups are empty. *)
Theorem createComponentMappings_degenerate toLowerCase
  (figmaComponents : list (jsstring * FigmaComponent))
  (codeComponents : list CodeComponent) (includeProps : bool) :
createComponentMappings toLowerCase figmaComponents [] includeProps
  = {| exact_matches := []; similar_matches := [];
       missing_in_code :=
         (λ e, {| mc_figma_id := e.1; mc_figma_name := fc_name e.2;
                  mc_description := default [] (fc_description e.2) |})
           <$> figmaComponents;
       missing_in_figma := [] |} ∧
createComponentMappings toLowerCase [] codeComponents includeProps
  = {| exact_matches := []; similar_matches := []; missing_in_code := [];
       missing_in_figma := figma_summary <$> codeComponents |}.
Proof.
split.
- unfold createComponentMappings. by rewrite foldl_classify_no_code.
- unfold createComponentMappings. simpl. f_equal. unfold figma_summary.
  f_equal. induction codeComponents as [|cc ccs IH]; [done|].
  rewrite filter_cons_True by set_solver. by rewrite IH.
Qed.

(** ** Order of the groups *)

Lemma foldl_classify_ids toLowerCase codeComponents M es :
∃ l1 l2 l3,
  em_figma_id <$> exact_matches
                    (foldl (classify toLowerCase codeComponents) M es)
    = (em_figma_id <$> exact_matches M) ++ l1 ∧
  sm_figma_id <$> similar_matches
                    (foldl (classify toLowerCase codeComponents) M es)
    = (sm_figma_id <$> similar_matches M) ++ l2 ∧
  mc_figma_id <$> missing_in_code
                    (foldl (classify toLowerCase codeComponents) M es)
    = (mc_figma_id <$> missing_in_code M) ++ l3 ∧
  l1 `sublist_of` es.*1 ∧ l2 `sublist_of` es.*1 ∧ l3 `sublist_of` es.*1 ∧
  l1 ++ l2 ++ l3 ≡ₚ es.*1.
Proof.
revert M. induction es as [|e es IH]; intros M; simpl.
{ exists [], [], []. by rewrite !app_nil_r. }
destruct (IH (classify toLowerCase codeComponents M e))
  as (l1 & l2 & l3 & -> & -> & -> & H1 & H2 & H3 & Hp).
unfold classify.
destruct (list_find _ codeComponents) as [[i cc]|]; simpl;
  [|case_bool_decide; simpl].
- exists (e.1 :: l1), l2, l3. rewrite fmap_app, <-(assoc_L (++)). simpl.
  split_and!; [done.. | by apply sublist_skip | by apply sublist_cons
               | by apply sublist_cons | by rewrite Hp].
- exists l1, (e.1 :: l2), l3. rewrite fmap_app, <-(assoc_L (++)). simpl.
  split_and!; [done.. | by apply sublist_cons | by apply sublist_skip
               | by apply sublist_cons |].
  by rewrite <-Permutation_middle, Hp.
- exists l1, l2, (e.1 :: l3). rewrite fmap_app, <-(assoc_L (++)). simpl.
  split_and!; [done.. | by apply sublist_cons | by apply sublist_cons
               | by apply sublist_skip |].
  by rewrite (assoc_L (++)), <-Permutation_middle, <-(assoc_L (++)), Hp.
Qed.

(** The ids of each group follow the order of the input, and the three
    groups together hold the ids of the input, each as often as the
    input has it. *)
Theorem createComponentMappings_ids toLowerCase
  (figmaComponents : list (jsstring * FigmaComponent))
  (codeComponents : list CodeComponent) (includeProps : bool) :
let M := createComponentMappings toLowerCase figmaComponents
           codeComponents includeProps in
(em_figma_id <$> exact_matches M) `sublist_of` figmaComponents.*1 ∧
(sm_figma_id <$> similar_matches M) `sublist_of` figmaComponents.*1 ∧
(mc_figma_id <$> missing_in_code M) `sublist_of` figmaComponents.*1 ∧
(em_figma_id <$> exact_matches M) ++ (sm_figma_id <$> similar_matches M)
  ++ (mc_figma_id <$> missing_in_code M) ≡ₚ figmaComponents.*1.
Proof.
destruct (foldl_classify_ids toLowerCase codeComponents
            (mkMappings [] [] [] []) figmaComponents)
  as (l1 & l2 & l3 & H1 & H2 & H3 & Hs1 & Hs2 & Hs3 & Hp).
simpl in *. unfold createComponentMappings. simpl.
rewrite H1, H2, H3. done.
Qed.

(** ** Every entry of a group is justified *)

Lemma sublist_same_length {A} (l1 l2 : list A) :
l1 `sublist_of` l2 → length l1 = length l2 → l1 = l2.
Proof.
induction 1 as [|x l1 l2 Hs IH|x l1 l2 Hs IH]; simpl; intros Hlen.
- done.
- f_equal. apply IH. lia.
- apply sublist_length in Hs. lia.
Qed.

(** A score of [1] needs equal strings. *)
Lemma calculateNameSimilarity_one_inv a b :
calculateNameSimilarity a b = num_one → a = b ∧ a ≠ [].
Proof.
intros Hone.
assert (a ≠ [] ∨ b ≠ []) as Hne.
{ destruct a; [|by left]. destruct b; [done | by right]. }
rewrite (calculateNameSimilarity_Fin a b Hne) in Hone.
apply (f_equal (λ x, match x with Fin q => q | _ => 0%Qc end)) in Hone.
simpl in Hone. rename Hone into Hq.
pose proof (longestCommonSubsequence_is_lcs_length a b) as Hlcs.
destruct (is_lcs_length_bound a b _ Hlcs) as [Hla Hlb].
set (n := longestCommonSubsequence a b) in *.
assert (0 < length a + length b) as Hpos.
{ destruct Hne as [H | H]; [destruct a | destruct b]; simpl; try done; lia. }
assert (Qc_of_Z (2 * Z.of_nat n) = Qc_of_Z (Z.of_nat (length a + length b)))
  as Heq.
{ rewrite <-(Qcmult_div_r (Qc_of_Z (2 * Z.of_nat n))
               (Qc_of_Z (Z.of_nat (length a + length b)))).
  - rewrite Hq. by rewrite Qcmult_1_r.
  - rewrite <-Z2Qc_inj_0. intros H%Z2Qc_inj. lia. }
apply Z2Qc_inj in Heq.
destruct Hlcs as [(w & Hwa & Hwb & Hw) _].
assert (w = a) as -> by (apply sublist_same_length; [done | lia]).
assert (a = b) as <- by (apply sublist_same_length; [done | lia]).
split; [done|]. intros ->. simpl in *. lia.
Qed.

Section entries_justified.
Variable toLowerCase : jsstring → jsstring.
Variable codeComponents : list CodeComponent.

Local Abbreviation step := (classify toLowerCase codeComponents).

(** What a round of the loop adds to the groups. *)
Lemma classify_new M e :
(∀ x, x ∈ exact_matches (step M e) → x ∈ exact_matches M ∨
   ∃ i cc, list_find (λ cc, toLowerCase (cc_name cc)
                            = toLowerCase (fc_name e.2)) codeComponents
           = Some (i, cc) ∧
     x = {| em_figma_id := e.1; em_figma_name := fc_name e.2;
            em_code_component := cc; em_confidence := num_one |}) ∧
(∀ x, x ∈ similar_matches (step M e) → x ∈ similar_matches M ∨
   list_find (λ cc, toLowerCase (cc_name cc)
                    = toLowerCase (fc_name e.2)) codeComponents = None ∧
   similar_candidates toLowerCase (toLowerCase (fc_name e.2))
     codeComponents ≠ [] ∧
   x = {| sm_figma_id := e.1; sm_figma_name := fc_name e.2;
          sm_suggestions :=
            take 3 (similar_candidates toLowerCase
                      (toLowerCase (fc_name e.2)) codeComponents) |}) ∧
(∀ x, x ∈ missing_in_code (step M e) → x ∈ missing_in_code M ∨
   list_find (λ cc, toLowerCase (cc_name cc)
                    = toLowerCase (fc_name e.2)) codeComponents = None ∧
   similar_candidates toLowerCase (toLowerCase (fc_name e.2))
     codeComponents = [] ∧
   x = {| mc_figma_id := e.1; mc_figma_name := fc_name e.2;
          mc_description := default [] (fc_description e.2) |}).
Proof.
unfold classify.
destruct (list_find _ codeComponents) as [[i cc]|] eqn:Hfind; simpl;
  [|case_bool_decide as Hlen; simpl]; split_and!; intros x;
  rewrite ?elem_of_app, ?list_elem_of_singleton; auto.
- intros [Hx | ->]; [by left | right]. by exists i, cc.
- intros [Hx | ->]; [by left | right]. split_and!; [done | | done].
  intros Hnil. rewrite Hnil in Hlen. simpl in Hlen. lia.
- intros [Hx | ->]; [by left | right]. split_and!; [done | | done].
  destruct (similar_candidates _ _ _); [done | simpl in Hlen; lia].
Qed.

Lemma foldl_classify_new M es :
(∀ x, x ∈ exact_matches (foldl step M es) → x ∈ exact_matches M ∨
   ∃ e i cc, e ∈ es ∧
     list_find (λ cc, toLowerCase (cc_name cc)
                      = toLowerCase (fc_name e.2)) codeComponents
       = Some (i, cc) ∧
     x = {| em_figma_id := e.1; em_figma_name := fc_name e.2;
            em_code_component := cc; em_confidence := num_one |}) ∧
(∀ x, x ∈ similar_matches (foldl step M es) → x ∈ similar_matches M ∨
   ∃ e, e ∈ es ∧
     list_find (λ cc, toLowerCase (cc_name cc)
                      = toLowerCase (fc_name e.2)) codeComponents = None ∧
     similar_candidates toLowerCase (toLowerCase (fc_name e.2))
       codeComponents ≠ [] ∧
     x = {| sm_figma_id := e.1; sm_figma_name := fc_name e.2;
            sm_suggestions :=
              take 3 (similar_candidates toLowerCase
                        (toLowerCase (fc_name e.2)) codeComponents) |}) ∧
(∀ x, x ∈ missing_in_code (foldl step M es) → x ∈ missing_in_code M ∨
   ∃ e, e ∈ es ∧
     list_find (λ cc, toLowerCase (cc_name cc)
                      = toLowerCase (fc_name e.2)) codeComponents = None ∧
     similar_candidates toLowerCase (toLowerCase (fc_name e.2))
       codeComponents = [] ∧
     x = {| mc_figma_id := e.1; mc_figma_name := fc_name e.2;
            mc_description := default [] (fc_description e.2) |}).
Proof.
revert M. induction es as [|e es IH]; intros M; simpl.
{ split_and!; intros x Hx; by left. }
destruct (IH (step M e)) as (IH1 & IH2 & IH3).
destruct (classify_new M e) as (H1 & H2 & H3).
split_and!; intros x Hx.
- apply IH1 in Hx as [Hx | (e' & i & cc & He' & Hrest)].
  + apply H1 in Hx as [Hx | (i & cc & Hrest)]; [by left | right].
    exists e, i, cc. split; [left | done].
  + right. exists e', i, cc. split; [by right | done].
- apply IH2 in Hx as [Hx | (e' & He' & Hrest)].
  + apply H2 in Hx as [Hx | Hrest]; [by left | right].
    exists e. split; [left | done].
  + right. exists e'. split; [by right | done].
- apply IH3 in Hx as [Hx | (e' & He' & Hrest)].
  + apply H3 in Hx as [Hx | Hrest]; [by left | right].
    exists e. split; [left | done].
  + right. exists e'. split; [by right | done].
Qed.

(** The scores of the candidates lie strictly between [0.5] and [1] when
    no code component has the design name. *)
Lemma similar_candidates_scores figmaName s :
(∀ cc, cc ∈ codeComponents → toLowerCase (cc_name cc) ≠ figmaName) →
s ∈ similar_candidates toLowerCase figmaName codeComponents →
sg_component s ∈ codeComponents ∧
sg_similarity s
  = calculateNameSimilarity figmaName (toLowerCase (cc_name (sg_component s)))
∧ ∃ q, sg_similarity s = Fin q ∧ (Q2Qc (1 # 2) < q)%Qc ∧ (q < 1)%Qc.
Proof.
intros Hnone. unfold similar_candidates. rewrite js_sort_perm.
intros [Hgt Hs]%list_elem_of_filter.
apply list_elem_of_fmap in Hs as (cc & -> & Hcc). simpl in *.
split_and!; [done..|].
destruct (calculateNameSimilarity_range figmaName (toLowerCase (cc_name cc)))
  as [HNaN | (q & Hq & _ & Hle)]; [by rewrite HNaN in Hgt|].
exists q. rewrite Hq in Hgt. simpl in Hgt. apply bool_decide_unpack in Hgt.
split_and!; [done..|].
apply Qcle_lt_or_eq in Hle as [Hlt | ->]; [done|].
apply calculateNameSimilarity_one_inv in Hq as [Heq _].
destruct (Hnone cc Hcc). done.
Qed.
End entries_justified.

Section groups_justified.
Variable toLowerCase : jsstring → jsstring.
Variable figmaComponents : list (jsstring * FigmaComponent).
Variable codeComponents : list CodeComponent.
Variable includeProps : bool.

Local Abbreviation result :=
  (createComponentMappings toLowerCase figmaComponents codeComponents
     includeProps).

(** An exact match always pairs a design component of the input with the
    first code component that has its name up to case, at confidence
    [1]. *)
Theorem exact_matches_justified (x : ExactMatch) :
x ∈ exact_matches result →
em_confidence x = num_one ∧
∃ figmaComponent i,
  (em_figma_id x, figmaComponent) ∈ figmaComponents ∧
  em_figma_name x = fc_name figmaComponent ∧
  codeComponents !! i = Some (em_code_component x) ∧
  toLowerCase (cc_name (em_code_component x))
    = toLowerCase (fc_name figmaComponent) ∧
  ∀ j cc, codeComponents !! j = Some cc → j < i →
    toLowerCase (cc_name cc) ≠ toLowerCase (fc_name figmaComponent).
Proof.
intros Hx.
destruct (foldl_classify_new toLowerCase codeComponents
            (mkMappings [] [] [] []) figmaComponents) as (H1 & _ & _).
apply H1 in Hx as [Hx | ([id fc] & i & cc & He & Hfind & ->)];
  [by apply elem_of_nil in Hx|].
apply list_find_Some in Hfind as (Hi & Hname & Hfirst). simpl in *.
split; [done|]. exists fc, i. split_and!; done.
Qed.

(** A similar match always belongs to a design component of the input
    that has no exact match; it carries one to three suggestions taken
    from the code components, in descending order of score, and every
    score is the similarity of the lower-cased names and lies strictly
    between [0.5] and [1]. *)
Theorem similar_matches_justified (x : SimilarMatch) :
x ∈ similar_matches result →
∃ figmaComponent,
  (sm_figma_id x, figmaComponent) ∈ figmaComponents ∧
  sm_figma_name x = fc_name figmaComponent ∧
  (∀ cc, cc ∈ codeComponents →
     toLowerCase (cc_name cc) ≠ toLowerCase (fc_name figmaComponent)) ∧
  1 ≤ length (sm_suggestions x) ≤ 3 ∧
  StronglySorted score_desc (sm_suggestions x) ∧
  ∀ s, s ∈ sm_suggestions x →
    sg_component s ∈ codeComponents ∧
    sg_similarity s
      = calculateNameSimilarity (toLowerCase (fc_name figmaComponent))
          (toLowerCase (cc_name (sg_component s))) ∧
    ∃ q, sg_similarity s = Fin q ∧ (Q2Qc (1 # 2) < q)%Qc ∧ (q < 1)%Qc.
Proof.
intros Hx.
destruct (foldl_classify_new toLowerCase codeComponents
            (mkMappings [] [] [] []) figmaComponents) as (_ & H2 & _).
apply H2 in Hx as [Hx | ([id fc] & He & Hfind & Hne & ->)];
  [by apply elem_of_nil in Hx|].
simpl in *.
assert (∀ cc, cc ∈ codeComponents →
          toLowerCase (cc_name cc) ≠ toLowerCase (fc_name fc)) as Hnone.
{ intros cc Hcc. rewrite list_find_None, Forall_forall in Hfind. auto. }
set (sorted := similar_candidates toLowerCase (toLowerCase (fc_name fc))
                 codeComponents) in *.
exists fc. split_and!; [done.. | | | |].
- rewrite length_take. destruct sorted; [done | simpl; lia].
- rewrite length_take. lia.
- destruct (js_sort_finite _
              (candidates_finite toLowerCase codeComponents
                 (toLowerCase (fc_name fc)))) as (_ & Hsorted & _).
  fold (similar_candidates toLowerCase (toLowerCase (fc_name fc))
          codeComponents) in Hsorted. fold sorted in Hsorted.
  rewrite <-(take_drop 3 sorted) in Hsorted.
  by apply StronglySorted_app_1_l in Hsorted.
- intros s Hs%subseteq_take.
  by apply similar_candidates_scores.
Qed.

(** A component recorded as missing in code is a design component of the
    input for which no code component has the name up to case or scores
    above [0.5]; the entry carries its description, or the empty string. *)
Theorem missing_in_code_justified (x : MissingInCode) :
x ∈ missing_in_code result →
∃ figmaComponent,
  (mc_figma_id x, figmaComponent) ∈ figmaComponents ∧
  mc_figma_name x = fc_name figmaComponent ∧
  mc_description x = default [] (fc_description figmaComponent) ∧
  ∀ cc, cc ∈ codeComponents →
    toLowerCase (cc_name cc) ≠ toLowerCase (fc_name figmaComponent) ∧
    js_gt (calculateNameSimilarity (toLowerCase (fc_name figmaComponent))
             (toLowerCase (cc_name cc))) num_half = false.
Proof.
intros Hx.
destruct (foldl_classify_new toLowerCase codeComponents
            (mkMappings [] [] [] []) figmaComponents) as (_ & _ & H3).
apply H3 in Hx as [Hx | ([id fc] & He & Hfind & Hnil & ->)];
  [by apply elem_of_nil in Hx|].
simpl in *. exists fc. split_and!; [done..|].
intros cc Hcc. split.
- rewrite list_find_None, Forall_forall in Hfind. auto.
- destruct (js_gt _ num_half) eqn:Hgt; [|done].
  assert ({| sg_component := cc;
             sg_similarity :=
               calculateNameSimilarity (toLowerCase (fc_name fc))
                 (toLowerCase (cc_name cc)) |}
          ∈ similar_candidates toLowerCase (toLowerCase (fc_name fc))
              codeComponents) as Hin.
  { unfold similar_candidates. rewrite js_sort_perm.
    apply list_elem_of_filter. split; [simpl; by rewrite Hgt|].
    by apply (list_elem_of_fmap_2
                (λ cc, {| sg_component := cc;
                          sg_similarity :=
                            calculateNameSimilarity
                              (toLowerCase (fc_name fc))
                              (toLowerCase (cc_name cc)) |})). }
  rewrite Hnil in Hin. by apply elem_of_nil in Hin.
Qed.
End groups_justified.

Lemma exact_matches_justified_witness :
let x := {| em_figma_id := str "1:2"; em_figma_name := str "Card";
            em_code_component := example_code "card" "src/card.tsx";
            em_confidence := num_one |} in
em_confidence x = num_one ∧
∃ figmaComponent i,
  (em_figma_id x, figmaComponent) ∈ example_figma ∧
  em_figma_name x = fc_name figmaComponent ∧
  example_codeComponents !! i = Some (em_code_component x) ∧
  ascii_toLowerCase (cc_name (em_code_component x))
    = ascii_toLowerCase (fc_name figmaComponent) ∧
  ∀ j cc, example_codeComponents !! j = Some cc → j < i →
    ascii_toLowerCase (cc_name cc)
      ≠ ascii_toLowerCase (fc_name figmaComponent).
Proof.
intros x.
apply (exact_matches_justified ascii_toLowerCase example_figma
         example_codeComponents true x).
by apply (list_elem_of_lookup_2 _ 1).
Defined.

Lemma missing_in_code_justified_witness :
let x := {| mc_figma_id := str "1:3"; mc_figma_name := str "HeaderNav";
            mc_description := [] |} in
∃ figmaComponent,
  (mc_figma_id x, figmaComponent) ∈ example_figma ∧
  mc_figma_name x = fc_name figmaComponent ∧
  mc_description x = default [] (fc_description figmaComponent) ∧
  ∀ cc, cc ∈ example_codeComponents →
    ascii_toLowerCase (cc_name cc)
      ≠ ascii_toLowerCase (fc_name figmaComponent) ∧
    js_gt (calculateNameSimilarity
             (ascii_toLowerCase (fc_name figmaComponent))
             (ascii_toLowerCase (cc_name cc))) num_half = false.
Proof.
intros x.
apply (missing_in_code_justified ascii_toLowerCase example_figma
         example_codeComponents true x).
by apply (list_elem_of_lookup_2 _ 0).
Defined.

Lemma similar_matches_justified_witness :
let x := {| sm_figma_id := str "1:4"; sm_figma_name := str "NavBars";
            sm_suggestions :=
              take 3 (similar_candidates ascii_toLowerCase
                        (ascii_toLowerCase (str "NavBars"))
                        example_codeComponents) |} in
∃ figmaComponent,
  (sm_figma_id x, figmaComponent) ∈ example_figma ∧
  1 ≤ length (sm_suggestions x) ≤ 3 ∧
  StronglySorted score_desc (sm_suggestions x).
Proof.
intros x.
destruct (similar_matches_justified ascii_toLowerCase example_figma
            example_codeComponents true x)
  as (fc & Hin & _ & _ & Hlen & Hsorted & _).
- by apply (list_elem_of_lookup_2 _ 0).
- by exists fc.
Defined.

(** ** Scores of [1] and of [0] *)

Lemma singleton_sublist {A} (c : A) (l : list A) :
c ∈ l → [c] `sublist_of` l.
Proof.
intros (l1 & l2 & ->)%list_elem_of_split.
apply sublist_cons_l. exists l1, l2. split; [done | apply sublist_nil_l].
Qed.

(** The score is [1] exactly for two equal non-empty strings. *)
Theorem calculateNameSimilarity_one_iff (a b : jsstring) :
calculateNameSimilarity a b = num_one ↔ a = b ∧ a ≠ [].
Proof.
split; [apply calculateNameSimilarity_one_inv|].
intros [<- Hne].
rewrite (calculateNameSimilarity_Fin a a) by by left.
rewrite (is_lcs_length_unique a a _ _
           (longestCommonSubsequence_is_lcs_length a a)
           (is_lcs_length_same a)).
unfold num_one. f_equal.
replace (2 * Z.of_nat (length a))%Z with (Z.of_nat (length a + length a))
  by lia.
apply Qc_of_Z_div_same. destruct a; simpl; [done | lia].
Qed.

(** For strings that are not both empty the score is [0] exactly when
    they share no code unit. *)
Theorem calculateNameSimilarity_zero_iff (a b : jsstring) :
a ≠ [] ∨ b ≠ [] →
(calculateNameSimilarity a b = num_zero ↔ ∀ c, c ∈ a → c ∉ b).
Proof.
intros Hne. rewrite (calculateNameSimilarity_Fin a b Hne).
pose proof (longestCommonSubsequence_is_lcs_length a b) as Hlcs.
set (n := longestCommonSubsequence a b) in *.
assert (0 < length a + length b) as Hpos.
{ destruct Hne as [H | H]; [destruct a | destruct b]; simpl; try done; lia. }
assert (Qc_of_Z (Z.of_nat (length a + length b)) ≠ 0%Qc) as Hnz.
{ rewrite <-Z2Qc_inj_0. intros H%Z2Qc_inj. lia. }
split.
- intros Hzero c Ha Hb.
  apply (f_equal (λ x, match x with Fin q => q | _ => 1%Qc end)) in Hzero.
  simpl in Hzero.
  assert (Qc_of_Z (2 * Z.of_nat n) = Qc_of_Z 0) as Heq.
  { rewrite <-(Qcmult_div_r (Qc_of_Z (2 * Z.of_nat n))
                 (Qc_of_Z (Z.of_nat (length a + length b)))) by done.
    rewrite Hzero. by rewrite Qcmult_0_r, Z2Qc_inj_0. }
  apply Z2Qc_inj in Heq.
  destruct Hlcs as [_ Hmax].
  pose proof (Hmax [c]) as Hc. simpl in Hc.
  assert (1 ≤ n); [|lia].
  apply Hc; by apply singleton_sublist.
- intros Hdisj.
  assert (n = 0) as ->.
  { destruct Hlcs as [(w & Hwa & Hwb & <-) _].
    destruct w as [|c w]; [done|].
    destruct (Hdisj c).
    + apply (sublist_subseteq _ _ Hwa). left.
    + apply (sublist_subseteq _ _ Hwb). left. }
  unfold num_zero. f_equal. change (2 * Z.of_nat 0)%Z with 0%Z.
  rewrite Z2Qc_inj_0. unfold Qcdiv. by rewrite Qcmult_0_l.
Qed.

Lemma calculateNameSimilarity_zero_iff_witness :
calculateNameSimilarity (str "abc") (str "xyz") = num_zero ↔
∀ c, c ∈ str "abc" → c ∉ str "xyz".
Proof.
apply (calculateNameSimilarity_zero_iff (str "abc") (str "xyz")).
by left.
Defined.

(** * The source tree scanner *)

(** ** The walk of the tree *)

Lemma fs_node_nested_ind (P : fs_node → Prop) :
P FsFile → P FsBroken → P (FsDir None) →
(∀ items, Forall (λ e, P e.2) items → P (FsDir (Some items))) →
∀ node, P node.
Proof.
intros HF HB HN HD. fix IH 1. intros [|[items|]|]; [done | | done..].
apply HD. revert items. fix IHitems 1.
intros [|[name child] items]; constructor; [apply IH | apply IHitems].
Qed.

Section getAllFiles_props.
Variable path_join : jsstring → jsstring → jsstring.
Variable extensions : list jsstring.

Local Abbreviation walk := (getAllFiles path_join extensions).

Lemma getAllFiles_cons dir item child rest :
walk dir (FsDir (Some ((item, child) :: rest)))
  = match child with
    | FsBroken => []
    | FsDir _ =>
        walk (path_join dir item) child ++ walk dir (FsDir (Some rest))
    | FsFile =>
        (if has_extension extensions item then [path_join dir item] else [])
          ++ walk dir (FsDir (Some rest))
    end.
Proof. by destruct child. Qed.

Lemma fs_reaches_weaken dir items items' path name :
items ⊆ items' →
fs_reaches path_join dir (FsDir (Some items)) path name →
fs_reaches path_join dir (FsDir (Some items')) path name.
Proof.
intros Hsub Hr. inversion Hr; subst.
- apply fs_reaches_file. by apply Hsub.
- eapply fs_reaches_dir; [by apply Hsub | done].
Qed.

Lemma getAllFiles_sound_items dir items path :
Forall (λ e, ∀ dir path, path ∈ walk dir e.2 →
               ∃ name, fs_reaches path_join dir e.2 path name ∧
                       has_extension extensions name = true) items →
path ∈ walk dir (FsDir (Some items)) →
∃ name, fs_reaches path_join dir (FsDir (Some items)) path name ∧
        has_extension extensions name = true.
Proof.
induction 1 as [|[item child] rest Hchild Hrest IH]; intros Hin.
{ by apply elem_of_nil in Hin. }
rewrite getAllFiles_cons in Hin. simpl in Hchild.
assert (path ∈ walk dir (FsDir (Some rest)) →
        ∃ name,
          fs_reaches path_join dir (FsDir (Some ((item, child) :: rest)))
            path name ∧ has_extension extensions name = true) as Hlater.
{ intros (name & Hr & Hext)%IH. exists name. split; [|done].
  eapply fs_reaches_weaken; [|done]. set_solver. }
destruct child as [|sub|].
- apply elem_of_app in Hin as [Hin | Hin]; [|by apply Hlater].
  destruct (has_extension extensions item) eqn:Hext;
    [|by apply elem_of_nil in Hin].
  apply list_elem_of_singleton in Hin as ->.
  exists item. split; [|done]. apply fs_reaches_file. left.
- apply elem_of_app in Hin as [Hin | Hin]; [|by apply Hlater].
  apply Hchild in Hin as (name & Hr & Hext).
  exists name. split; [|done].
  eapply fs_reaches_dir; [left | done].
- by apply elem_of_nil in Hin.
Qed.

Lemma getAllFiles_sound node dir path :
path ∈ walk dir node →
∃ name, fs_reaches path_join dir node path name ∧
        has_extension extensions name = true.
Proof.
revert dir path. induction node as [| | |items IH] using fs_node_nested_ind;
  intros dir path Hin; try by apply elem_of_nil in Hin.
by apply getAllFiles_sound_items.
Qed.

Lemma fs_stat_ok_cons item child rest :
fs_stat_ok (FsDir (Some ((item, child) :: rest)))
  ↔ fs_stat_ok child ∧ fs_stat_ok (FsDir (Some rest)).
Proof. done. Qed.

Lemma fs_stat_ok_elem items item child :
fs_stat_ok (FsDir (Some items)) → (item, child) ∈ items → fs_stat_ok child.
Proof.
induction items as [|[item' child'] rest IH]; intros Hok Hin.
{ by apply elem_of_nil in Hin. }
apply fs_stat_ok_cons in Hok as [Hchild Hrest].
apply elem_of_cons in Hin as [[= -> ->] | Hin]; [done | by apply IH].
Qed.

(** Without a throwing [statSync], what an entry contributes is part of
    the walk of its directory. *)
Lemma getAllFiles_entry dir items item child path :
fs_stat_ok (FsDir (Some items)) → (item, child) ∈ items →
path ∈ match child with
       | FsBroken => []
       | FsDir _ => walk (path_join dir item) child
       | FsFile =>
           if has_extension extensions item then [path_join dir item] else []
       end →
path ∈ walk dir (FsDir (Some items)).
Proof.
induction items as [|[item' child'] rest IH]; intros Hok Hin Hpath.
{ by apply elem_of_nil in Hin. }
apply fs_stat_ok_cons in Hok as [Hchild Hrest].
rewrite getAllFiles_cons.
apply elem_of_cons in Hin as [[= <- <-] | Hin].
- destruct child; [| |done]; apply elem_of_app; by left.
- destruct child'; [| |done]; apply elem_of_app; right; by apply IH.
Qed.

Lemma getAllFiles_complete node dir path name :
fs_reaches path_join dir node path name →
has_extension extensions name = true →
fs_stat_ok node →
path ∈ walk dir node.
Proof.
induction 1 as [dir items name Hin|dir items item sub path name Hin Hr IH];
  intros Hext Hok.
- eapply getAllFiles_entry; [done.. |]. rewrite Hext. left.
- eapply getAllFiles_entry; [done..|]. apply IH; [done|].
  by eapply fs_stat_ok_elem.
Qed.

(** Provided no [statSync] throws, the walk finds every regular file
    that lies below the directory through listable directories and whose
    name ends with one of the extensions. *)
Theorem getAllFiles_finds_every_file (node : fs_node)
  (dir path name : jsstring) :
fs_stat_ok node →
fs_reaches path_join dir node path name →
Exists (λ ext, ext `suffix_of` name) extensions →
path ∈ getAllFiles path_join extensions dir node.
Proof.
intros Hok Hr Hext. eapply getAllFiles_complete; [done | | done].
by apply bool_decide_eq_true.
Qed.

(** Whatever the tree, a listed path is a regular file with one of the
    extensions. *)
Theorem getAllFiles_only_matching_files (node : fs_node)
  (dir path : jsstring) :
path ∈ getAllFiles path_join extensions dir node →
∃ name, fs_reaches path_join dir node path name ∧
        Exists (λ ext, ext `suffix_of` name) extensions.
Proof.
intros (name & Hr & Hext)%getAllFiles_sound. exists name. split; [done|].
by apply bool_decide_eq_true in Hext.
Qed.

(** A name on which [statSync] throws ends the walk of its directory:
    the entries after it are not visited, those before it are kept. *)
Theorem getAllFiles_stat_failure (dir item : jsstring)
  (before after : list (jsstring * fs_node)) :
getAllFiles path_join extensions dir
  (FsDir (Some (before ++ (item, FsBroken) :: after)))
  = getAllFiles path_join extensions dir (FsDir (Some before)).
Proof.
induction before as [|[item' child'] rest IH].
- done.
- change (((item', child') :: rest) ++ (item, FsBroken) :: after)
    with ((item', child') :: (rest ++ (item, FsBroken) :: after)).
  rewrite !getAllFiles_cons, IH. done.
Qed.

(** A directory that cannot be listed is skipped and the walk goes on
    with its siblings. *)
Theorem getAllFiles_unlistable (dir item : jsstring)
  (before after : list (jsstring * fs_node)) :
getAllFiles path_join extensions dir
  (FsDir (Some (before ++ (item, FsDir None) :: after)))
  = getAllFiles path_join extensions dir (FsDir (Some (before ++ after))).
Proof.
induction before as [|[item' child'] rest IH].
- simpl app. by rewrite getAllFiles_cons.
- change (((item', child') :: rest) ++ ?l)
    with ((item', child') :: (rest ++ l)).
  rewrite !getAllFiles_cons, IH. done.
Qed.
End getAllFiles_props.

Lemma getAllFiles_only_matching_files_witness :
∃ name,
  fs_reaches example_join (str "src") example_tree
    (str "src/widgets/Card.tsx") name ∧
  Exists (λ ext, ext `suffix_of` name) (getFileExtensions (str "react")).
Proof.
apply (getAllFiles_only_matching_files example_join
         (getFileExtensions (str "react")) example_tree (str "src")
         (str "src/widgets/Card.tsx")).
by apply (list_elem_of_lookup_2 _ 1).
Defined.

Lemma getAllFiles_finds_every_file_witness :
str "src/widgets/Card.tsx"
  ∈ getAllFiles example_join (getFileExtensions (str "react")) (str "src")
      (FsDir (Some
         [(str "Button.tsx", FsFile);
          (str "widgets", FsDir (Some [(str "Card.tsx", FsFile)]))])).
Proof.
apply (getAllFiles_finds_every_file example_join
         (getFileExtensions (str "react")) _ (str "src") _ (str "Card.tsx")).
- done.
- eapply fs_reaches_dir; [by apply (list_elem_of_lookup_2 _ 1)|].
  apply (fs_reaches_file example_join (example_join (str "src") (str "widgets"))
           [(str "Card.tsx", FsFile)] (str "Card.tsx")).
  left.
- apply Exists_cons_tl, Exists_cons_hd. by exists (str "Card").
Defined.

Example example_walk :
getAllFiles example_join (getFileExtensions (str "react")) (str "src")
  example_tree
  = [str "src/Button.tsx"; str "src/widgets/Card.tsx"].
Proof. by vm_compute. Qed.

(** ** Extensions *)

Lemma getAllFiles_ext path_join extensions1 extensions2 node dir :
(∀ item, has_extension extensions1 item = has_extension extensions2 item) →
getAllFiles path_join extensions1 dir node
  = getAllFiles path_join extensions2 dir node.
Proof.
intros Hext. revert dir.
induction node as [| | |items IH] using fs_node_nested_ind; intros dir;
  try done.
induction IH as [|[item child] rest Hchild Hrest IHrest]; [done|].
rewrite !getAllFiles_cons. simpl in Hchild.
destruct child; [| |done].
- by rewrite Hext, IHrest.
- by rewrite Hchild, IHrest.
Qed.

(** For angular the extension [.component.ts] adds nothing to [.ts]: the
    scanner lists exactly the files it would list for [.ts] alone. *)
Theorem getAllFiles_angular path_join (node : fs_node) (dir : jsstring) :
getAllFiles path_join (getFileExtensions (str "angular")) dir node
  = getAllFiles path_join [str ".ts"] dir node.
Proof.
apply getAllFiles_ext. intros item. unfold has_extension.
apply bool_decide_ext.
change (getFileExtensions (str "angular"))
  with [str ".component.ts"; str ".ts"].
rewrite !Exists_cons, Exists_nil. split; [|tauto].
intros [Hc | [Hts | []]]; [|by left]. left.
etrans; [|done]. by exists (str ".component").
Qed.

(** ** The scan of a directory *)

Section scan_props.
Variable path_join : jsstring → jsstring → jsstring.
Variable path_basename : jsstring → jsstring → jsstring.
Variable path_extname : jsstring → jsstring.
Variable readFileSync : jsstring → option jsstring.

Local Abbreviation scan :=
  (scanCodeComponents path_join path_basename path_extname readFileSync).
Local Abbreviation pushed :=
  (component_of path_basename path_extname readFileSync).

Lemma scan_file_component framework components file :
scan_file path_basename path_extname readFileSync framework components file
  = components ++ option_list (pushed framework file).
Proof.
unfold scan_file, component_of.
destruct (readFileSync file) as [content|]; simpl; [|by rewrite app_nil_r].
destruct (extractComponentInfo _ _ _ _ _) as [[c|]|]; simpl;
  by rewrite ?app_nil_r.
Qed.

Lemma foldl_scan_file framework components files :
foldl (scan_file path_basename path_extname readFileSync framework)
  components files
  = components ++ omap (pushed framework) files.
Proof.
revert components. induction files as [|file files IH]; intros components.
- by rewrite app_nil_r.
- simpl foldl. rewrite IH, scan_file_component, <-(assoc_L (++)).
  f_equal. simpl. by destruct (pushed framework file).
Qed.

Lemma component_of_Some framework file c :
pushed framework file = Some c ↔
∃ content pattern exports,
  readFileSync file = Some content ∧
  patterns framework = Some pattern ∧
  regex_test pattern content = true ∧
  extractExports content framework = Some exports ∧
  c = {| cc_name := path_basename file (path_extname file);
         cc_path := file;
         cc_framework := framework;
         cc_size := length content;
         cc_exports := exports;
         cc_props := extractProps content framework |}.
Proof.
unfold component_of, extractComponentInfo. split.
- destruct (readFileSync file) as [content|] eqn:Hread; simpl; [|done].
  destruct (patterns framework) as [pattern|] eqn:Hpat; simpl; [|done].
  destruct (regex_test pattern content) eqn:Htest; simpl; [|done].
  destruct (extractExports content framework) as [exports|] eqn:Hexp;
    simpl; [|done].
  intros [= <-]. by exists content, pattern, exports.
- intros (content & pattern & exports & Hread & Hpat & Htest & Hexp & ->).
  rewrite Hread. simpl. rewrite Hpat. simpl. rewrite Htest. simpl.
  by rewrite Hexp.
Qed.

(** The scan yields a record exactly for the listed files that can be
    read and whose content the pattern of the framework matches; the
    record carries the path, the framework, the length of the content
    and what the extractor finds in it. *)
Theorem scanCodeComponents_spec (directory framework : jsstring)
  (node : fs_node) (c : CodeComponent) :
c ∈ scan directory (Some node) framework ↔
∃ content pattern exports,
  cc_path c
    ∈ getAllFiles path_join (getFileExtensions framework) directory node ∧
  readFileSync (cc_path c) = Some content ∧
  patterns framework = Some pattern ∧
  regex_test pattern content = true ∧
  extractExports content framework = Some exports ∧
  c = {| cc_name := path_basename (cc_path c) (path_extname (cc_path c));
         cc_path := cc_path c;
         cc_framework := framework;
         cc_size := length content;
         cc_exports := exports;
         cc_props := extractProps content framework |}.
Proof.
unfold scanCodeComponents. rewrite foldl_scan_file. simpl.
rewrite list_elem_of_omap. split.
- intros (file & Hfile & Hc).
  apply component_of_Some in Hc
    as (content & pattern & exports & Hread & Hpat & Htest & Hexp & ->).
  exists content, pattern, exports. by simpl.
- intros (content & pattern & exports & Hfile & Hread & Hpat & Htest
          & Hexp & Hc).
  exists (cc_path c). split; [done|].
  apply component_of_Some. by exists content, pattern, exports.
Qed.

(** The records follow the order of the listed files, at most one record
    for each listed path. *)
Theorem scanCodeComponents_paths (directory framework : jsstring)
  (node : fs_node) :
cc_path <$> scan directory (Some node) framework
  `sublist_of`
  getAllFiles path_join (getFileExtensions framework) directory node.
Proof.
unfold scanCodeComponents. rewrite foldl_scan_file. simpl.
induction (getAllFiles _ _ _ _) as [|file files IH]; [done|]. simpl.
destruct (pushed framework file) as [c|] eqn:Hc.
- apply component_of_Some in Hc as (? & ? & ? & _ & _ & _ & _ & ->).
  simpl. by apply sublist_skip.
- by apply sublist_cons.
Qed.

(** A framework outside the five names has the extensions of the
    fallback but no detection pattern: the scan finds no component,
    whatever the tree holds. *)
Theorem scanCodeComponents_unknown_framework (directory framework : jsstring)
  (root : option fs_node) :
framework ∉ [str "react"; str "vue"; str "angular"; str "svelte";
             str "vanilla"] →
scan directory root framework = [].
Proof.
intros Hfw. destruct root as [node|]; [|done].
unfold scanCodeComponents. rewrite foldl_scan_file. simpl.
assert (patterns framework = None) as Hpat.
{ unfold patterns. rewrite !not_elem_of_cons in Hfw.
  destruct Hfw as (? & ? & ? & ? & ? & _).
  by rewrite !bool_decide_eq_false_2. }
induction (getAllFiles _ _ _ _) as [|file files IH]; [done|]. simpl.
destruct (pushed framework file) as [c|] eqn:Hc; [|done].
apply component_of_Some in Hc as (? & ? & ? & _ & ? & _). congruence.
Qed.
End scan_props.

Lemma scanCodeComponents_unknown_framework_witness :
scanCodeComponents example_join (λ p _, p) (λ _, [])
  (λ _, Some (str "export function Button() {}"))
  (str "src") (Some example_tree) (str "solid") = [].
Proof.
apply (scanCodeComponents_unknown_framework example_join (λ p _, p)
         (λ _, []) (λ _, Some (str "export function Button() {}"))
         (str "src") (str "solid") (Some example_tree)).
rewrite !not_elem_of_cons.
split_and!; by first [apply not_elem_of_nil | vm_compute].
Defined.

(** ** Exported identifiers *)

Lemma lang_star_class_inv p w :
lang (Star (Class p)) w → Forall (λ c, p c = true) w.
Proof.
intros (ws & -> & Hws).
induction Hws as [|w ws (c & -> & Hc) Hws IH]; [done|].
simpl. by constructor.
Qed.

Lemma lang_plus_class_inv p w :
lang (Plus (Class p)) w → w ≠ [] ∧ Forall (λ c, p c = true) w.
Proof.
intros (w1 & w2 & -> & (c & -> & Hc) & Hw2%lang_star_class_inv).
split; [done | by constructor].
Qed.

Lemma rmatch_Seq r1 r2 s caps k :
rmatch (Seq r1 r2) s caps k
  = rmatch r1 s caps (λ s' caps', rmatch r2 s' caps' k).
Proof. done. Qed.

(** A match of the export pattern ends with the captured identifier. *)
Lemma exportRegex_capture s rest caps :
match_at exportRegex s = Some (rest, caps) →
∃ w g, s = w ++ g ++ rest ∧ caps !! 1 = Some g ∧
       g ≠ [] ∧ Forall (λ c, is_word c = true) g.
Proof.
unfold match_at.
change exportRegex
  with (Seq (lit "export")
          (Seq (Plus (Class is_space))
             (Seq (Opt (seqs [lit "default"; Plus (Class is_space)]))
                (Seq (Alt (lit "function") (Alt (lit "const") (lit "class")))
                   (Seq (Plus (Class is_space))
                      (Seq (Group 1 (Plus (Class is_word))) Empty)))))).
intros H.
rewrite rmatch_Seq in H.
apply rmatch_sound in H as (w1 & s1 & c1 & -> & _ & H).
rewrite rmatch_Seq in H.
apply rmatch_sound in H as (w2 & s2 & c2 & -> & _ & H).
rewrite rmatch_Seq in H.
apply rmatch_sound in H as (w3 & s3 & c3 & -> & _ & H).
rewrite rmatch_Seq in H.
apply rmatch_sound in H as (w4 & s4 & c4 & -> & _ & H).
rewrite rmatch_Seq in H.
apply rmatch_sound in H as (w5 & s5 & c5 & -> & _ & H).
change (rmatch (Seq (Group 1 ?r) Empty) ?s ?c ?k)
  with (rmatch r s c
          (λ s' caps', k s' (<[1 := take (length s - length s') s]> caps')))
  in H.
apply rmatch_sound in H as (g & s' & c' & -> & Hg & [= <- <-]).
apply lang_plus_class_inv in Hg as [Hne Hword].
exists (w1 ++ w2 ++ w3 ++ w4 ++ w5), g.
rewrite take_consumed, lookup_insert_eq.
split_and!; [by rewrite <-!(assoc_L (++)) | done..].
Qed.

Lemma search_Some_match r s i j rest caps :
search r s i = Some (j, rest, caps) →
∃ pre s', s = pre ++ s' ∧ match_at r s' = Some (rest, caps).
Proof.
revert i. induction s as [|x s IH]; intros i; simpl.
- destruct (match_at r []) as [[rest' caps']|] eqn:Hm; [|done].
  intros [= <- <- <-]. by exists [], [].
- destruct (match_at r (x :: s)) as [[rest' caps']|] eqn:Hm.
  + intros [= <- <- <-]. by exists [], (x :: s).
  + intros (pre & s' & -> & Hs')%IH. by exists (x :: pre), s'.
Qed.

Lemma regex_exec_match r content lastIndex m :
regex_exec r content lastIndex = Some m →
∃ pre s' rest,
  content = pre ++ s' ∧ match_at r s' = Some (rest, mr_groups m).
Proof.
unfold regex_exec. case_bool_decide; [done|].
destruct (search r (drop lastIndex content) lastIndex)
  as [[[j rest] caps]|] eqn:Hs; [|done].
intros [= <-]. simpl.
apply search_Some_match in Hs as (pre & s' & Hdrop & Hm).
exists (take lastIndex content ++ pre), s', rest. split; [|done].
by rewrite <-(assoc_L (++)), <-Hdrop, take_drop.
Qed.

Lemma exports_loop_identifiers content fuel lastIndex exports result :
exports_loop fuel content lastIndex exports = Some result →
∃ more, result = exports ++ more ∧
  Forall (λ e, e ≠ [] ∧ Forall (λ c, is_word c = true) e ∧
               contains e content) more.
Proof.
revert lastIndex exports.
induction fuel as [|fuel IH]; intros lastIndex exports; simpl; [done|].
destruct (regex_exec exportRegex content lastIndex) as [m|] eqn:Hm.
- intros (more & -> & Hmore)%IH.
  apply regex_exec_match in Hm as (pre & s' & rest & -> & Hm).
  apply exportRegex_capture in Hm as (w & g & -> & Hg & Hne & Hword).
  rewrite Hg. simpl.
  exists (g :: more). rewrite <-(assoc_L (++)). split; [done|].
  constructor; [|done]. split_and!; [done..|].
  exists (pre ++ w), rest. by rewrite <-!(assoc_L (++)).
- intros [= <-]. exists []. by rewrite app_nil_r.
Qed.

(** Whatever the content, the export loop ends, and every name it
    returns is a non-empty run of word characters that occurs in the
    content. *)
Theorem extractExports_identifiers (content framework : jsstring) :
∃ exports,
  extractExports content framework = Some exports ∧
  Forall (λ e, e ≠ [] ∧ Forall (λ c, is_word c = true) e ∧
               contains e content) exports.
Proof.
destruct (extractExports_total content framework) as [exports Hexp].
exists exports. split; [done|].
apply exports_loop_identifiers in Hexp as (more & -> & Hmore). done.
Qed.

(** ** An exported declaration *)

Lemma rmatch_Alt r1 r2 s caps k :
rmatch (Alt r1 r2) s caps k
  = match rmatch r1 s caps k with
    | Some res => Some res
    | None => rmatch r2 s caps k
    end.
Proof. done. Qed.

Lemma word_not_space c : is_word c = true → is_space c = false.
Proof.
intros Hw. destruct (is_space c) eqn:Hs; [|done].
apply space_not_word in Hs. congruence.
Qed.

Section export_declaration.
Variables ws1 mid kw ws2 name rest : jsstring.
Hypothesis ws1_nonempty : ws1 ≠ [].
Hypothesis ws1_space : Forall (λ c, is_space c = true) ws1.
Hypothesis mid_default :
  mid = [] ∨
  ∃ ws, mid = str "default" ++ ws ∧ ws ≠ [] ∧
        Forall (λ c, is_space c = true) ws.
Hypothesis kw_keyword :
  kw = str "function" ∨ kw = str "const" ∨ kw = str "class".
Hypothesis ws2_nonempty : ws2 ≠ [].
Hypothesis ws2_space : Forall (λ c, is_space c = true) ws2.
Hypothesis name_nonempty : name ≠ [].
Hypothesis name_word : Forall (λ c, is_word c = true) name.
Hypothesis rest_stops : stops is_word rest.

Local Abbreviation done_k :=
  (λ (s' : jsstring) (caps : captures), Some (s', caps)).
Local Abbreviation from_keyword :=
  [Alt (lit "function") (Alt (lit "const") (lit "class"));
   Plus (Class is_space); Group 1 (Plus (Class is_word))].

Lemma export_name caps :
rmatch (seqs [Plus (Class is_space); Group 1 (Plus (Class is_word))])
  (ws2 ++ name ++ rest) caps done_k
  = Some (rest, <[1 := name]> caps).
Proof using ws2_nonempty ws2_space name_nonempty name_word rest_stops.
rewrite rmatch_seqs_cons.
destruct ws2_space as [|c l Hc Hl]; [done|].
destruct name_word as [|x name' Hx Hname']; [done|].
change ((c :: l) ++ ?t) with (c :: l ++ t).
rewrite rmatch_plus_class; [|done..|by apply word_not_space].
apply greedy_try_longest.
rewrite rmatch_seqs_cons.
change (rmatch (Group 1 ?r) ?s ?c ?k)
  with (rmatch r s c
          (λ s' caps', k s' (<[1 := take (length s - length s') s]> caps'))).
change ((x :: name') ++ rest) with (x :: name' ++ rest).
rewrite rmatch_plus_class; [|done..].
apply greedy_try_longest.
change (x :: name' ++ rest) with ((x :: name') ++ rest).
by rewrite take_consumed.
Qed.

Lemma export_keyword caps :
rmatch (seqs from_keyword) (kw ++ ws2 ++ name ++ rest) caps done_k
  = Some (rest, <[1 := name]> caps).
Proof using ws2_nonempty ws2_space name_nonempty name_word rest_stops
  kw_keyword.
rewrite rmatch_seqs_cons, !rmatch_Alt.
destruct kw_keyword as [-> | [-> | ->]].
- by rewrite rmatch_lit, export_name.
- change (lit "function")
    with (seqs (Char 102%N :: (Char <$> str "unction"))).
  change (str "const" ++ ?t) with (99%N :: str "onst" ++ t).
  rewrite rmatch_char_mismatch by done.
  change (99%N :: str "onst" ++ ?t) with (str "const" ++ t).
  by rewrite rmatch_lit, export_name.
- change (lit "function")
    with (seqs (Char 102%N :: (Char <$> str "unction"))).
  change (str "class" ++ ?t) with (99%N :: str "lass" ++ t).
  rewrite rmatch_char_mismatch by done.
  assert (∀ t k, rmatch (lit "const") (99%N :: str "lass" ++ t) caps k = None)
    as -> by done.
  change (99%N :: str "lass" ++ ?t) with (str "class" ++ t).
  by rewrite rmatch_lit, export_name.
Qed.

Lemma kw_stops : stops is_space (kw ++ ws2 ++ name ++ rest).
Proof using kw_keyword. by destruct kw_keyword as [-> | [-> | ->]]. Qed.

Lemma export_default caps :
rmatch (seqs (Opt (seqs [lit "default"; Plus (Class is_space)])
              :: from_keyword))
  (mid ++ kw ++ ws2 ++ name ++ rest) caps done_k
  = Some (rest, <[1 := name]> caps).
Proof using ws2_nonempty ws2_space name_nonempty name_word rest_stops
  kw_keyword mid_default.
rewrite rmatch_seqs_cons. unfold Opt. rewrite rmatch_Alt.
destruct mid_default as [-> | (ws & -> & Hne & Hws)].
- assert (rmatch (seqs [lit "default"; Plus (Class is_space)])
            ([] ++ kw ++ ws2 ++ name ++ rest) caps
            (λ s' caps', rmatch (seqs from_keyword) s' caps' done_k) = None)
    as ->.
  { change (seqs [lit "default"; Plus (Class is_space)])
      with (Seq (lit "default") (seqs [Plus (Class is_space)])).
    rewrite rmatch_Seq.
    change (lit "default")
      with (seqs (Char 100%N :: (Char <$> str "efault"))).
    destruct kw_keyword as [-> | [-> | ->]];
      by apply rmatch_char_mismatch. }
  apply export_keyword.
- rewrite <-(assoc_L (++) (str "default")).
  rewrite rmatch_seqs_cons, rmatch_lit, rmatch_seqs_cons.
  destruct Hws as [|c l Hc Hl]; [done|].
  change ((c :: l) ++ ?t) with (c :: l ++ t).
  rewrite rmatch_plus_class; [|done..|apply kw_stops].
  rewrite (greedy_try_longest _ _ _ _ (rest, <[1 := name]> caps)); [done|].
  apply export_keyword.
Qed.

Lemma mid_stops : stops is_space (mid ++ kw ++ ws2 ++ name ++ rest).
Proof using kw_keyword mid_default.
destruct mid_default as [-> | (ws & -> & _)]; [apply kw_stops | done].
Qed.

Lemma exportRegex_declaration :
match_at exportRegex
  (str "export" ++ ws1 ++ mid ++ kw ++ ws2 ++ name ++ rest)
  = Some (rest, <[1 := name]> ∅).
Proof using All.
unfold match_at.
change exportRegex
  with (seqs (lit "export" :: Plus (Class is_space)
              :: Opt (seqs [lit "default"; Plus (Class is_space)])
              :: from_keyword)).
rewrite rmatch_seqs_cons, rmatch_lit, rmatch_seqs_cons.
destruct ws1_space as [|c l Hc Hl]; [done|].
change ((c :: l) ++ ?t) with (c :: l ++ t).
rewrite rmatch_plus_class; [|done..|apply mid_stops].
apply greedy_try_longest, export_default.
Qed.
End export_declaration.

Lemma exports_loop_prefix content fuel lastIndex exports result :
exports_loop fuel content lastIndex exports = Some result →
∃ more, result = exports ++ more.
Proof.
intros (more & -> & _)%exports_loop_identifiers. by exists more.
Qed.

(** The first declaration [export [default] function|const|class Name]
    of a file gives the first entry of the exports: with no match of
    the export pattern starting before it, [extractExports] returns
    [Name] followed by the names found after the declaration. *)
Theorem extractExports_first_declaration
  (pre ws1 mid kw ws2 name rest framework : jsstring) :
let content :=
  pre ++ str "export" ++ ws1 ++ mid ++ kw ++ ws2 ++ name ++ rest in
ws1 ≠ [] → Forall (λ c, is_space c = true) ws1 →
(mid = [] ∨
 ∃ ws, mid = str "default" ++ ws ∧ ws ≠ [] ∧
       Forall (λ c, is_space c = true) ws) →
kw = str "function" ∨ kw = str "const" ∨ kw = str "class" →
ws2 ≠ [] → Forall (λ c, is_space c = true) ws2 →
name ≠ [] → Forall (λ c, is_word c = true) name →
stops is_word rest →
(∀ j, j < length pre → match_at exportRegex (drop j content) = None) →
∃ more, extractExports content framework = Some (name :: more).
Proof.
intros content Hws1 Hws1' Hmid Hkw Hws2 Hws2' Hname Hname' Hrest Hfirst.
destruct (extractExports_total content framework) as [exports Hexp].
exists (tail exports). rewrite Hexp. f_equal.
unfold extractExports in Hexp.
replace (length content + 1) with (S (length content)) in Hexp by lia.
simpl in Hexp. rewrite regex_exec_0 in Hexp.
assert (search exportRegex content 0
        = Some (0 + length pre, rest, <[1 := name]> ∅)) as Hs.
{ apply search_first; [done | by apply exportRegex_declaration]. }
rewrite Hs in Hexp. simpl in Hexp. rewrite lookup_insert_eq in Hexp.
simpl in Hexp.
by apply exports_loop_prefix in Hexp as (more & ->).
Qed.

Lemma extractExports_first_declaration_witness :
∃ more,
  extractExports
    (str "import x; " ++ str "export" ++ str " " ++ str "default "
       ++ str "class" ++ str " " ++ str "Widget"
       ++ str " extends Base {}")
    (str "react")
  = Some (str "Widget" :: more).
Proof.
apply (extractExports_first_declaration (str "import x; ") (str " ")
         (str "default ") (str "class") (str " ") (str "Widget")
         (str " extends Base {}") (str "react")).
- done.
- by repeat apply Forall_cons_2.
- right. exists (str " "). split_and!; [done.. |].
  by repeat apply Forall_cons_2.
- by right; right.
- done.
- by repeat apply Forall_cons_2.
- done.
- by repeat apply Forall_cons_2.
- done.
- intros j Hj. do 10 (destruct j as [|j]; [by vm_compute|]).
  simpl in Hj. lia.
Defined.

(** * Suggestions and recommendations *)

Lemma generateMappingSuggestions_nil M :
generateMappingSuggestions M = [] ↔
exact_matches M = [] ∧ similar_matches M = [] ∧
missing_in_code M = [] ∧ missing_in_figma M = [].
Proof.
unfold generateMappingSuggestions.
destruct (exact_matches M), (similar_matches M), (missing_in_code M),
  (missing_in_figma M); simpl; split; try done;
  try (by intros (? & ? & ? & ?)).
Qed.

(** The reconciliation gives rise to no suggestion exactly when there
    is neither a design component nor a code component; otherwise there
    are between one and four of them. *)
Theorem generateMappingSuggestions_empty_iff toLowerCase
  (figmaComponents : list (jsstring * FigmaComponent))
  (codeComponents : list CodeComponent) (includeProps : bool) :
let suggestions :=
  generateMappingSuggestions
    (createComponentMappings toLowerCase figmaComponents codeComponents
       includeProps) in
(suggestions = [] ↔ figmaComponents = [] ∧ codeComponents = []) ∧
length suggestions ≤ 4.
Proof.
split.
- rewrite generateMappingSuggestions_nil. split.
  + intros (H1 & H2 & H3 & H4).
    destruct (foldl_classify_ids toLowerCase codeComponents
                (mkMappings [] [] [] []) figmaComponents)
      as (l1 & l2 & l3 & E1 & E2 & E3 & _ & _ & _ & Hp).
    unfold createComponentMappings in H1, H2, H3, H4. simpl in *.
    rewrite H1 in E1. rewrite H2 in E2. rewrite H3 in E3.
    simpl in *. subst l1 l2 l3.
    apply Permutation_nil_l in Hp. symmetry in Hp.
    apply fmap_nil_inv in Hp. subst.
    split; [done|]. simpl in H4.
    destruct codeComponents as [|cc ccs]; [done|].
    rewrite filter_cons_True in H4 by set_solver. done.
  + intros [-> ->]. done.
- unfold generateMappingSuggestions.
  repeat case_bool_decide; rewrite ?length_app; simpl; lia.
Qed.

(** In an assembled report the advice follows the number of issues of
    the enabled sub-analyses: the advice to refactor from four issues on
    (a score below 70), the advice to address the issues from one issue
    on, and in every case the advice to sync, last. *)
Theorem recommendations_by_issue_count
  (componentsAnalysis stylesAnalysis : Analysis)
  (check_styles check_components : bool) :
let n :=
  length (if check_components then an_issues componentsAnalysis else []) +
  length (if check_styles then an_issues stylesAnalysis else []) in
recommendations
  (analyzeDesignCodeConsistency componentsAnalysis stylesAnalysis
     check_styles check_components)
= (if bool_decide (4 ≤ n) then
     [str "Consider refactoring components to match Figma designs more closely"]
   else []) ++
  (if bool_decide (1 ≤ n) then
     [str "Address the identified consistency issues to improve design-code alignment"]
   else []) ++
  [str "Regularly sync design changes with code implementations"].
Proof.
intros n. unfold analyzeDesignCodeConsistency.
set (l := (if check_styles
           then (if check_components
                 then [] ++ an_issues componentsAnalysis else [])
                ++ an_issues stylesAnalysis
           else if check_components
                then [] ++ an_issues componentsAnalysis else [])).
assert (length l = n) as Hn.
{ unfold l, n. destruct check_components, check_styles; simpl;
    rewrite ?length_app; simpl; lia. }
unfold generateConsistencyRecommendations, calculateConsistencyScore.
simpl. rewrite Hn.
repeat case_bool_decide; try done; lia.
Qed.

(** With the placeholder sub-analyses that the repository ships, the
    consistency report is the same for every choice of flags: score 100,
    no issue, and the advice to sync alone. *)
Lemma analyzeDesignCodeConsistency_placeholder
  (check_styles check_components : bool) :
analyzeDesignCodeConsistency checkComponentConsistency_stub
  checkStyleConsistency_stub check_styles check_components
= {| consistency_score := 100;
     issues := Some [];
     recommendations :=
       [str "Regularly sync design changes with code implementations"] |}.
Proof. by destruct check_styles, check_components. Qed.

(** * URL and id utilities *)

(** ** Validators *)

Lemma test_anchored_lang r input :
test_anchored r input = true ↔ lang r input.
Proof.
unfold test_anchored. rewrite bool_decide_eq_true. split.
- intros [res Hres].
  apply rmatch_sound in Hres as (w & s' & caps' & -> & Hw & Hk).
  case_bool_decide as Hs'; [|done]. subst s'. by rewrite app_nil_r.
- intros Hw. rewrite <-(app_nil_r input).
  apply rmatch_complete; [done|]. intros caps'.
  by rewrite bool_decide_eq_true_2.
Qed.

Lemma lang_repeat_upto p n w :
lang (repeat_upto n (Class p)) w
  ↔ Forall (λ c, p c = true) w ∧ length w ≤ n.
Proof.
revert w. induction n as [|n IH]; intros w; simpl.
- split; [by intros -> | intros [_ Hlen]].
  destruct w; [done | simpl in Hlen; lia].
- split.
  + intros [(w1 & w2 & -> & (c & -> & Hc) & [Hw2 Hlen]%IH) | ->].
    * split; [by constructor | simpl; lia].
    * split; [done | simpl; lia].
  + intros [Hw Hlen]. destruct w as [|c w]; [by right | left].
    apply Forall_cons in Hw as [Hc Hw].
    exists [c], w. split_and!; [done | by exists c |].
    apply IH. split; [done | simpl in Hlen; lia].
Qed.

Lemma lang_replicate_class p m r w :
lang (seqs (replicate m (Class p) ++ [r])) w
  ↔ ∃ w1 w2, w = w1 ++ w2 ∧ Forall (λ c, p c = true) w1 ∧
             length w1 = m ∧ lang r w2.
Proof.
revert w. induction m as [|m IH]; intros w; simpl.
- split.
  + intros (w1 & w2 & -> & Hw1 & ->). exists [], w1.
    by rewrite app_nil_r.
  + intros (w1 & w2 & -> & _ & Hlen & Hw2).
    destruct w1; [|done]. exists w2, []. by rewrite app_nil_r.
- split.
  + intros (w1 & w2 & -> & (c & -> & Hc) & Hw2).
    apply IH in Hw2 as (v1 & v2 & -> & Hv1 & Hlen & Hv2).
    exists (c :: v1), v2. split_and!; [done | by constructor | | done].
    simpl. lia.
  + intros (w1 & w2 & -> & Hw1 & Hlen & Hw2).
    destruct w1 as [|c w1]; [done|].
    apply Forall_cons in Hw1 as [Hc Hw1].
    exists [c], (w1 ++ w2). split_and!; [done | by exists c |].
    apply IH. exists w1, w2. split_and!; [done.. | | done].
    simpl in Hlen. lia.
Qed.

Lemma lang_Repeat_class p min max w :
min ≤ max →
(lang (Repeat min max (Class p)) w
   ↔ Forall (λ c, p c = true) w ∧ min ≤ length w ≤ max).
Proof.
intros Hmm. unfold Repeat. rewrite lang_replicate_class. split.
- intros (w1 & w2 & -> & Hw1 & Hlen & [Hw2 Hlen2]%lang_repeat_upto).
  split; [by apply Forall_app | rewrite length_app; lia].
- intros [Hw Hlen]. exists (take min w), (drop min w).
  split_and!; [by rewrite take_drop | by apply Forall_take
               | rewrite length_take; lia |].
  apply lang_repeat_upto. split; [by apply Forall_drop|].
  rewrite length_drop. lia.
Qed.

Lemma isValidFileKey_chars key :
isValidFileKey key = true ↔
Forall (λ c, is_alnum c = true) key ∧ 22 ≤ length key ≤ 128.
Proof.
unfold isValidFileKey. rewrite test_anchored_lang.
apply lang_Repeat_class. lia.
Qed.

Lemma isValidNodeId_inv nodeId :
isValidNodeId nodeId = true →
∃ a b, nodeId = a ++ str ":" ++ b ∧
       a ≠ [] ∧ Forall (λ c, is_digit c = true) a ∧
       b ≠ [] ∧ Forall (λ c, is_digit c = true) b.
Proof.
unfold isValidNodeId. rewrite test_anchored_lang.
intros (a & w & -> & [Ha1 Ha2]%lang_plus_class_inv
        & c & w' & -> & ->%lang_lit
        & b & e & -> & [Hb1 Hb2]%lang_plus_class_inv & ->).
exists a, b. by rewrite app_nil_r.
Qed.

Lemma isValidNodeId_intro a b :
a ≠ [] → Forall (λ c, is_digit c = true) a →
b ≠ [] → Forall (λ c, is_digit c = true) b →
isValidNodeId (a ++ str ":" ++ b) = true.
Proof.
intros Ha1 Ha2 Hb1 Hb2. unfold isValidNodeId. rewrite test_anchored_lang.
apply lang_seqs_cons; [by apply lang_plus_class|].
apply lang_seqs_cons; [by apply lang_lit|].
rewrite <-(app_nil_r b).
apply lang_seqs_cons; [by apply lang_plus_class | done].
Qed.

(** A file key is valid exactly when it has 22 to 128 code units, all of
    them ASCII letters or digits. *)
Theorem isValidFileKey_iff (key : jsstring) :
isValidFileKey key = true ↔
Forall (λ c, is_alnum c = true) key ∧ 22 ≤ length key ≤ 128.
Proof.
unfold isValidFileKey. rewrite test_anchored_lang.
rewrite (lang_Repeat_class is_alnum 22 128 key) by lia. done.
Qed.

(** A node id is valid exactly when it is two non-empty runs of digits
    with one colon between them. *)
Theorem isValidNodeId_iff (nodeId : jsstring) :
isValidNodeId nodeId = true ↔
∃ a b, nodeId = a ++ str ":" ++ b ∧
       a ≠ [] ∧ Forall (λ c, is_digit c = true) a ∧
       b ≠ [] ∧ Forall (λ c, is_digit c = true) b.
Proof.
split; [apply isValidNodeId_inv|].
intros (a & b & -> & Ha1 & Ha2 & Hb1 & Hb2). by apply isValidNodeId_intro.
Qed.

(** ** Replacing single code units *)

Section replace_one_char.
Variable r : regex.
Variable p : N → bool.
Hypothesis r_nil : ∀ caps k, rmatch r [] caps k = None.
Hypothesis r_cons : ∀ x s caps k,
  rmatch r (x :: s) caps k = if p x then k s caps else None.

Lemma search_one_char s i :
(search r s i = None ∧ Forall (λ c, p c = false) s) ∨
(∃ u x s2, s = u ++ x :: s2 ∧ Forall (λ c, p c = false) u ∧ p x = true ∧
           search r s i = Some (i + length u, s2, ∅)).
Proof using r_nil r_cons.
revert i. induction s as [|x s IH]; intros i.
- left. simpl. unfold match_at. by rewrite r_nil.
- simpl. unfold match_at. rewrite r_cons.
  destruct (p x) eqn:Hx.
  + right. exists [], x, s. split_and!; [done.. |].
    simpl. by rewrite Nat.add_0_r.
  + destruct (IH (S i)) as [[Hs Hall] | (u & y & s2 & -> & Hu & Hy & Hs)].
    * left. split; [done | by constructor].
    * right. exists (x :: u), y, s2.
      split_and!; [done | by constructor | done |].
      rewrite Hs. simpl. do 3 f_equal. lia.
Qed.

Lemma bind_unchanged (repl : jsstring) (u : jsstring) :
Forall (λ c, p c = false) u →
u ≫= (λ c, if p c then repl else [c]) = u.
Proof.
induction 1 as [|c u Hc Hu IH]; [done|].
rewrite bind_cons, Hc, IH. done.
Qed.

Lemma replace_loop repl fuel (done_part s out : jsstring) :
length s < fuel →
let content := done_part ++ s in
let acc :=
  foldl (λ (acc : jsstring * nat) m,
           (acc.1 ++ take (mr_index m - acc.2) (drop acc.2 content) ++ repl,
            mr_end m))
    (out, length done_part)
    (exec_all fuel r content (length done_part)) in
acc.1 ++ drop acc.2 content
  = out ++ (s ≫= λ c, if p c then repl else [c]).
Proof using r_nil r_cons.
revert done_part s out.
induction fuel as [|fuel IH]; intros done_part s out Hfuel; [lia|].
simpl. unfold regex_exec.
rewrite bool_decide_eq_false_2 by (rewrite length_app; lia).
rewrite drop_app_length.
destruct (search_one_char s (length done_part))
  as [[-> Hall] | (u & x & s2 & -> & Hu & Hx & ->)]; simpl.
- by rewrite drop_app_length, bind_unchanged.
- assert (length (done_part ++ u ++ x :: s2) - length s2
          = length done_part + length u + 1) as Hend.
  { rewrite !length_app. simpl. lia. }
  rewrite Hend.
  replace (length done_part + length u + 1 - (length done_part + length u))
    with 1 by lia.
  rewrite (assoc_L (++) done_part u), <-(length_app done_part u).
  rewrite drop_app_length. simpl.
  rewrite <-(assoc_L (++) done_part u), drop_app_length.
  replace (length (done_part ++ u) - length done_part) with (length u)
    by (rewrite length_app; lia).
  rewrite take_app_length.
  replace (length (done_part ++ u) + 1)
    with (length ((done_part ++ u) ++ [x]))
    by (rewrite !length_app; simpl; lia).
  replace (done_part ++ u ++ x :: s2) with (((done_part ++ u) ++ [x]) ++ s2)
    by (by rewrite <-!(assoc_L (++))).
  rewrite IH by (rewrite length_app in Hfuel; simpl in Hfuel; lia).
  rewrite bind_app, bind_cons, Hx, (bind_unchanged _ u Hu).
  by rewrite <-!(assoc_L (++)).
Qed.

Lemma string_replace_global_one_char repl content :
string_replace_global r repl content
  = content ≫= λ c, if p c then repl else [c].
Proof using r_nil r_cons.
unfold string_replace_global.
apply (replace_loop repl (length content + 2) [] content []). lia.
Qed.
End replace_one_char.

Lemma string_replace_global_Char a b s :
string_replace_global (Char a) [b] s
  = (λ c, if bool_decide (c = a) then b else c) <$> s.
Proof.
rewrite (string_replace_global_one_char (Char a)
           (λ c, bool_decide (c = a))); [|done..].
induction s as [|c s IH]; [done|].
rewrite bind_cons, IH. simpl. by case_bool_decide.
Qed.

(** The conversion of node ids replaces every [-] by [:] and leaves the
    other code units: it keeps the length, and doing it twice changes
    nothing more. *)
Theorem convertNodeIdFormat_spec (nodeId : jsstring) :
convertNodeIdFormat nodeId
  = (λ c, if bool_decide (c = 45%N) then 58%N else c) <$> nodeId ∧
length (convertNodeIdFormat nodeId) = length nodeId ∧
convertNodeIdFormat (convertNodeIdFormat nodeId)
  = convertNodeIdFormat nodeId.
Proof.
unfold convertNodeIdFormat.
change (str ":") with [58%N]. rewrite !string_replace_global_Char.
split_and!.
- done.
- by rewrite length_fmap.
- rewrite <-list_fmap_compose. apply list_fmap_ext. intros i c _. simpl.
  by repeat case_bool_decide.
Qed.

(** The URL form [a-b] of a node id, two non-empty runs of digits joined
    by a dash, is converted to [a:b], which [isValidNodeId] accepts. *)
Theorem convertNodeIdFormat_valid (a b : jsstring) :
a ≠ [] → Forall (λ c, is_digit c = true) a →
b ≠ [] → Forall (λ c, is_digit c = true) b →
convertNodeIdFormat (a ++ str "-" ++ b) = a ++ str ":" ++ b ∧
isValidNodeId (convertNodeIdFormat (a ++ str "-" ++ b)) = true.
Proof.
intros Ha1 Ha2 Hb1 Hb2.
assert (∀ w, Forall (λ c, is_digit c = true) w →
          (λ c, if bool_decide (c = 45%N) then 58%N else c) <$> w = w)
  as Hdigits.
{ induction 1 as [|c w Hc Hw IH]; [done|]. rewrite fmap_cons, IH.
  rewrite bool_decide_eq_false_2; [done|]. by intros ->. }
assert (convertNodeIdFormat (a ++ str "-" ++ b) = a ++ str ":" ++ b) as Heq.
{ unfold convertNodeIdFormat. change (str ":") with [58%N].
  rewrite string_replace_global_Char, !fmap_app.
  rewrite (Hdigits a), (Hdigits b) by done. done. }
rewrite Heq. split; [done|]. by apply isValidNodeId_intro.
Qed.

Lemma convertNodeIdFormat_valid_witness :
convertNodeIdFormat (str "12" ++ str "-" ++ str "345")
  = str "12" ++ str ":" ++ str "345" ∧
isValidNodeId (convertNodeIdFormat (str "12" ++ str "-" ++ str "345"))
  = true.
Proof.
apply (convertNodeIdFormat_valid (str "12") (str "345"));
  [done | by repeat apply Forall_cons_2 | done
   | by repeat apply Forall_cons_2].
Defined.

(** ** Property names *)

Lemma exec_all_lang r content fuel lastIndex :
Forall (λ m, lang r (mr_match m)) (exec_all fuel r content lastIndex).
Proof.
revert lastIndex. induction fuel as [|fuel IH]; intros lastIndex; simpl.
{ constructor. }
destruct (regex_exec r content lastIndex) as [m|] eqn:Hm; [|constructor].
constructor; [|apply IH].
by apply regex_exec_Some in Hm as (_ & _ & _ & Hw).
Qed.

Lemma string_match_global_lang r content l :
string_match_global r content = Some l → Forall (lang r) l.
Proof.
unfold string_match_global.
pose proof (exec_all_lang r content (length content + 2) 0) as Hall.
destruct (mr_match <$> exec_all _ r content 0) as [|x l'] eqn:Hl; [done|].
intros [= <-]. rewrite <-Hl. by apply Forall_fmap.
Qed.

Lemma word_not_punct c : is_word c = true → is_qmark_colon c = false.
Proof.
unfold is_word, is_qmark_colon. intros Hw.
apply orb_false_intro; apply bool_decide_eq_false_2; intros ->; done.
Qed.

(** A token of the props pattern, stripped of [?] and [:], is the
    identifier it starts with. *)
Lemma propToken_strip token :
lang propTokenRegex token →
string_replace_global propPunctRegex [] token ≠ [] ∧
Forall (λ c, is_word c = true)
  (string_replace_global propPunctRegex [] token).
Proof.
intros (w & t & -> & [Hne Hw]%lang_plus_class_inv
        & q & t' & -> & Hq & c & e & -> & Hc%lang_lit & ->).
subst c.
unfold propPunctRegex.
rewrite (string_replace_global_one_char (Class is_qmark_colon)
           is_qmark_colon) by done.
assert (w ≫= (λ c, if is_qmark_colon c then [] else [c]) = w) as Hword.
{ apply bind_unchanged. eapply Forall_impl; [done|].
  intros c. apply word_not_punct. }
assert (q ≫= (λ c, if is_qmark_colon c then [] else [c]) = []) as Hpunct.
{ destruct Hq as [->%lang_lit | ->]; done. }
rewrite !bind_app, Hword, Hpunct. simpl. by rewrite app_nil_r.
Qed.

(** Whatever the content and the framework, every inferred property
    name is a non-empty run of word characters. *)
Theorem extractProps_identifiers (content framework : jsstring) :
Forall (λ prop, prop ≠ [] ∧ Forall (λ c, is_word c = true) prop)
  (extractProps content framework).
Proof.
unfold extractProps. case_bool_decide; [|constructor].
destruct (regex_exec propsRegex content 0) as [m|]; [|constructor].
destruct (string_match_global propTokenRegex _) as [tokens|] eqn:Htokens;
  [|constructor].
apply string_match_global_lang in Htokens. simpl.
apply Forall_fmap. eapply Forall_impl; [done|].
intros token. apply propToken_strip.
Qed.

(** ** Parsing URLs *)

Lemma includes_contains sub s : includes sub s = true ↔ contains sub s.
Proof.
induction s as [|x s IH]; simpl.
- case_bool_decide as Hp.
  + split; [intros _ | done]. destruct Hp as [post Hpost].
    exists [], post. done.
  + split; [done|]. intros (pre & post & Hs). destruct Hp.
    destruct pre; [|done]. by exists post.
- case_bool_decide as Hp.
  + split; [intros _ | done]. destruct Hp as [post Hpost].
    by exists [], post.
  + rewrite IH. split.
    * intros (pre & post & ->). by exists (x :: pre), post.
    * intros (pre & post & Hs). destruct pre as [|y pre].
      { destruct Hp. by exists post. }
      injection Hs as -> ->. by exists pre, post.
Qed.

Lemma msearch_head (m : matcher) s i rest caps :
m s ∅ (λ s' caps, Some (s', caps)) = Some (rest, caps) →
msearch m s i = Some (i, rest, caps).
Proof. intros H. destruct s; simpl; by rewrite H. Qed.

Lemma msearch_Some (m : matcher) s i j rest caps :
msearch m s i = Some (j, rest, caps) →
∃ pre s',
  s = pre ++ s' ∧ m s' ∅ (λ s' caps, Some (s', caps)) = Some (rest, caps).
Proof.
revert i. induction s as [|x s IH]; intros i; simpl.
- destruct (m [] ∅ _) as [[rest' caps']|] eqn:Hm; [|done].
  intros [= <- <- <-]. by exists [], [].
- destruct (m (x :: s) ∅ _) as [[rest' caps']|] eqn:Hm.
  + intros [= <- <- <-]. by exists [], (x :: s).
  + intros (pre & s' & -> & Hs')%IH. by exists (x :: pre), s'.
Qed.

Lemma string_match_head (m : matcher) input rest caps :
m input ∅ (λ s' caps, Some (s', caps)) = Some (rest, caps) →
mr_groups <$> string_match m input = Some caps.
Proof.
intros H. unfold string_match. by rewrite (msearch_head _ _ _ _ _ H).
Qed.

Lemma string_match_Some (m : matcher) input r :
string_match m input = Some r →
∃ pre s' rest,
  input = pre ++ s' ∧
  m s' ∅ (λ s' caps, Some (s', caps)) = Some (rest, mr_groups r).
Proof.
unfold string_match.
destruct (msearch m input 0) as [[[j rest] caps]|] eqn:Hs; [|done].
intros [= <-]. simpl.
apply msearch_Some in Hs as (pre & s' & -> & Hm). by exists pre, s', rest.
Qed.

(** *** Capture groups that a matcher leaves alone *)

Lemma keeps_star_loop n (m : matcher) k fuel s caps res :
keeps n m →
star_loop m k fuel s caps = Some res →
∃ s' caps', k s' caps' = Some res ∧ caps' !! n = caps !! n.
Proof.
intros Hm. revert s caps. induction fuel as [|fuel IH]; intros s caps; simpl.
{ intros Hk. by exists s, caps. }
destruct (m s caps _) as [res'|] eqn:Hround.
- intros [= ->]. apply Hm in Hround as (s1 & caps1 & Hloop & Hcaps1).
  case_bool_decide; [|done].
  apply IH in Hloop as (s2 & caps2 & Hk & Hcaps2).
  exists s2, caps2. split; [done | congruence].
- intros Hk. by exists s, caps.
Qed.

Lemma keeps_rmatch n r : has_group n r = false → keeps n (rmatch r).
Proof.
induction r as [|c|p|r1 IH1 r2 IH2|r1 IH1 r2 IH2|r IH|g r IH];
  simpl; intros Hn s caps k res Hres.
- by exists s, caps.
- destruct s as [|x s]; [done|]. case_bool_decide; [|done].
  by exists s, caps.
- destruct s as [|x s]; [done|]. destruct (p x); [|done].
  by exists s, caps.
- apply orb_false_elim in Hn as [Hn1 Hn2]. simpl in Hres.
  apply (IH1 Hn1) in Hres as (s1 & caps1 & Hres & Hcaps1).
  apply (IH2 Hn2) in Hres as (s2 & caps2 & Hres & Hcaps2).
  exists s2, caps2. split; [done | congruence].
- apply orb_false_elim in Hn as [Hn1 Hn2]. simpl in Hres.
  destruct (rmatch r1 s caps k) as [res'|] eqn:H1.
  + injection Hres as ->. by apply (IH1 Hn1) in H1.
  + by apply (IH2 Hn2) in Hres.
- simpl in Hres. eapply keeps_star_loop; [by apply IH | done].
- apply orb_false_elim in Hn as [Hg Hn]. simpl in Hres.
  apply bool_decide_eq_false in Hg.
  apply (IH Hn) in Hres as (s1 & caps1 & Hres & Hcaps1).
  eexists _, _. split; [done|]. by rewrite lookup_insert_ne.
Qed.

Lemma keeps_m_seq n (m1 m2 : matcher) :
keeps n m1 → keeps n m2 → keeps n (m_seq m1 m2).
Proof.
intros H1 H2 s caps k res Hres. unfold m_seq in Hres.
apply H1 in Hres as (s1 & caps1 & Hres & Hcaps1).
apply H2 in Hres as (s2 & caps2 & Hres & Hcaps2).
exists s2, caps2. split; [done | congruence].
Qed.

Lemma keeps_m_opt n (m : matcher) : keeps n m → keeps n (m_opt m).
Proof.
intros Hm s caps k res Hres. unfold m_opt in Hres.
destruct (m s caps k) as [res'|] eqn:H1.
- injection Hres as ->. by apply Hm in H1.
- by exists s, caps.
Qed.

Lemma keeps_m_lazy_star n (m : matcher) : keeps n m → keeps n (m_lazy_star m).
Proof.
intros Hm s caps k res. unfold m_lazy_star.
generalize (length s) as fuel. intros fuel. revert s caps.
induction fuel as [|fuel IH]; intros s caps; simpl.
{ intros Hk. by exists s, caps. }
destruct (k s caps) as [res'|] eqn:Hk.
- intros [= ->]. by exists s, caps.
- intros (s1 & caps1 & Hloop & Hcaps1)%Hm.
  case_bool_decide; [|done].
  apply IH in Hloop as (s2 & caps2 & Hk2 & Hcaps2).
  exists s2, caps2. split; [done | congruence].
Qed.

Lemma m_opt_total (m : matcher) s caps :
is_Some (m_opt m s caps (λ s' caps', Some (s', caps'))).
Proof. unfold m_opt. by destruct (m s caps _). Qed.

Lemma file_pattern_query_keeps : keeps 1 (m_opt file_pattern_query).
Proof.
apply keeps_m_opt. unfold file_pattern_query.
apply keeps_m_seq; [by apply keeps_rmatch|].
apply keeps_m_seq; [|by apply keeps_rmatch].
apply keeps_m_lazy_star. by apply keeps_rmatch.
Qed.

(** *** Literals and bounded runs *)

Lemma rmatch_chars_inv (l s : jsstring) caps k res :
rmatch (seqs (Char <$> l)) s caps k = Some res →
∃ t, s = l ++ t ∧ k t caps = Some res.
Proof.
revert s. induction l as [|c l IH]; intros s; simpl.
{ intros Hk. by exists s. }
destruct s as [|x s]; [done|]. case_bool_decide as Hx; [|done].
intros (t & -> & Hk)%IH. subst x. by exists t.
Qed.

Lemma rmatch_lit_inv l s caps k res :
rmatch (lit l) s caps k = Some res →
∃ t, s = str l ++ t ∧ k t caps = Some res.
Proof. apply rmatch_chars_inv. Qed.

Lemma rmatch_Group n r s caps k :
rmatch (Group n r) s caps k
  = rmatch r s caps
      (λ s' caps', k s' (<[n := take (length s - length s') s]> caps')).
Proof. done. Qed.

Lemma rmatch_Alt_l r1 r2 s caps k res :
rmatch r1 s caps k = Some res → rmatch (Alt r1 r2) s caps k = Some res.
Proof. intros H. simpl. by rewrite H. Qed.

Lemma rmatch_Alt_r r1 r2 s caps k :
rmatch r1 s caps k = None →
rmatch (Alt r1 r2) s caps k = rmatch r2 s caps k.
Proof. intros H. simpl. by rewrite H. Qed.

Lemma rmatch_repeat_upto_class p n w rest caps k res :
Forall (λ c, p c = true) w → length w ≤ n → stops p rest →
k rest caps = Some res →
rmatch (repeat_upto n (Class p)) (w ++ rest) caps k = Some res.
Proof.
intros Hw Hlen Hrest Hk. revert n Hlen.
induction Hw as [|c w Hc Hw IH]; intros n Hlen.
- destruct n as [|n]; [done|].
  change (repeat_upto (S n) (Class p))
    with (Alt (Seq (Class p) (repeat_upto n (Class p))) Empty).
  rewrite rmatch_Alt_r; [done|].
  destruct rest as [|x rest]; [done|]. simpl in *. by rewrite Hrest.
- destruct n as [|n]; [simpl in Hlen; lia|].
  change (repeat_upto (S n) (Class p))
    with (Alt (Seq (Class p) (repeat_upto n (Class p))) Empty).
  apply rmatch_Alt_l.
  change (rmatch (Seq (Class p) ?r) ((c :: w) ++ rest) caps k)
    with (if p c then rmatch r (w ++ rest) caps k else None).
  rewrite Hc. apply IH. simpl in Hlen. lia.
Qed.

Lemma rmatch_replicate_class p rs w t caps k :
Forall (λ c, p c = true) w →
rmatch (seqs (replicate (length w) (Class p) ++ rs)) (w ++ t) caps k
  = rmatch (seqs rs) t caps k.
Proof.
induction 1 as [|c w Hc Hw IH]; [done|].
change (rmatch (seqs (replicate (length (c :: w)) (Class p) ++ rs))
          ((c :: w) ++ t) caps k)
  with (if p c
        then rmatch (seqs (replicate (length w) (Class p) ++ rs))
               (w ++ t) caps k
        else None).
by rewrite Hc.
Qed.

Lemma rmatch_Repeat_class p min max w rest caps k res :
Forall (λ c, p c = true) w → min ≤ length w ≤ max → stops p rest →
k rest caps = Some res →
rmatch (Repeat min max (Class p)) (w ++ rest) caps k = Some res.
Proof.
intros Hw Hlen Hrest Hk. unfold Repeat.
rewrite <-(take_drop min w), <-(assoc_L (++)).
assert (length (take min w) = min) as Hmin by (rewrite length_take; lia).
rewrite <-Hmin at 1.
rewrite rmatch_replicate_class by by apply Forall_take.
rewrite rmatch_seqs_cons.
apply rmatch_repeat_upto_class;
  [by apply Forall_drop | rewrite length_drop; lia | done..].
Qed.

Lemma span (p : N → bool) (s : jsstring) :
∃ w rest, s = w ++ rest ∧ Forall (λ c, p c = true) w ∧ stops p rest.
Proof.
induction s as [|c s (w & rest & -> & Hw & Hrest)].
- by exists [], [].
- destruct (p c) eqn:Hc.
  + exists (c :: w), rest. split_and!; [done | by constructor | done].
  + by exists [], (c :: w ++ rest).
Qed.

(** *** The file pattern *)

Local Abbreviation done_k :=
  (λ (s' : jsstring) (caps' : captures), Some (s', caps')).

(** What a match of the file pattern has read: the scheme, the host,
    [file] or [design], and a key of 22 to 128 letters and digits
    between two slashes, which is the first capture group. *)
Lemma file_pattern_capture s rest caps :
file_pattern s ∅ done_k = Some (rest, caps) →
∃ www kind key post,
  s = str "https://" ++ www ++ str "figma.com/" ++ kind ++ str "/"
        ++ key ++ str "/" ++ post ∧
  kind ∈ [str "file"; str "design"] ∧
  Forall (λ c, is_alnum c = true) key ∧ 22 ≤ length key ≤ 128 ∧
  caps !! 1 = Some key.
Proof.
unfold file_pattern, m_seq, file_pattern_head. intros H.
rewrite rmatch_seqs_cons in H.
apply rmatch_lit_inv in H as (s1 & -> & H).
rewrite rmatch_seqs_cons in H.
apply rmatch_sound in H as (www & s2 & c2 & -> & _ & H).
rewrite rmatch_seqs_cons in H.
apply rmatch_sound in H as (w3 & s3 & c3 & -> & ->%lang_lit & H).
rewrite rmatch_seqs_cons in H.
apply rmatch_sound in H as (kind & s4 & c4 & -> & Hkind & H).
rewrite rmatch_seqs_cons in H.
apply rmatch_sound in H as (w5 & s5 & c5 & -> & ->%lang_lit & H).
rewrite rmatch_seqs_cons, rmatch_Group in H.
apply rmatch_sound in H as (key & s6 & c6 & -> & Hkey & H).
rewrite take_consumed, rmatch_seqs_cons in H.
apply rmatch_lit_inv in H as (post & -> & H).
apply (keeps_rmatch 1) in H as (s7 & c7 & H & Hc7); [|done].
apply file_pattern_query_keeps in H as (s8 & c8 & [= <- <-] & Hc8).
apply (lang_Repeat_class _ 22 128) in Hkey; [|lia].
destruct Hkey as [Hkey Hlen].
exists www, kind, key, post. split_and!; [done | | done | lia | lia |].
- rewrite !elem_of_cons. destruct Hkind as [->%lang_lit | ->%lang_lit]; auto.
- by rewrite Hc8, Hc7, lookup_insert_eq.
Qed.

Lemma file_pattern_head_match www kind key w rest
  (K : jsstring → captures → option (jsstring * captures)) res :
www ∈ [[]; str "www."] → kind ∈ [str "file"; str "design"] →
Forall (λ c, is_alnum c = true) key → 22 ≤ length key ≤ 128 →
Forall (λ c, not_qmark c = true) w → stops not_qmark rest →
K rest {[1 := key]} = Some res →
rmatch file_pattern_head
  (str "https://" ++ www ++ str "figma.com/" ++ kind ++ str "/"
     ++ key ++ str "/" ++ w ++ rest) ∅ K = Some res.
Proof.
intros Hwww Hkind Hkey Hlen Hw Hrest HK. unfold file_pattern_head.
rewrite rmatch_seqs_cons, rmatch_lit, rmatch_seqs_cons.
assert (rmatch
          (seqs [lit "/"; Group 1 (Repeat 22 128 (Class is_alnum)); lit "/";
                 Star (Class not_qmark)])
          (str "/" ++ key ++ str "/" ++ w ++ rest) ∅ K = Some res) as Hkey'.
{ rewrite rmatch_seqs_cons, rmatch_lit, rmatch_seqs_cons, rmatch_Group.
  apply rmatch_Repeat_class; [done | done | done |].
  rewrite take_consumed, rmatch_seqs_cons, rmatch_lit, rmatch_seqs_cons.
  rewrite rmatch_star_class by done. by apply greedy_try_longest. }
assert (rmatch
          (seqs [Alt (lit "file") (lit "design"); lit "/";
                 Group 1 (Repeat 22 128 (Class is_alnum)); lit "/";
                 Star (Class not_qmark)])
          (kind ++ str "/" ++ key ++ str "/" ++ w ++ rest) ∅ K = Some res)
  as Hkind'.
{ rewrite rmatch_seqs_cons.
  apply elem_of_cons in Hkind as [-> | ->%list_elem_of_singleton].
  - apply rmatch_Alt_l. by rewrite rmatch_lit.
  - rewrite rmatch_Alt_r by done. by rewrite rmatch_lit. }
apply elem_of_cons in Hwww as [-> | ->%list_elem_of_singleton].
- unfold Opt. rewrite rmatch_Alt_r by done.
  change (rmatch Empty ?s ?c ?k) with (k s c). cbv beta.
  change ([] ++ ?x) with x.
  by rewrite rmatch_seqs_cons, rmatch_lit.
- unfold Opt. apply rmatch_Alt_l.
  by rewrite rmatch_lit, rmatch_seqs_cons, rmatch_lit.
Qed.

Lemma file_pattern_url www kind key w rest res :
www ∈ [[]; str "www."] → kind ∈ [str "file"; str "design"] →
isValidFileKey key = true →
Forall (λ c, not_qmark c = true) w → stops not_qmark rest →
m_opt file_pattern_query rest {[1 := key]} done_k = Some res →
file_pattern
  (str "https://" ++ www ++ str "figma.com/" ++ kind ++ str "/"
     ++ key ++ str "/" ++ w ++ rest) ∅ done_k = Some res.
Proof.
intros Hwww Hkind [Hkey Hlen]%isValidFileKey_chars Hw Hrest Hres.
unfold file_pattern, m_seq. by apply file_pattern_head_match.
Qed.

Lemma parseFileKey_match input rest caps key :
contains (str "figma.com") input →
file_pattern input ∅ done_k = Some (rest, caps) →
caps !! 1 = Some key → key ≠ [] →
parseFileKey input = Returned key.
Proof.
intros Hin%includes_contains Hm%string_match_head Hkey Hne.
unfold parseFileKey. rewrite Hin. simpl.
destruct (string_match file_pattern input) as [m|]; [|done].
injection Hm as Hm. rewrite Hm, Hkey. by destruct key.
Qed.

Lemma parseNodeIds_match input rest caps :
contains (str "figma.com") input →
file_pattern input ∅ done_k = Some (rest, caps) →
parseNodeIds input
  = match caps !! 2 with
    | Some (c :: ids) =>
        string_replace_global (Char 45) (str ":")
          <$> split (str "%2C") (c :: ids)
    | _ => []
    end.
Proof.
intros Hin%includes_contains Hm%string_match_head.
unfold parseNodeIds. rewrite Hin.
destruct (string_match file_pattern input) as [m|]; [|done].
injection Hm as Hm. by rewrite Hm.
Qed.

(** For an input with [figma.com] in it, the key that is returned is a
    valid file key, and it stands in the input between [figma.com/file/]
    or [figma.com/design/] and the next slash; any other input is
    returned as it is. *)
Theorem parseFileKey_result (input key : jsstring) :
parseFileKey input = Returned key →
(includes (str "figma.com") input = false ∧ key = input) ∨
(isValidFileKey key = true ∧
 ∃ pre kind post,
   kind ∈ [str "file"; str "design"] ∧
   input = pre ++ str "figma.com/" ++ kind ++ str "/" ++ key
             ++ str "/" ++ post).
Proof.
unfold parseFileKey.
destruct (includes (str "figma.com") input) eqn:Hin; simpl.
2:{ intros [= <-]. by left. }
destruct (string_match file_pattern input) as [m|] eqn:Hm; [|done].
destruct (mr_groups m !! 1) as [[|c k]|] eqn:Hg; [done| |done].
intros [= <-]. right.
apply string_match_Some in Hm as (pre & s' & rest & -> & Hm).
apply file_pattern_capture in Hm
  as (www & kind & key & post & -> & Hkind & Hkey & Hlen & Hcaps).
rewrite Hg in Hcaps. injection Hcaps as <-.
split; [by apply isValidFileKey_chars|].
exists (pre ++ str "https://" ++ www), kind, post.
split; [done|]. by rewrite <-!(assoc_L (++)).
Qed.

Lemma parseFileKey_result_witness :
(includes (str "figma.com")
   (str "https://www.figma.com/design/B6Vm4ntBjI08oWreSfnBhT/App?node-id=1-2")
   = false ∧
 str "B6Vm4ntBjI08oWreSfnBhT"
   = str "https://www.figma.com/design/B6Vm4ntBjI08oWreSfnBhT/App?node-id=1-2")
∨
(isValidFileKey (str "B6Vm4ntBjI08oWreSfnBhT") = true ∧
 ∃ pre kind post,
   kind ∈ [str "file"; str "design"] ∧
   str "https://www.figma.com/design/B6Vm4ntBjI08oWreSfnBhT/App?node-id=1-2"
     = pre ++ str "figma.com/" ++ kind ++ str "/"
         ++ str "B6Vm4ntBjI08oWreSfnBhT" ++ str "/" ++ post).
Proof.
apply (parseFileKey_result
         (str "https://www.figma.com/design/B6Vm4ntBjI08oWreSfnBhT/App?node-id=1-2")
         (str "B6Vm4ntBjI08oWreSfnBhT")).
vm_compute. reflexivity.
Defined.

(** A file or design URL with a valid key, with or without [www.],
    parses to that key, whatever follows the slash after the key. *)
Theorem parseFileKey_url (www kind key tail : jsstring) :
www ∈ [[]; str "www."] → kind ∈ [str "file"; str "design"] →
isValidFileKey key = true →
parseFileKey
  (str "https://" ++ www ++ str "figma.com/" ++ kind ++ str "/"
     ++ key ++ str "/" ++ tail)
  = Returned key.
Proof.
intros Hwww Hkind Hkey.
destruct (span not_qmark tail) as (w & rest & -> & Hw & Hrest).
destruct (m_opt_total file_pattern_query rest {[1 := key]})
  as [[rest' caps] Hres].
pose proof Hres as Hkeep.
apply file_pattern_query_keeps in Hkeep as (s' & caps' & [= <- <-] & Hcaps).
rewrite lookup_singleton_eq in Hcaps.
apply (parseFileKey_match _ s' caps').
- exists (str "https://" ++ www),
    (str "/" ++ kind ++ str "/" ++ key ++ str "/" ++ w ++ rest).
  rewrite <-!(assoc_L (++)). reflexivity.
- by apply file_pattern_url.
- done.
- apply isValidFileKey_chars in Hkey as [_ Hlen]. intros ->. simpl in Hlen. lia.
Qed.

Lemma parseFileKey_url_witness :
parseFileKey
  (str "https://" ++ [] ++ str "figma.com/" ++ str "file" ++ str "/"
     ++ str "B6Vm4ntBjI08oWreSfnBhT" ++ str "/" ++ str "Login?type=design")
  = Returned (str "B6Vm4ntBjI08oWreSfnBhT").
Proof.
apply (parseFileKey_url [] (str "file") (str "B6Vm4ntBjI08oWreSfnBhT")
         (str "Login?type=design")).
- apply list_elem_of_here.
- apply list_elem_of_here.
- vm_compute. reflexivity.
Defined.

(** *** The query of a file URL *)

Lemma file_pattern_query_none caps :
m_opt file_pattern_query [] caps done_k = Some ([], caps).
Proof. done. Qed.

Lemma lazy_star_loop_now (m : matcher) k fuel s caps res :
k s caps = Some res → lazy_star_loop m k fuel s caps = Some res.
Proof. intros Hk. destruct fuel; simpl; by rewrite Hk. Qed.

Lemma rmatch_plus_class_all p k c w caps res :
p c = true → Forall (λ c, p c = true) w → k [] caps = Some res →
rmatch (Plus (Class p)) (c :: w) caps k = Some res.
Proof.
intros Hc Hw Hk.
pose proof (rmatch_plus_class p k c w [] caps Hc Hw I) as Hrun.
rewrite app_nil_r in Hrun. rewrite Hrun. by apply greedy_try_longest.
Qed.

Lemma file_pattern_query_node_id u caps :
u ≠ [] → Forall (λ c, not_amp c = true) u →
m_opt file_pattern_query (str "?node-id=" ++ u) caps done_k
  = Some ([], <[2 := u]> caps).
Proof.
intros Hne Hu. unfold m_opt, file_pattern_query, m_seq.
change (str "?node-id=" ++ u) with (str "?" ++ str "node-id=" ++ u).
rewrite rmatch_lit. unfold m_lazy_star.
rewrite (lazy_star_loop_now _ _ _ _ _ ([], <[2 := u]> caps)); [done|].
rewrite rmatch_seqs_cons, rmatch_lit.
change (rmatch (seqs [Group 2 ?r]) ?s ?c ?k)
  with (rmatch r s c
          (λ s' caps', k s' (<[2 := take (length s - length s') s]> caps'))).
destruct u as [|c u]; [done|]. apply Forall_cons in Hu as [Hc Hu].
apply rmatch_plus_class_all; [done..|].
change (length (@nil N)) with 0. by rewrite Nat.sub_0_r, firstn_all.
Qed.

Lemma split_no_separator c separator s current :
Forall (λ x, x ≠ c) s →
split_loop (c :: separator) s 0 current = [current ++ s].
Proof.
intros Hs. revert current.
induction Hs as [|x s Hx Hs IH]; intros current; simpl.
{ by rewrite app_nil_r. }
rewrite bool_decide_eq_false_2.
- by rewrite IH, <-(assoc_L (++)).
- intros [post [= -> _]]. done.
Qed.

Lemma node_id_char c :
is_digit c = true ∨ c = 58%N →
not_amp (if bool_decide (c = 58%N) then 45%N else c) = true ∧
(if bool_decide (c = 58%N) then 45%N else c) ≠ 37%N ∧
(if bool_decide ((if bool_decide (c = 58%N) then 45%N else c) = 45%N)
 then 58%N else (if bool_decide (c = 58%N) then 45%N else c)) = c.
Proof.
intros [Hd%bool_decide_eq_true | ->]; [|done].
rewrite (bool_decide_eq_false_2 (c = 58%N)) by lia.
unfold not_amp. rewrite !bool_decide_eq_false_2 by lia. split_and!; [done|lia|done].
Qed.

(** The URL form of a valid node id: not empty, without [&] and [%],
    and converted back to the id. *)
Lemma node_id_url_form id :
isValidNodeId id = true →
string_replace_global (Char 58) (str "-") id ≠ [] ∧
Forall (λ c, not_amp c = true) (string_replace_global (Char 58) (str "-") id) ∧
Forall (λ c, c ≠ 37%N) (string_replace_global (Char 58) (str "-") id) ∧
string_replace_global (Char 45) (str ":")
  (string_replace_global (Char 58) (str "-") id) = id.
Proof.
intros (a & b & -> & Ha1 & Ha2 & Hb1 & Hb2)%isValidNodeId_inv.
assert (Forall (λ c, is_digit c = true ∨ c = 58%N) (a ++ str ":" ++ b))
  as Hid.
{ apply Forall_app. split; [|apply Forall_app; split].
  - eapply Forall_impl; [done|]. auto.
  - change (str ":") with [58%N]. apply Forall_singleton. by right.
  - eapply Forall_impl; [done|]. auto. }
assert (a ++ str ":" ++ b ≠ []) as Hne by by destruct a.
revert Hid Hne. generalize (a ++ str ":" ++ b). intros id Hid Hne.
change (str "-") with [45%N]. change (str ":") with [58%N].
rewrite !string_replace_global_Char. split_and!.
- by intros ->%fmap_nil_inv.
- rewrite Forall_fmap. eapply Forall_impl; [done|].
  intros c Hc. by apply node_id_char.
- rewrite Forall_fmap. eapply Forall_impl; [done|].
  intros c Hc. by apply node_id_char.
- rewrite <-list_fmap_compose. rewrite <-(list_fmap_id id) at 2.
  apply Forall_fmap_ext_1. eapply Forall_impl; [done|].
  intros c Hc. by apply node_id_char.
Qed.

Section buildFigmaUrl_props.
Variable encodeURIComponent : jsstring → option jsstring.
Hypothesis encodeURIComponent_escapes :
  ∀ s encoded,
    encodeURIComponent s = Some encoded → Forall (λ c, c ≠ 63%N) encoded.

Lemma buildFigmaUrl_shape key fileName nodeId url :
buildFigmaUrl encodeURIComponent key fileName nodeId = Some url →
∃ w,
  Forall (λ c, not_qmark c = true) w ∧
  url = str "https://" ++ str "www." ++ str "figma.com/" ++ str "file"
          ++ str "/" ++ key ++ str "/" ++ w
          ++ (if truthy nodeId
              then str "?node-id="
                     ++ string_replace_global (Char 58) (str "-")
                          (default [] nodeId)
              else []).
Proof using encodeURIComponent_escapes.
unfold buildFigmaUrl. destruct (truthy fileName).
- destruct (encodeURIComponent (default [] fileName)) as [encoded|] eqn:Henc;
    [|done].
  simpl. intros [= <-]. exists encoded. split.
  + eapply Forall_impl; [by eapply encodeURIComponent_escapes|].
    intros c Hc. unfold not_qmark. by rewrite bool_decide_eq_false_2.
  + destruct (truthy nodeId); rewrite <-?(assoc_L (++)); [done|].
    by rewrite app_nil_r.
- simpl. intros [= <-]. exists (str "Untitled"). split.
  + by repeat constructor.
  + destruct (truthy nodeId); rewrite <-?(assoc_L (++)); [done|].
    by rewrite app_nil_r.
Qed.

(** A URL built from a valid file key, any file name and a valid node
    id, or none, parses back to the key and to the node id: [:] goes to
    [-] in the URL and comes back. *)
Theorem buildFigmaUrl_round_trip
  (key : jsstring) (fileName nodeId : option jsstring) (url : jsstring) :
isValidFileKey key = true →
(∀ id, nodeId = Some id → isValidNodeId id = true) →
buildFigmaUrl encodeURIComponent key fileName nodeId = Some url →
parseFileKey url = Returned key ∧
parseNodeIds url = match nodeId with Some id => [id] | None => [] end.
Proof using encodeURIComponent_escapes.
intros Hkey Hnode (w & Hw & ->)%buildFigmaUrl_shape.
assert (key ≠ []) as Hne.
{ apply isValidFileKey_chars in Hkey as [_ Hlen]. intros ->.
  simpl in Hlen. lia. }
assert (∀ rest,
  contains (str "figma.com")
    (str "https://" ++ str "www." ++ str "figma.com/" ++ str "file"
       ++ str "/" ++ key ++ str "/" ++ w ++ rest)) as Hin.
{ intros rest. exists (str "https://" ++ str "www."),
    (str "/" ++ str "file" ++ str "/" ++ key ++ str "/" ++ w ++ rest).
  reflexivity. }
assert (str "www." ∈ [[]; str "www."]) as Hwww by (rewrite !elem_of_cons; auto).
assert (str "file" ∈ [str "file"; str "design"]) as Hkind
  by (rewrite !elem_of_cons; auto).
destruct nodeId as [id|].
- destruct (node_id_url_form id) as (Hu1 & Hu2 & Hu3 & Hu4); [by apply Hnode|].
  assert (truthy (Some id) = true) as ->.
  { destruct id; [|done]. by specialize (Hnode [] eq_refl). }
  change (default [] (Some id)) with id. cbv beta iota.
  assert (file_pattern
            (str "https://" ++ str "www." ++ str "figma.com/" ++ str "file"
               ++ str "/" ++ key ++ str "/" ++ w ++ str "?node-id="
               ++ string_replace_global (Char 58) (str "-") id) ∅ done_k
          = Some ([], <[2 := string_replace_global (Char 58) (str "-") id]>
                        {[1 := key]})) as Hm.
  { apply file_pattern_url; [done..|]. by apply file_pattern_query_node_id. }
  split.
  + eapply parseFileKey_match; [apply Hin | apply Hm | | done].
    by rewrite lookup_insert_ne, lookup_singleton_eq.
  + rewrite (parseNodeIds_match _ _ _ (Hin _) Hm), lookup_insert_eq.
    destruct (string_replace_global (Char 58) (str "-") id) as [|c ids] eqn:Hu;
      [done|].
    unfold split. change (str "%2C") with (37%N :: str "2C").
    rewrite split_no_separator by done.
    exact (f_equal (λ x, [x]) Hu4).
- change (truthy None) with false. cbv beta iota.
  assert (file_pattern
            (str "https://" ++ str "www." ++ str "figma.com/" ++ str "file"
               ++ str "/" ++ key ++ str "/" ++ w ++ []) ∅ done_k
          = Some ([], {[1 := key]})) as Hm.
  { by apply file_pattern_url. }
  split.
  + eapply parseFileKey_match; [apply Hin | apply Hm | | done].
    by rewrite lookup_singleton_eq.
  + by rewrite (parseNodeIds_match _ _ _ (Hin _) Hm).
Qed.

End buildFigmaUrl_props.

Lemma example_encode_escapes (s encoded : jsstring) :
(if bool_decide (63%N ∈ s) then None else Some s) = Some encoded →
Forall (λ c, c ≠ 63%N) encoded.
Proof.
case_bool_decide as Hs; [done|]. intros [= <-].
apply Forall_forall. by intros c Hc ->.
Qed.

Lemma buildFigmaUrl_round_trip_witness :
parseFileKey
  (str "https://www.figma.com/file/B6Vm4ntBjI08oWreSfnBhT/Login?node-id=12-345")
  = Returned (str "B6Vm4ntBjI08oWreSfnBhT") ∧
parseNodeIds
  (str "https://www.figma.com/file/B6Vm4ntBjI08oWreSfnBhT/Login?node-id=12-345")
  = [str "12:345"].
Proof.
apply (buildFigmaUrl_round_trip
         (λ s, if bool_decide (63%N ∈ s) then None else Some s)
         example_encode_escapes
         (str "B6Vm4ntBjI08oWreSfnBhT") (Some (str "Login"))
         (Some (str "12:345"))).
- vm_compute. reflexivity.
- intros id [= <-]. vm_compute. reflexivity.
- vm_compute. reflexivity.
Defined.

(** *** Team URLs *)

Lemma team_pattern_capture s rest caps :
rmatch team_pattern s ∅ done_k = Some (rest, caps) →
∃ www id,
  s = str "https://" ++ www ++ str "figma.com/files/team/" ++ id ++ rest ∧
  id ≠ [] ∧ Forall (λ c, is_digit c = true) id ∧ caps !! 1 = Some id.
Proof.
unfold team_pattern. intros H.
rewrite rmatch_seqs_cons in H.
apply rmatch_lit_inv in H as (s1 & -> & H).
rewrite rmatch_seqs_cons in H.
apply rmatch_sound in H as (www & s2 & c2 & -> & _ & H).
rewrite rmatch_seqs_cons in H.
apply rmatch_sound in H as (w3 & s3 & c3 & -> & ->%lang_lit & H).
change (rmatch (seqs [Group 1 ?r]) ?s ?c ?k)
  with (rmatch r s c
          (λ s' caps', k s' (<[1 := take (length s - length s') s]> caps')))
  in H.
apply rmatch_sound in H as (id & s4 & c4 & -> & Hid & [= <- <-]).
apply lang_plus_class_inv in Hid as [Hne Hid].
exists www, id. by rewrite take_consumed, lookup_insert_eq.
Qed.

Lemma team_pattern_match www id rest :
www ∈ [[]; str "www."] →
id ≠ [] → Forall (λ c, is_digit c = true) id → stops is_digit rest →
rmatch team_pattern
  (str "https://" ++ www ++ str "figma.com/files/team/" ++ id ++ rest)
  ∅ done_k
  = Some (rest, {[1 := id]}).
Proof.
intros Hwww Hne Hid Hrest. unfold team_pattern.
rewrite rmatch_seqs_cons, rmatch_lit, rmatch_seqs_cons.
assert (rmatch (seqs [lit "figma.com/files/team/";
                      Group 1 (Plus (Class is_digit))])
          (str "figma.com/files/team/" ++ id ++ rest) ∅ done_k
        = Some (rest, {[1 := id]})) as Hid'.
{ rewrite rmatch_seqs_cons, rmatch_lit.
  change (rmatch (seqs [Group 1 ?r]) ?s ?c ?k)
    with (rmatch r s c
            (λ s' caps', k s' (<[1 := take (length s - length s') s]> caps'))).
  destruct id as [|c id]; [done|]. apply Forall_cons in Hid as [Hc Hid].
  change ((c :: id) ++ rest) with (c :: id ++ rest) at 1.
  rewrite rmatch_plus_class by done. apply greedy_try_longest.
  by rewrite take_consumed. }
apply elem_of_cons in Hwww as [-> | ->%list_elem_of_singleton].
- unfold Opt. by rewrite rmatch_Alt_r by done.
- unfold Opt. apply rmatch_Alt_l. by rewrite rmatch_lit.
Qed.

(** For an input with [figma.com] in it, the team id that is returned
    is a non-empty run of digits that stands in the input right after
    [figma.com/files/team/]; any other input is returned as it is. *)
Theorem parseTeamId_result (input id : jsstring) :
parseTeamId input = Returned id →
(includes (str "figma.com") input = false ∧ id = input) ∨
(id ≠ [] ∧ Forall (λ c, is_digit c = true) id ∧
 ∃ pre post, input = pre ++ str "figma.com/files/team/" ++ id ++ post).
Proof.
unfold parseTeamId.
destruct (includes (str "figma.com") input) eqn:Hin; simpl negb; cbv iota.
2:{ intros [= <-]. by left. }
destruct (string_match (rmatch team_pattern) input) as [m|] eqn:Hm; [|done].
destruct (mr_groups m !! 1) as [[|c k]|] eqn:Hg; [done| |done].
intros [= <-]. right.
apply string_match_Some in Hm as (pre & s' & rest & -> & Hm).
apply team_pattern_capture in Hm as (www & id & -> & Hne & Hid & Hcaps).
rewrite Hg in Hcaps. injection Hcaps as <-.
split_and!; [done..|].
exists (pre ++ str "https://" ++ www), rest.
by rewrite <-!(assoc_L (++)).
Qed.

Lemma parseTeamId_result_witness :
(includes (str "figma.com")
   (str "https://www.figma.com/files/team/1234567890/Acme") = false ∧
 str "1234567890" = str "https://www.figma.com/files/team/1234567890/Acme")
∨
(str "1234567890" ≠ [] ∧
 Forall (λ c, is_digit c = true) (str "1234567890") ∧
 ∃ pre post,
   str "https://www.figma.com/files/team/1234567890/Acme"
     = pre ++ str "figma.com/files/team/" ++ str "1234567890" ++ post).
Proof.
apply (parseTeamId_result
         (str "https://www.figma.com/files/team/1234567890/Acme")
         (str "1234567890")).
vm_compute. reflexivity.
Defined.

(** A team URL, with or without [www.], parses to the whole run of
    digits after [figma.com/files/team/]. *)
Theorem parseTeamId_url (www id rest : jsstring) :
www ∈ [[]; str "www."] →
id ≠ [] → Forall (λ c, is_digit c = true) id → stops is_digit rest →
parseTeamId
  (str "https://" ++ www ++ str "figma.com/files/team/" ++ id ++ rest)
  = Returned id.
Proof.
intros Hwww Hne Hid Hrest.
pose proof (team_pattern_match www id rest Hwww Hne Hid Hrest)
  as Hm%string_match_head.
assert (includes (str "figma.com")
          (str "https://" ++ www ++ str "figma.com/files/team/" ++ id ++ rest)
        = true) as Hin.
{ apply includes_contains.
  exists (str "https://" ++ www), (str "/files/team/" ++ id ++ rest).
  rewrite <-!(assoc_L (++)). reflexivity. }
unfold parseTeamId. rewrite Hin.
destruct (string_match (rmatch team_pattern) _) as [m|]; [|done].
injection Hm as Hm. cbv beta iota. simpl negb. cbv iota.
rewrite Hm, lookup_singleton_eq. by destruct id.
Qed.

Lemma parseTeamId_url_witness :
parseTeamId
  (str "https://" ++ str "www." ++ str "figma.com/files/team/"
     ++ str "1234567890" ++ str "/Acme")
  = Returned (str "1234567890").
Proof.
apply (parseTeamId_url (str "www.") (str "1234567890") (str "/Acme")).
- apply list_elem_of_further, list_elem_of_here.
- done.
- by repeat constructor.
- done.
Defined.

(** ** Lists of node ids *)

Lemma split_loop_single c s current :
c ∉ current →
length (split_loop [c] s 0 current)
  = S (length (filter (λ x, x = c) s)) ∧
Forall (λ piece, c ∉ piece) (split_loop [c] s 0 current).
Proof.
revert current. induction s as [|x s IH]; intros current Hcur; simpl.
{ split; [done | by constructor]. }
case_bool_decide as Hp.
- destruct Hp as [post [= -> _]].
  rewrite filter_cons_True by done.
  destruct (IH [] (not_elem_of_nil c)) as [Hlen Hall].
  simpl. split; [by rewrite Hlen | by constructor].
- assert (x ≠ c) as Hx.
  { intros ->. destruct Hp. by exists s. }
  rewrite filter_cons_False by done. apply IH.
  rewrite elem_of_app, list_elem_of_singleton. by intros [? | ?].
Qed.

Lemma trim_start_suffix s : ∃ pre, s = pre ++ trim_start s.
Proof.
induction s as [|c s [pre Hpre]]; simpl; [by exists []|].
destruct (is_space c); [|by exists []].
exists (c :: pre). by rewrite Hpre at 1.
Qed.

Lemma trim_start_stops s : stops is_space (trim_start s).
Proof.
induction s as [|c s IH]; simpl; [done|].
by destruct (is_space c) eqn:Hc.
Qed.

Lemma trim_subseteq s c : c ∈ trim s → c ∈ s.
Proof.
unfold trim. rewrite elem_of_reverse.
destruct (trim_start_suffix (reverse (trim_start s))) as [pre1 H1].
destruct (trim_start_suffix s) as [pre2 H2].
intros Hc.
assert (c ∈ reverse (trim_start s)) as Hc'.
{ rewrite H1, elem_of_app. by right. }
rewrite elem_of_reverse in Hc'. rewrite H2, elem_of_app. by right.
Qed.

Lemma trim_stops s :
stops is_space (trim s) ∧ stops is_space (reverse (trim s)).
Proof.
unfold trim. rewrite reverse_involutive. split; [|apply trim_start_stops].
pose proof (trim_start_stops s) as Hs.
destruct (trim_start_suffix (reverse (trim_start s))) as [pre Hpre].
apply (f_equal reverse) in Hpre.
rewrite reverse_involutive, reverse_app in Hpre.
destruct (reverse (trim_start (reverse (trim_start s)))) as [|c t]; [done|].
rewrite Hpre in Hs. done.
Qed.

(** An input without [figma.com] is cut at every comma and each piece
    is trimmed: there is one id more than there are commas, so never an
    empty list, and no id has a comma in it or white space at either
    end. *)
Theorem parseNodeIds_list (input : jsstring) :
includes (str "figma.com") input = false →
length (parseNodeIds input) = S (length (filter (λ c, c = 44%N) input)) ∧
Forall (λ id, (44%N ∉ id) ∧ stops is_space id ∧ stops is_space (reverse id))
  (parseNodeIds input).
Proof.
intros Hin. unfold parseNodeIds. rewrite Hin.
destruct (split_loop_single 44%N input [] (not_elem_of_nil _))
  as [Hlen Hall].
unfold split. change (str ",") with [44%N].
rewrite length_fmap, Forall_fmap. split; [done|].
eapply Forall_impl; [done|]. intros piece Hpiece. simpl.
split; [|apply trim_stops]. intros Hc. by apply Hpiece, trim_subseteq.
Qed.

Lemma parseNodeIds_list_witness :
length (parseNodeIds (str "1:2, 3:4 ,,5:6"))
  = S (length (filter (λ c, c = 44%N) (str "1:2, 3:4 ,,5:6"))) ∧
Forall (λ id, (44%N ∉ id) ∧ stops is_space id ∧ stops is_space (reverse id))
  (parseNodeIds (str "1:2, 3:4 ,,5:6")).
Proof.
apply (parseNodeIds_list (str "1:2, 3:4 ,,5:6")).
vm_compute. reflexivity.
Defined.
